(** * The scene graph of the edge server (libraries/sceneGraph/SceneGraph.js)

    A shallow embedding of the [SceneGraph] class.  JavaScript objects are
    references, so the scene nodes live in a store ([heap]) addressed by
    locations; the registry [graph] maps string keys to locations, and the
    [parent] and [children] fields of a node hold locations.  A node that is
    deleted from the registry stays in the store, exactly as an object that
    is still referenced by its former children stays alive in JavaScript.

    Numbers are IEEE 754 binary64 values (Rocq's primitive floats), matrices
    are flat lists of them.

    [this.graph] is a plain object.  The registry [graph] is the map of its
    own properties; a lookup [this.graph[id]] also finds what the object
    inherits from [Object.prototype], and the methods that take a raw ID
    ([removeElementAndChildren], [deactivateElement], [activateElement],
    [getDistanceBetween], the keys of the data of
    [addDataFromSerializableGraph]) are modelled with that lookup ([resolve]).
    [deactivateElement] and [activateElement] write the [deactivated]
    property of what they find, so the state also records that property of
    the objects [Object.prototype] provides ([intrinsics]).

    What the embedding leaves out:
    - the keys built by [utilities.getUuid], which is not part of the class,
      are taken not to be names that [this.graph] inherits: the methods that
      address a node through [getUuid] look up own properties only;
    - an update callback is recorded when it is called and does nothing
      else: it does not call back into the graph and does not throw;
    - [console.log]. *)

From Stdlib Require Import Floats ZArith.
From stdpp Require Import gmap strings list.

(** ** Data *)

Abbreviation loc := nat.
Abbreviation matrix := (list float).

(** An update callback is a JavaScript function; only its identity matters
    here, every invocation is recorded in the trace [calls] of the graph. *)
Abbreviation callback := nat.

(** The value stored as [linkedVehicle], which the graph never reads: the
    linked frame or node object, by reference, or a boolean (the value of an
    inherited property that a [for ... in] loop of [addObjectAndChildren]
    visits). *)
Inductive vehicle :=
| Linked (ref : nat)
| Primitive (b : bool).

Definition identity : matrix :=
  [1; 0; 0; 0;
   0; 1; 0; 0;
   0; 0; 1; 0;
   0; 0; 0; 1]%float.

(** The literal matrix of [addRotateX]. *)
Definition rotateX : matrix :=
  [1; 0; 0; 0;
   0; -1; 0; 0;
   0; 0; 1; 0;
   0; 0; 0; 1]%float.

(** [Math.PI] *)
Definition Math_PI : float := 0x1.921fb54442d18p+1%float.

(** The functions of other modules that SceneGraph.js calls and whose code
    is not part of the class: the key construction of [utilities], and the
    matrix primitives of [utils]. *)
Class Collaborators := {
  (** Modelled from the spec: [utilities.getUuid], the deterministic key of a
      path of one to three segments; absent segments are [None]. *)
  getUuid : string → option string → option string → string;
  (** Modelled from the spec: [graphUtils.makeGroundPlaneRotationX]. *)
  makeGroundPlaneRotationX : float → matrix;
  (** Modelled from the spec: the composition of the world matrix of a
      parent (first argument) with a local matrix. *)
  multiplyMatrix : matrix → matrix → matrix;
  (** Modelled from the spec: the translation components of a matrix. *)
  getTranslation : matrix → float * float * float;
}.

(** Modelled from the spec: the fields of SceneNode.js (the Entity Node).
    SceneGraph.js itself reads or writes [id], [parent], [children],
    [needsRotateX], [deactivated], [linkedVehicle] and [worldMatrix]. *)
Record SceneNode := mkSceneNode {
  id : string;
  parent : option loc;
  children : list loc;
  localMatrix : matrix;
  worldMatrix : matrix;
  stale : bool;
  deactivated : bool;
  needsRotateX : bool;
  linkedVehicle : option vehicle;
  trackedPose : option (float * float * float);
}.

Definition set_parent (p : option loc) (n : SceneNode) : SceneNode :=
  mkSceneNode (id n) p (children n) (localMatrix n) (worldMatrix n) (stale n)
    (deactivated n) (needsRotateX n) (linkedVehicle n) (trackedPose n).
Definition set_children (f : list loc → list loc) (n : SceneNode) : SceneNode :=
  mkSceneNode (id n) (parent n) (f (children n)) (localMatrix n) (worldMatrix n)
    (stale n) (deactivated n) (needsRotateX n) (linkedVehicle n) (trackedPose n).
Definition set_localMatrix (m : matrix) (n : SceneNode) : SceneNode :=
  mkSceneNode (id n) (parent n) (children n) m (worldMatrix n) (stale n)
    (deactivated n) (needsRotateX n) (linkedVehicle n) (trackedPose n).
Definition set_worldMatrix (m : matrix) (n : SceneNode) : SceneNode :=
  mkSceneNode (id n) (parent n) (children n) (localMatrix n) m (stale n)
    (deactivated n) (needsRotateX n) (linkedVehicle n) (trackedPose n).
Definition set_stale (b : bool) (n : SceneNode) : SceneNode :=
  mkSceneNode (id n) (parent n) (children n) (localMatrix n) (worldMatrix n) b
    (deactivated n) (needsRotateX n) (linkedVehicle n) (trackedPose n).
Definition set_deactivated (b : bool) (n : SceneNode) : SceneNode :=
  mkSceneNode (id n) (parent n) (children n) (localMatrix n) (worldMatrix n)
    (stale n) b (needsRotateX n) (linkedVehicle n) (trackedPose n).
Definition set_needsRotateX (b : bool) (n : SceneNode) : SceneNode :=
  mkSceneNode (id n) (parent n) (children n) (localMatrix n) (worldMatrix n)
    (stale n) (deactivated n) b (linkedVehicle n) (trackedPose n).
Definition set_linkedVehicle (v : option vehicle) (n : SceneNode) : SceneNode :=
  mkSceneNode (id n) (parent n) (children n) (localMatrix n) (worldMatrix n)
    (stale n) (deactivated n) (needsRotateX n) v (trackedPose n).
Definition set_trackedPose (t : option (float * float * float)) (n : SceneNode)
  : SceneNode :=
  mkSceneNode (id n) (parent n) (children n) (localMatrix n) (worldMatrix n)
    (stale n) (deactivated n) (needsRotateX n) (linkedVehicle n) t.

(** Modelled from the spec: [new SceneNode(id)]; no parent, no children, the
    identity as local matrix, a world matrix still to be computed. *)
Definition newSceneNode (i : string) : SceneNode :=
  mkSceneNode i None [] identity identity true false false None None.

(** The record of a node in a snapshot (spec, Snapshot format). *)
Record SerializedNode := mkSerializedNode {
  s_localMatrix : matrix;
  s_parent : option string;
  s_children : list string;
  s_deactivated : bool;
  s_needsRotateX : bool;
  s_linkedVehicle : option vehicle;
}.

(** The state of a [SceneGraph] object, with the store of its nodes and the
    trace of the callbacks invoked so far.  [intrinsics] is the part of the
    JavaScript realm the class can write: the own [deactivated] property of
    the objects that [this.graph] inherits from [Object.prototype], by the
    name under which they are inherited; the name [__proto__] stands for
    [Object.prototype] itself. *)
Record SceneGraph := mkSceneGraph {
  graph : gmap string loc;
  heap : list SceneNode;
  rootNode : loc;
  updateCallbacks : list callback;
  calls : list callback;
  intrinsics : gmap string bool;
}.

Definition set_graph (g : gmap string loc) (s : SceneGraph) : SceneGraph :=
  mkSceneGraph g (heap s) (rootNode s) (updateCallbacks s) (calls s) (intrinsics s).
Definition set_heap (h : list SceneNode) (s : SceneGraph) : SceneGraph :=
  mkSceneGraph (graph s) h (rootNode s) (updateCallbacks s) (calls s) (intrinsics s).
Definition set_intrinsics (w : gmap string bool) (s : SceneGraph) : SceneGraph :=
  mkSceneGraph (graph s) (heap s) (rootNode s) (updateCallbacks s) (calls s) w.

(** ** Reading the store *)

Definition idOf (h : list SceneNode) (l : loc) : string :=
  from_option id "" (h !! l).
Definition parentOf (h : list SceneNode) (l : loc) : option loc :=
  h !! l ≫= parent.
Definition childrenOf (h : list SceneNode) (l : loc) : list loc :=
  from_option children [] (h !! l).
Definition needsRotateXOf (h : list SceneNode) (l : loc) : bool :=
  from_option needsRotateX false (h !! l).
Definition deactivatedOf (h : list SceneNode) (l : loc) : bool :=
  from_option deactivated false (h !! l).
Definition worldMatrixOf (h : list SceneNode) (l : loc) : matrix :=
  from_option worldMatrix identity (h !! l).

(** ** SceneNode methods (SceneNode.js) *)

(** [children.indexOf(x)] followed by [children.splice(index, 1)] when the
    index is not -1: the first occurrence goes. *)
Fixpoint remove_first (x : loc) (cs : list loc) : list loc :=
  match cs with
  | [] => []
  | c :: cs' => if decide (c = x) then cs' else c :: remove_first x cs'
  end.

(** The nodes below [l], itself included, following [children]; [fuel]
    bounds the depth. *)
Fixpoint subtree (fuel : nat) (h : list SceneNode) (l : loc) : list loc :=
  match fuel with
  | 0 => []
  | S f => l :: flat_map (subtree f h) (childrenOf h l)
  end.

(** Modelled from the spec: marks self and the entire subtree stale.  A path
    without repetition has at most [length h] nodes, so that depth reaches
    the whole subtree. *)
Definition markStale (h : list SceneNode) (l : loc) : list SceneNode :=
  foldr (λ x acc, alter (set_stale true) x acc) h (subtree (length h) h l).

(** Removes [l] from the children of its current parent, if it has one. *)
Definition detach (h : list SceneNode) (l : loc) : list SceneNode :=
  match parentOf h l with
  | Some q => alter (set_children (remove_first l)) q h
  | None => h
  end.

(** Modelled from the spec: [setParent(newParent)] removes self from the
    current parent's children (if any), appends self to
    [newParent.children], sets [parent], marks self and the entire subtree
    stale. *)
Definition setParent (h : list SceneNode) (l p : loc) : list SceneNode :=
  let h1 := detach h l in
  let h2 := alter (set_children (λ cs, cs ++ [l])) p h1 in
  let h3 := alter (set_parent (Some p)) l h2 in
  markStale h3 l.

(** Modelled from the spec: [setLocalMatrix(m)] stores [m], marks self and
    subtree stale. *)
Definition setLocalMatrix (h : list SceneNode) (l : loc) (m : matrix)
  : list SceneNode :=
  markStale (alter (set_localMatrix m) l h) l.

(** Modelled from the spec: [updateVehicleXYScale(x, y, scale)] sets the
    tracked pose, independently of the local matrix. *)
Definition updateVehicleXYScale (h : list SceneNode) (l : loc) (x y scale : float)
  : list SceneNode :=
  alter (set_trackedPose (Some (x, y, scale))) l h.

Section SceneGraph.
Context `{Collaborators}.

(** Modelled from the spec: [updateWorldMatrix()]; if not stale, return
    immediately; otherwise the world matrix is the parent's world matrix
    composed with the local matrix (the identity takes the place of the
    parent's for a node without parent, the root), stale is cleared, and
    every child is visited.  Every visit that does not return at once
    clears one stale flag, which bounds the depth of the recursion; [fuel]
    is that bound (see [updateWorldMatrix_fuel]). *)
Fixpoint updateWorldMatrix (fuel : nat) (h : list SceneNode) (l : loc)
  : list SceneNode :=
  match fuel with
  | 0 => h
  | S f =>
    match h !! l with
    | None => h
    | Some n =>
      if stale n then
        let pw := from_option (worldMatrixOf h) identity (parent n) in
        let n' := set_stale false (set_worldMatrix (multiplyMatrix pw (localMatrix n)) n) in
        foldl (updateWorldMatrix f) (<[l := n']> h) (children n)
      else h
    end
  end.

(** Modelled from the spec: [getDistanceTo(other)], the Euclidean norm of the
    difference between the translation components of the two world
    matrices. *)
Definition euclidean (a b : float * float * float) : float :=
  let '(ax, ay, az) := a in
  let '(bx, by_, bz) := b in
  let dx := (ax - bx)%float in
  let dy := (ay - by_)%float in
  let dz := (az - bz)%float in
  PrimFloat.sqrt (dx * dx + dy * dy + dz * dz)%float.

Definition getDistanceTo (h : list SceneNode) (a b : loc) : float :=
  euclidean (getTranslation (worldMatrixOf h a)) (getTranslation (worldMatrixOf h b)).

(** Modelled from the spec: [initFromSerializedCopy(record, graph)] copies
    the local matrix, the flags and the payload of the record, and resolves
    the parent ID and the children IDs in the registry of the graph. *)
Definition hydrate (g : gmap string loc) (r : SerializedNode) (n : SceneNode)
  : SceneNode :=
  mkSceneNode (id n) (s_parent r ≫= (g !!.)) (omap (g !!.) (s_children r))
    (s_localMatrix r) (worldMatrix n) (stale n)
    (s_deactivated r) (s_needsRotateX r) (s_linkedVehicle r) (trackedPose n).

Definition initFromSerializedCopy (h : list SceneNode) (l : loc)
    (r : SerializedNode) (g : gmap string loc) : list SceneNode :=
  alter (hydrate g r) l h.

(** ** The SceneGraph class *)

(** [this.NAMES] *)
Definition ROOT : string := "ROOT".
Definition CAMERA : string := "CAMERA".
Definition GROUNDPLANE : string := "GROUNDPLANE".

(** [constructor()], in a realm whose intrinsic objects have no
    [deactivated] property yet. *)
Definition constructor : SceneGraph :=
  mkSceneGraph {[ROOT := 0]} [newSceneNode ROOT] 0 [] [] ∅.

(** ** Property lookup in [this.graph]

    [this.graph] is created as [{}], so its prototype is [Object.prototype].
    A lookup finds an own property first and then what the prototype
    provides. *)

(** The own properties of [Object.prototype].  All are functions, except
    [__proto__], an accessor that returns the prototype of the object, here
    [Object.prototype] itself. *)
Definition prototypeNames : list string :=
  ["constructor"; "__defineGetter__"; "__defineSetter__"; "hasOwnProperty";
   "__lookupGetter__"; "__lookupSetter__"; "isPrototypeOf";
   "propertyIsEnumerable"; "toString"; "valueOf"; "__proto__";
   "toLocaleString"].

(** What [this.graph[key]] evaluates to. *)
Inductive value :=
| VNode (l : loc)
| VIntrinsic (name : string)
| VBoolean (b : bool)
| VUndefined.

(** The property [key] as [Object.prototype] provides it.  Once
    [deactivateElement] has been addressed to [__proto__],
    [Object.prototype] has a property [deactivated] of its own, a boolean,
    and every object inherits it. *)
Definition inherited (w : gmap string bool) (key : string) : value :=
  if bool_decide (key ∈ prototypeNames) then VIntrinsic key
  else if bool_decide (key = "deactivated")
       then from_option VBoolean VUndefined (w !! "__proto__")
       else VUndefined.

(** [this.graph[key]] *)
Definition resolve (s : SceneGraph) (key : string) : value :=
  match graph s !! key with
  | Some l => VNode l
  | None => inherited (intrinsics s) key
  end.

(** [if (v)]: an object or a function is truthy, [undefined] is not. *)
Definition truthy (v : value) : bool :=
  match v with
  | VNode _ | VIntrinsic _ => true
  | VBoolean b => b
  | VUndefined => false
  end.

(** [v.deactivated] as a condition, for the intrinsic object inherited under
    [name]: its own property if it has one, else the property of
    [Object.prototype], which every function inherits; [undefined] is
    falsy. *)
Definition deactivatedOfIntrinsic (w : gmap string bool) (name : string) : bool :=
  match w !! name with
  | Some b => b
  | None => default false (w !! "__proto__")
  end.

(** [if (typeof this.graph[uuid] !== 'undefined') { sceneNode = this.graph[uuid] }
     else { sceneNode = new SceneNode(uuid); this.graph[uuid] = sceneNode }] *)
Definition getOrCreate (s : SceneGraph) (uuid : string) : loc * SceneGraph :=
  match graph s !! uuid with
  | Some l => (l, s)
  | None =>
    let l := length (heap s) in
    (l, set_graph (<[uuid := l]> (graph s)) (set_heap (heap s ++ [newSceneNode uuid]) s))
  end.

(** [triggerUpdateCallbacks()]: every registered callback is called, in the
    order of the array. *)
Definition triggerUpdateCallbacks (s : SceneGraph) : SceneGraph :=
  mkSceneGraph (graph s) (heap s) (rootNode s) (updateCallbacks s)
    (calls s ++ updateCallbacks s) (intrinsics s).

(** [onUpdate(callback)] *)
Definition onUpdate (s : SceneGraph) (cb : callback) : SceneGraph :=
  mkSceneGraph (graph s) (heap s) (rootNode s) (updateCallbacks s ++ [cb])
    (calls s) (intrinsics s).

(** [addRotateX(parentSceneNode, groundPlaneVariation)] *)
Definition addRotateX (s : SceneGraph) (parentSceneNode : loc)
    (groundPlaneVariation : bool) : SceneGraph :=
  let s1 := set_heap (alter (set_needsRotateX true) parentSceneNode (heap s)) s in
  let thisNodeId := idOf (heap s1) parentSceneNode +:+ "rotateX" in
  let '(sceneNode, s2) := getOrCreate s1 thisNodeId in
  let h3 := setParent (heap s2) sceneNode parentSceneNode in
  let m := if groundPlaneVariation
           then makeGroundPlaneRotationX (- (Math_PI / 2))%float
           else rotateX in
  set_heap (setLocalMatrix h3 sceneNode m) s2.

(** [addObject(objectId, initialLocalMatrix, needsRotateX)] *)
Definition addObject (s : SceneGraph) (objectId : string)
    (initialLocalMatrix : option matrix) (needsRotateX : bool) : SceneGraph :=
  let uuid := getUuid objectId None None in
  let '(sceneNode, s1) := getOrCreate s uuid in
  let s2 := set_heap (setParent (heap s1) sceneNode (rootNode s1)) s1 in
  let s3 := match initialLocalMatrix with
            | Some m => set_heap (setLocalMatrix (heap s2) sceneNode m) s2
            | None => s2
            end in
  let s4 := if needsRotateX then addRotateX s3 sceneNode false else s3 in
  triggerUpdateCallbacks s4.

(** [addFrame(objectId, frameId, linkedFrame, initialLocalMatrix)].  When the
    object needs the rotation and no node is registered under its
    [rotateX] key, [setParent] is called with [undefined], which the
    description of [setParent] does not cover: the result is [None]. *)
Definition addFrame (s : SceneGraph) (objectId frameId : string)
    (linkedFrame : option vehicle) (initialLocalMatrix : option matrix)
  : option SceneGraph :=
  let uuid := getUuid objectId (Some frameId) None in
  let '(sceneNode, s1) := getOrCreate s uuid in
  let objectUuid := getUuid objectId None None in
  s2 ← match graph s1 !! objectUuid with
       | Some objectNode =>
         if needsRotateXOf (heap s1) objectNode then
           match graph s1 !! (objectUuid +:+ "rotateX") with
           | Some r => Some (set_heap (setParent (heap s1) sceneNode r) s1)
           | None => None
           end
         else Some (set_heap (setParent (heap s1) sceneNode objectNode) s1)
       | None => Some s1
       end;
  let s3 := match linkedFrame with
            | Some v => set_heap (alter (set_linkedVehicle (Some v)) sceneNode (heap s2)) s2
            | None => s2
            end in
  let s4 := match initialLocalMatrix with
            | Some m => set_heap (setLocalMatrix (heap s3) sceneNode m) s3
            | None => s3
            end in
  Some (triggerUpdateCallbacks s4).

(** [addNode(objectId, frameId, nodeId, linkedNode, initialLocalMatrix)] *)
Definition addNode (s : SceneGraph) (objectId frameId nodeId : string)
    (linkedNode : option vehicle) (initialLocalMatrix : option matrix)
  : SceneGraph :=
  let uuid := getUuid objectId (Some frameId) (Some nodeId) in
  let '(sceneNode, s1) := getOrCreate s uuid in
  let frameUuid := getUuid objectId (Some frameId) None in
  let s2 := match graph s1 !! frameUuid with
            | Some frameNode => set_heap (setParent (heap s1) sceneNode frameNode) s1
            | None => s1
            end in
  let s3 := match linkedNode with
            | Some v => set_heap (alter (set_linkedVehicle (Some v)) sceneNode (heap s2)) s2
            | None => s2
            end in
  let s4 := match initialLocalMatrix with
            | Some m => set_heap (setLocalMatrix (heap s3) sceneNode m) s3
            | None => s3
            end in
  triggerUpdateCallbacks s4.

(** [removeElementAndChildren(id)].  An inherited function, object or
    [true] passes [if (sceneNode)]; it has no property [parent], and
    [delete] finds no own property to delete; the callbacks are called. *)
Definition removeElementAndChildren (s : SceneGraph) (i : string) : SceneGraph :=
  match resolve s i with
  | VNode sceneNode =>
    let h1 := match parentOf (heap s) sceneNode with
              | Some parentNode =>
                alter (set_children (remove_first sceneNode)) parentNode (heap s)
              | None => heap s
              end in
    triggerUpdateCallbacks (set_graph (delete i (graph s)) (set_heap h1 s))
  | VIntrinsic _ | VBoolean true => triggerUpdateCallbacks s
  | VBoolean false | VUndefined => s
  end.

(** [recomputeGraph()] *)
Definition recomputeGraph (s : SceneGraph) : SceneGraph :=
  set_heap (updateWorldMatrix (S (length (heap s))) (heap s) (rootNode s)) s.

(** [getDistanceBetween(keyA, keyB)]: the graph after the recomputation and
    the value returned, [None] for a TypeError.  When both values are truthy
    and [nodeA] is not a node, [nodeA.getDistanceTo] is not a function.
    Modelled from the spec: when [nodeA] is a node and [nodeB] is not,
    [getDistanceTo] finds no world matrix to take the translation of, a
    TypeError too. *)
Definition getDistanceBetween (s : SceneGraph) (keyA keyB : string)
  : SceneGraph * option float :=
  let s1 := recomputeGraph s in
  let nodeA := resolve s1 keyA in
  let nodeB := resolve s1 keyB in
  (s1,
   if truthy nodeA && truthy nodeB then
     match nodeA, nodeB with
     | VNode a, VNode b => Some (getDistanceTo (heap s1) a b)
     | _, _ => None
     end
   else Some (-1)%float).

(** [updateWithPositionData(objectId, frameId, nodeId, localMatrix, x, y, scale)] *)
Definition updateWithPositionData (s : SceneGraph) (objectId : string)
    (frameId nodeId : option string) (localMatrix : matrix) (x y scale : float)
  : SceneGraph :=
  let i := getUuid objectId frameId nodeId in
  match graph s !! i with
  | Some sceneNode =>
    let h1 := updateVehicleXYScale (heap s) sceneNode x y scale in
    let h2 := setLocalMatrix h1 sceneNode localMatrix in
    triggerUpdateCallbacks (set_heap h2 s)
  | None => s
  end.

(** [updateObjectWorldId(objectId, worldId)] *)
Definition updateObjectWorldId (s : SceneGraph) (objectId worldId : string)
  : SceneGraph :=
  if decide (objectId = worldId) then s
  else
    match graph s !! getUuid objectId None None, graph s !! getUuid worldId None None with
    | Some objectNode, Some worldNode =>
      set_heap (setParent (heap s) objectNode worldNode) s
    | _, _ => s
    end.

(** [deactivateElement(id)].  For an inherited function or object the
    flag is written to that object.  The inherited [true] reads
    [true.deactivated] as the property of [Object.prototype] it is itself,
    so nothing is done; [false] and [undefined] are falsy. *)
Definition deactivateElement (s : SceneGraph) (i : string) : SceneGraph :=
  match resolve s i with
  | VNode node =>
    if negb (deactivatedOf (heap s) node)
    then triggerUpdateCallbacks (set_heap (alter (set_deactivated true) node (heap s)) s)
    else s
  | VIntrinsic name =>
    if negb (deactivatedOfIntrinsic (intrinsics s) name)
    then triggerUpdateCallbacks (set_intrinsics (<[name := true]> (intrinsics s)) s)
    else s
  | VBoolean _ | VUndefined => s
  end.

(** [activateElement(id)]; [None] is a TypeError.  For the inherited [true]
    the condition holds, and the assignment [node.deactivated = false] to a
    primitive value raises a TypeError: a class body is strict mode code. *)
Definition activateElement (s : SceneGraph) (i : string) : option SceneGraph :=
  match resolve s i with
  | VNode node =>
    Some (if deactivatedOf (heap s) node
          then triggerUpdateCallbacks
                 (set_heap (alter (set_deactivated false) node (heap s)) s)
          else s)
  | VIntrinsic name =>
    Some (if deactivatedOfIntrinsic (intrinsics s) name
          then triggerUpdateCallbacks
                 (set_intrinsics (<[name := false]> (intrinsics s)) s)
          else s)
  | VBoolean true => None
  | VBoolean false | VUndefined => Some s
  end.

(** [data[key]], for a snapshot given as the list of its entries in the
    order of [for (var key in data)]. *)
Fixpoint data_lookup (data : list (string * SerializedNode)) (key : string)
  : option SerializedNode :=
  match data with
  | [] => None
  | (k, r) :: data' => if decide (k = key) then Some r else data_lookup data' key
  end.

(** First loop of [addDataFromSerializableGraph]: a placeholder for every
    key for which [typeof this.graph[key]] is ['undefined']; returns
    [nodesToUpdate] too.  (A key that the loop visits because [data]
    inherits it is inherited by [this.graph] as well, and skipped.) *)
Fixpoint addPlaceholders (s : SceneGraph) (keys : list string)
  : SceneGraph * list string :=
  match keys with
  | [] => (s, [])
  | key :: keys' =>
    match resolve s key with
    | VUndefined =>
      let l := length (heap s) in
      let s1 := set_graph (<[key := l]> (graph s))
                  (set_heap (heap s ++ [newSceneNode key]) s) in
      let '(s2, nodesToUpdate) := addPlaceholders s1 keys' in
      (s2, key :: nodesToUpdate)
    | _ => addPlaceholders s keys'
    end
  end.

(** Second loop: [nodesToUpdate.forEach(...)]. *)
Definition hydrateNodes (data : list (string * SerializedNode)) (s : SceneGraph)
    (nodesToUpdate : list string) : SceneGraph :=
  foldl (λ s key,
           match graph s !! key, data_lookup data key with
           | Some sceneNode, Some r =>
             set_heap (initFromSerializedCopy (heap s) sceneNode r (graph s)) s
           | _, _ => s
           end) s nodesToUpdate.

(** [addDataFromSerializableGraph(data)] *)
Definition addDataFromSerializableGraph (s : SceneGraph)
    (data : list (string * SerializedNode)) : SceneGraph :=
  let '(s1, nodesToUpdate) := addPlaceholders s (data.*1) in
  hydrateNodes data s1 nodesToUpdate.

(** [getWorldPosition(objectId, frameId, nodeId)] *)
Definition getWorldPosition (s : SceneGraph) (objectId : string)
    (frameId nodeId : option string) : SceneGraph * option matrix :=
  let s1 := recomputeGraph s in
  (s1, worldMatrixOf (heap s1) <$> graph s1 !! getUuid objectId frameId nodeId).

(** The statements of [addObject] before the rotation node, as a function of
    their own (see [addObject_unfold]). *)
Definition placeObject (s : SceneGraph) (uuid : string)
    (initialLocalMatrix : option matrix) : loc * SceneGraph :=
  let '(sceneNode, s1) := getOrCreate s uuid in
  let s2 := set_heap (setParent (heap s1) sceneNode (rootNode s1)) s1 in
  (sceneNode,
   match initialLocalMatrix with
   | Some m => set_heap (setLocalMatrix (heap s2) sceneNode m) s2
   | None => s2
   end).

(** ** Sequences of calls *)

Inductive op :=
| AddObject (objectId : string) (initialLocalMatrix : option matrix) (needsRotateX : bool)
| AddFrame (objectId frameId : string) (linkedFrame : option vehicle)
    (initialLocalMatrix : option matrix)
| AddNode (objectId frameId nodeId : string) (linkedNode : option vehicle)
    (initialLocalMatrix : option matrix)
| RemoveElementAndChildren (i : string)
| RecomputeGraph
| GetDistanceBetween (keyA keyB : string)
| UpdateWithPositionData (objectId : string) (frameId nodeId : option string)
    (localMatrix : matrix) (x y scale : float)
| UpdateObjectWorldId (objectId worldId : string)
| OnUpdate (cb : callback)
| DeactivateElement (i : string)
| ActivateElement (i : string)
| AddDataFromSerializableGraph (data : list (string * SerializedNode))
| GetWorldPosition (objectId : string) (frameId nodeId : option string).

Definition step (s : SceneGraph) (o : op) : option SceneGraph :=
  match o with
  | AddObject o m b => Some (addObject s o m b)
  | AddFrame o f v m => addFrame s o f v m
  | AddNode o f n v m => Some (addNode s o f n v m)
  | RemoveElementAndChildren i => Some (removeElementAndChildren s i)
  | RecomputeGraph => Some (recomputeGraph s)
  | GetDistanceBetween a b =>
    let r := getDistanceBetween s a b in
    match r.2 with Some _ => Some r.1 | None => None end
  | UpdateWithPositionData o f n m x y sc => Some (updateWithPositionData s o f n m x y sc)
  | UpdateObjectWorldId o w => Some (updateObjectWorldId s o w)
  | OnUpdate cb => Some (onUpdate s cb)
  | DeactivateElement i => Some (deactivateElement s i)
  | ActivateElement i => activateElement s i
  | AddDataFromSerializableGraph data => Some (addDataFromSerializableGraph s data)
  | GetWorldPosition o f n => Some (getWorldPosition s o f n).1
  end.

Fixpoint run (s : SceneGraph) (ops : list op) : option SceneGraph :=
  match ops with
  | [] => Some s
  | o :: ops' => s' ← step s o; run s' ops'
  end.

End SceneGraph.

(** ** Predicates on stores and graphs *)

(** What an update of transforms, staleness, payload or activation leaves
    alone: the identifier, the links and the rotation flag of a node. *)
Definition skeleton (n : SceneNode) : string * option loc * list loc * bool :=
  (id n, parent n, children n, needsRotateX n).

Definition same_skeleton (h h' : list SceneNode) : Prop :=
  skeleton <$> h = skeleton <$> h'.

(** No link of the store leaves the store. *)
Definition links_valid (h : list SceneNode) : Prop :=
  Forall (λ x, from_option (λ p, p < length h) True (parentOf h x) ∧
               Forall (λ c, c < length h) (childrenOf h x))
         (seq 0 (length h)).

(** The states the class can be in: the root and every registered node are
    in the store, a node is registered under its own identifier (so no node
    is registered twice), and no link dangles. *)
Definition wf (s : SceneGraph) : Prop :=
  rootNode s < length (heap s) ∧
  map_Forall (λ k l, l < length (heap s) ∧ idOf (heap s) l = k) (graph s) ∧
  links_valid (heap s).

#[global] Instance links_valid_dec h : Decision (links_valid h).
Proof.
  unfold links_valid. apply Forall_dec. intros x.
  destruct (parentOf h x); simpl; apply _.
Defined.

#[global] Instance wf_dec s : Decision (wf s).
Proof. unfold wf. apply _. Defined.

(** A change of the store that keeps the nodes in place, with their
    identifiers, and keeps the links inside the store. *)
Definition store_step (h h' : list SceneNode) : Prop :=
  length h' = length h ∧ (∀ x, idOf h' x = idOf h x) ∧
  (links_valid h → links_valid h').

(** [c] is in the children array of [p]: the owning edges of the tree. *)
Definition edge (h : list SceneNode) (p c : loc) : Prop := c ∈ childrenOf h p.

(** [d] is reached from [a] along one or more edges. *)
Inductive descendant (h : list SceneNode) (a : loc) : loc → Prop :=
| descendant_child c : edge h a c → descendant h a c
| descendant_step c d : descendant h a c → edge h c d → descendant h a d.

(** Two stores with the same tree: the same nodes in place, the same parent
    of every node, the same children of every node up to their order. *)
Definition same_shape (h h' : list SceneNode) : Prop :=
  length h = length h' ∧
  (∀ x, idOf h x = idOf h' x) ∧
  (∀ x, parentOf h x = parentOf h' x) ∧
  (∀ x, childrenOf h x ≡ₚ childrenOf h' x).

(** Node [l] is in the children of its parent only, and once there. *)
Definition owned_by_parent (h : list SceneNode) (l : loc) : Prop :=
  Forall (λ q, l ∈ childrenOf h q →
               parentOf h l = Some q ∧ l ∉ remove_first l (childrenOf h q))
         (seq 0 (length h)).

#[global] Instance owned_by_parent_dec h l : Decision (owned_by_parent h l).
Proof. unfold owned_by_parent. apply _. Defined.

(** The call [o] is [removeElementAndChildren(k)]. *)
Definition removes (k : string) (o : op) : Prop :=
  match o with
  | RemoveElementAndChildren i => i = k
  | _ => False
  end.

#[global] Instance removes_dec k o : Decision (removes k o).
Proof. destruct o; simpl; apply _. Defined.

(** Every node is in the children of its parent only, and once: the
    children arrays own a forest. *)
Definition tree_shaped (h : list SceneNode) : Prop := ∀ l, owned_by_parent h l.

(** The call [o] is [addDataFromSerializableGraph(data)]. *)
Definition imports (o : op) : Prop :=
  match o with
  | AddDataFromSerializableGraph _ => True
  | _ => False
  end.

#[global] Instance imports_dec o : Decision (imports o).
Proof. destruct o; simpl; apply _. Defined.

(** The number of stale nodes of a store. *)
Definition staleCount (h : list SceneNode) : nat :=
  sum_list_with (λ n, if stale n then 1 else 0) h.

(** ** A concrete setting

    One choice of the collaborators, to run the methods on examples: the key
    of a path is the concatenation of its segments, a point is a row vector,
    so the translation of a matrix is in its entries 12 to 14 and a local
    matrix is multiplied on the left of the world matrix of the parent. *)

Definition concatUuid (o : string) (f n : option string) : string :=
  o +:+ default "" f +:+ default "" n.

Definition entry (m : matrix) (i : nat) : float := nth i m 0%float.

Definition multiplyMatrix4 (a b : matrix) : matrix :=
  flat_map (λ i,
    map (λ j, (entry a (4 * i) * entry b j
               + entry a (4 * i + 1) * entry b (4 + j)
               + entry a (4 * i + 2) * entry b (8 + j)
               + entry a (4 * i + 3) * entry b (12 + j))%float)
        [0; 1; 2; 3])
    [0; 1; 2; 3].

Definition translation4 (m : matrix) : float * float * float :=
  (entry m 12, entry m 13, entry m 14).

(** The rotation about the X axis by [-(Math.PI/2)], the one angle
    [makeGroundPlaneRotationX] is called with. *)
Definition groundPlaneRotationX (angle : float) : matrix :=
  [1; 0; 0; 0;
   0; 0; -1; 0;
   0; 1; 0; 0;
   0; 0; 0; 1]%float.

Definition toolbox : Collaborators :=
  {| getUuid := concatUuid;
     makeGroundPlaneRotationX := groundPlaneRotationX;
     multiplyMatrix := λ parentWorld localM, multiplyMatrix4 localM parentWorld;
     getTranslation := translation4 |}.

(** An object with its rotation node (locations 1 and 2) and a world object
    (location 3), with one callback registered. *)
Definition two_objects : SceneGraph :=
  addObject (H := toolbox)
    (addObject (H := toolbox) (onUpdate constructor 7) "O1" (Some rotateX) true)
    "W1" None false.

(** A snapshot in which two nodes list the same child, and the graph that
    imported it into a new graph and then added the first of them as an
    object. *)
Definition two_parents : list (string * SerializedNode) :=
  [("A", mkSerializedNode identity None ["X"] false false None);
   ("B", mkSerializedNode identity None ["X"] false false None);
   ("X", mkSerializedNode identity (Some "B") [] false false None)].

Definition imported : SceneGraph :=
  addObject (H := toolbox) (addDataFromSerializableGraph constructor two_parents)
    "A" None false.

(** A new graph with one callback registered. *)
Definition one_callback : SceneGraph := onUpdate constructor 7.

(** A snapshot with a record under a key that every object inherits. *)
Definition inherited_key : list (string * SerializedNode) :=
  [("toString", mkSerializedNode identity None [] false false None)].


(** A snapshot with a record for the registered object and a record for an
    unknown frame below it. *)
Definition snapshot : list (string * SerializedNode) :=
  [("O1", mkSerializedNode identity (Some "ROOT") ["O1F1"] true false None);
   ("O1F1", mkSerializedNode rotateX (Some "O1") [] false false (Some (Linked 5)))].

(** ** The other methods of the class *)

(** The objects [addObjectAndChildren] reads: an object with its matrix and
    its frames, a frame with [ar.matrix] and its nodes, a node with its
    matrix.  A frame or a node is also passed on as the linked vehicle; the
    reference the graph then stores is [frame_ref] or [node_ref].
    [object.frames] and [frame.nodes] are plain objects, given by their own
    properties in the order of [for ... in]. *)
Record NodeData := mkNodeData {
  node_ref : vehicle;
  node_matrix : option matrix;
}.

Record FrameData := mkFrameData {
  frame_ref : vehicle;
  frame_ar_matrix : option matrix;
  frame_nodes : list (string * NodeData);
}.

Record ObjectData := mkObjectData {
  object_matrix : option matrix;
  object_frames : list (string * FrameData);
}.

(** What [for ... in] over a plain object with the own keys [own] visits
    after them: the property [deactivated] of [Object.prototype], which is
    enumerable once it was written, unless an own property shadows it. *)
Definition inheritedEnumerable (w : gmap string bool) (own : list string)
  : option bool :=
  if bool_decide ("deactivated" ∈ own) then None else w !! "__proto__".

(** The inner loop of [addObjectAndChildren].  For an inherited key the
    node is a boolean [b]: it is passed as [linkedNode], and [b.matrix] is
    [undefined]. *)
Definition addNodes `{Collaborators} (s : SceneGraph) (objectId frameId : string)
    (nodes : list (string * NodeData)) : SceneGraph :=
  let s1 := foldl (λ s nd, addNode s objectId frameId nd.1 (Some (node_ref nd.2))
                             (node_matrix nd.2))
                  s nodes in
  match inheritedEnumerable (intrinsics s) (nodes.*1) with
  | Some b => addNode s1 objectId frameId "deactivated" (Some (Primitive b)) None
  | None => s1
  end.

(** The body of the outer loop of [addObjectAndChildren], for a frame that
    is an own property. *)
Definition addFrameAndNodes `{Collaborators} (s : SceneGraph) (objectId : string)
    (fr : string * FrameData) : option SceneGraph :=
  s1 ← addFrame s objectId fr.1 (Some (frame_ref fr.2)) (frame_ar_matrix fr.2);
  Some (addNodes s1 objectId fr.1 (frame_nodes fr.2)).

(** The outer loop of [addObjectAndChildren] over the own properties. *)
Definition addFrames `{Collaborators} (s : SceneGraph) (objectId : string)
    (frames : list (string * FrameData)) : option SceneGraph :=
  foldl (λ acc fr, s ← acc; addFrameAndNodes s objectId fr) (Some s) frames.

(** [addObjectAndChildren(objectId, object)]; [None] is a TypeError.  For an
    inherited key the frame is a boolean, [frame.ar] is [undefined], and
    reading [frame.ar.matrix] raises a TypeError. *)
Definition addObjectAndChildren `{Collaborators} (s : SceneGraph)
    (objectId : string) (object : ObjectData) : option SceneGraph :=
  let r := addFrames (addObject s objectId (object_matrix object) true)
             objectId (object_frames object) in
  match inheritedEnumerable (intrinsics s) ((object_frames object).*1) with
  | Some _ => None
  | None => r
  end.

(** The number of calls of [addObject], [addFrame] and [addNode] that
    [addObjectAndChildren] makes. *)
Definition entityCount (object : ObjectData) : nat :=
  S (sum_list_with (λ fr, S (length (frame_nodes fr.2))) (object_frames object)).

(** The keys [addObjectAndChildren] addresses. *)
Definition entityKeys `{Collaborators} (objectId : string) (object : ObjectData)
  : list string :=
  getUuid objectId None None ::
  flat_map (λ fr, getUuid objectId (Some fr.1) None ::
                  map (λ nd, getUuid objectId (Some fr.1) (Some nd.1))
                      (frame_nodes fr.2))
           (object_frames object).

(** Modelled from the spec: [getSerializableCopy()] of a node, the record of
    its local matrix, the ID of its parent, the IDs of its children, its
    flags and its payload. *)
Definition serializeNode (h : list SceneNode) (n : SceneNode) : SerializedNode :=
  mkSerializedNode (localMatrix n) (idOf h <$> parent n) (idOf h <$> children n)
    (deactivated n) (needsRotateX n) (linkedVehicle n).

(** [getSerializableCopy()]: the graph after the recomputation and the copy,
    one entry for every key of the registry.  The registry does not record
    the order in which keys were added; the entries are listed in the order
    of [map_to_list].  When [this.graph] inherits the enumerable property
    [deactivated], the loop visits that key too; its value is a boolean,
    and [sceneNode.getSerializableCopy] is not a function: a TypeError,
    [None]. *)
Definition getSerializableCopy `{Collaborators} (s : SceneGraph)
  : SceneGraph * option (list (string * SerializedNode)) :=
  let s1 := recomputeGraph s in
  (s1,
   match resolve s1 "deactivated" with
   | VBoolean _ => None
   | _ =>
     Some (omap (λ kl, (λ n, (kl.1, serializeNode (heap s1) n)) <$> heap s1 !! kl.2)
                (map_to_list (graph s1)))
   end).

(** The callbacks that a sequence of calls registers, in order. *)
Definition registered (ops : list op) : list callback :=
  omap (λ o, match o with OnUpdate cb => Some cb | _ => None end) ops.

Definition localMatrixOf (h : list SceneNode) (l : loc) : option matrix :=
  localMatrix <$> h !! l.
Definition trackedPoseOf (h : list SceneNode) (l : loc)
  : option (float * float * float) :=
  h !! l ≫= trackedPose.

(** What marking nodes stale leaves alone besides the skeleton: the local
    matrix, the activation flag, the payload and the tracked pose. *)
Definition contents (n : SceneNode)
  : matrix * bool * option vehicle * option (float * float * float) :=
  (localMatrix n, deactivated n, linkedVehicle n, trackedPose n).

Definition linkedVehicleOf (h : list SceneNode) (l : loc) : option vehicle :=
  h !! l ≫= linkedVehicle.

(** The last statements of [addFrame] and [addNode] before the callbacks:
    the payload and the local matrix, when they are given. *)
Definition linkAndPlace (s : SceneGraph) (sceneNode : loc)
    (linked : option vehicle) (initialLocalMatrix : option matrix) : SceneGraph :=
  let s3 := match linked with
            | Some v => set_heap (alter (set_linkedVehicle (Some v)) sceneNode (heap s)) s
            | None => s
            end in
  match initialLocalMatrix with
  | Some m => set_heap (setLocalMatrix (heap s3) sceneNode m) s3
  | None => s3
  end.

(** The object with key [k] is ready for frames: it is registered and
    flagged, and its rotation node is registered. *)
Definition rotationReady (k : string) (lo r : loc) (s : SceneGraph) : Prop :=
  wf s ∧ graph s !! k = Some lo ∧ needsRotateXOf (heap s) lo = true ∧
  graph s !! (k +:+ "rotateX") = Some r.

(** From [s] to [s'] every callback was called [n] times, no key was lost or
    moved, and the keys [ks] are registered. *)
Definition progress (n : nat) (ks : list string) (s s' : SceneGraph) : Prop :=
  calls s' = calls s ++ mjoin (replicate n (updateCallbacks s)) ∧
  updateCallbacks s' = updateCallbacks s ∧
  (∀ k l, graph s !! k = Some l → graph s' !! k = Some l) ∧
  (∀ k, k ∈ ks → is_Some (graph s' !! k)).



(** More graphs and inputs for the examples: the graph of the examples with
    a frame of the first object, a sequence of calls, and an object with two
    frames and three nodes. *)
Definition with_frame : SceneGraph :=
  addNode (H := toolbox)
    (default two_objects
       (addFrame (H := toolbox) two_objects "O1" "F1" (Some (Linked 4)) None))
    "O1" "F1" "N1" (Some (Linked 5)) (Some rotateX).

Definition some_calls : list op :=
  [OnUpdate 7; AddObject "O1" None true;
   AddFrame "O1" "F1" (Some (Linked 4)) (Some rotateX);
   OnUpdate 8; AddNode "O1" "F1" "N1" None None;
   DeactivateElement "O1F1"; UpdateObjectWorldId "O1" "O1F1";
   RemoveElementAndChildren "O1"; GetDistanceBetween "ROOT" "O1F1"].

Definition some_object : ObjectData :=
  mkObjectData (Some identity)
    [("F1", mkFrameData (Linked 4) (Some rotateX)
              [("N1", mkNodeData (Linked 5) None);
               ("N2", mkNodeData (Linked 6) (Some identity))]);
     ("F2", mkFrameData (Linked 9) None [("N1", mkNodeData (Linked 10) None)])].

(** * Properties *)

(** ** The store under updates *)

Lemma same_skeleton_lookup h h' x :
  same_skeleton h h' → skeleton <$> h !! x = skeleton <$> h' !! x.
Proof. intros E. rewrite <- !list_lookup_fmap. by rewrite E. Qed.

Lemma same_skeleton_length h h' : same_skeleton h h' → length h = length h'.
Proof.
  intros E. rewrite <- (length_fmap skeleton h), E. apply length_fmap.
Qed.

Lemma same_skeleton_idOf h h' x : same_skeleton h h' → idOf h x = idOf h' x.
Proof.
  intros E. apply (same_skeleton_lookup _ _ x) in E. unfold idOf.
  destruct (h !! x), (h' !! x); simplify_eq/=; congruence.
Qed.

Lemma same_skeleton_parentOf h h' x :
  same_skeleton h h' → parentOf h x = parentOf h' x.
Proof.
  intros E. apply (same_skeleton_lookup _ _ x) in E. unfold parentOf.
  destruct (h !! x), (h' !! x); simplify_eq/=; congruence.
Qed.

Lemma same_skeleton_childrenOf h h' x :
  same_skeleton h h' → childrenOf h x = childrenOf h' x.
Proof.
  intros E. apply (same_skeleton_lookup _ _ x) in E. unfold childrenOf.
  destruct (h !! x), (h' !! x); simplify_eq/=; congruence.
Qed.

Lemma same_skeleton_needsRotateXOf h h' x :
  same_skeleton h h' → needsRotateXOf h x = needsRotateXOf h' x.
Proof.
  intros E. apply (same_skeleton_lookup _ _ x) in E. unfold needsRotateXOf.
  destruct (h !! x), (h' !! x); simplify_eq/=; congruence.
Qed.

Lemma same_skeleton_alter f l h :
  (∀ n, skeleton (f n) = skeleton n) → same_skeleton (alter f l h) h.
Proof.
  intros Hf. apply list_eq. intros x. rewrite !list_lookup_fmap, list_lookup_alter.
  case_decide; subst; [|done]. destruct (h !! x); simpl; [|done]. by rewrite Hf.
Qed.

Lemma same_skeleton_foldr_alter f xs h :
  (∀ n, skeleton (f n) = skeleton n) →
  same_skeleton (foldr (λ x acc, alter f x acc) h xs) h.
Proof.
  intros Hf. induction xs as [|x xs IH]; [done|]. simpl.
  unfold same_skeleton in *. rewrite <- IH. by apply same_skeleton_alter.
Qed.

Lemma same_skeleton_markStale h l : same_skeleton (markStale h l) h.
Proof. by apply same_skeleton_foldr_alter. Qed.

Lemma same_skeleton_setLocalMatrix h l m : same_skeleton (setLocalMatrix h l m) h.
Proof.
  unfold setLocalMatrix, same_skeleton. rewrite same_skeleton_markStale.
  by apply same_skeleton_alter.
Qed.

Lemma same_skeleton_updateVehicleXYScale h l x y sc :
  same_skeleton (updateVehicleXYScale h l x y sc) h.
Proof. by apply same_skeleton_alter. Qed.

(** *** Links under the updates of a single field *)

Lemma parentOf_alter_ne f l h x : x ≠ l → parentOf (alter f l h) x = parentOf h x.
Proof. intros ?. unfold parentOf. by rewrite list_lookup_alter_ne. Qed.

Lemma childrenOf_alter_ne f l h x : x ≠ l → childrenOf (alter f l h) x = childrenOf h x.
Proof. intros ?. unfold childrenOf. by rewrite list_lookup_alter_ne. Qed.

Lemma parentOf_alter_keep f l h x :
  (∀ n, parent (f n) = parent n) → parentOf (alter f l h) x = parentOf h x.
Proof.
  intros Hf. unfold parentOf. rewrite list_lookup_alter.
  case_decide; subst; [|done]. destruct (h !! x); simpl; [|done]. apply Hf.
Qed.

Lemma childrenOf_alter_keep f l h x :
  (∀ n, children (f n) = children n) → childrenOf (alter f l h) x = childrenOf h x.
Proof.
  intros Hf. unfold childrenOf. rewrite list_lookup_alter.
  case_decide; subst; [|done]. destruct (h !! x); simpl; [|done]. apply Hf.
Qed.

Lemma idOf_alter_keep f l h x :
  (∀ n, id (f n) = id n) → idOf (alter f l h) x = idOf h x.
Proof.
  intros Hf. unfold idOf. rewrite list_lookup_alter.
  case_decide; subst; [|done]. destruct (h !! x); simpl; [|done]. apply Hf.
Qed.

Lemma needsRotateXOf_alter_keep f l h x :
  (∀ n, needsRotateX (f n) = needsRotateX n) →
  needsRotateXOf (alter f l h) x = needsRotateXOf h x.
Proof.
  intros Hf. unfold needsRotateXOf. rewrite list_lookup_alter.
  case_decide; subst; [|done]. destruct (h !! x); simpl; [|done]. apply Hf.
Qed.

Lemma parentOf_set_parent o l h : l < length h → parentOf (alter (set_parent o) l h) l = o.
Proof.
  intros Hl. unfold parentOf. rewrite list_lookup_alter_eq.
  destruct (lookup_lt_is_Some_2 h l Hl) as [n ->]. done.
Qed.

Lemma childrenOf_set_children g l h :
  l < length h → childrenOf (alter (set_children g) l h) l = g (childrenOf h l).
Proof.
  intros Hl. unfold childrenOf. rewrite list_lookup_alter_eq.
  destruct (lookup_lt_is_Some_2 h l Hl) as [n ->]. done.
Qed.

Lemma childrenOf_invalid h l : length h ≤ l → childrenOf h l = [].
Proof. intros Hl. unfold childrenOf. by rewrite lookup_ge_None_2. Qed.

Lemma parentOf_valid h l p : parentOf h l = Some p → l < length h.
Proof.
  unfold parentOf. destruct (h !! l) eqn:E; [|done]. intros _.
  by eapply lookup_lt_Some.
Qed.

(** *** [detach] and [setParent] *)

Lemma length_detach h l : length (detach h l) = length h.
Proof. unfold detach. destruct (parentOf h l); [apply length_alter|done]. Qed.

Lemma parentOf_detach h l x : parentOf (detach h l) x = parentOf h x.
Proof.
  unfold detach. destruct (parentOf h l); [|done]. by apply parentOf_alter_keep.
Qed.

Lemma childrenOf_detach h l x :
  childrenOf (detach h l) x =
  if decide (parentOf h l = Some x) then remove_first l (childrenOf h x)
  else childrenOf h x.
Proof.
  unfold detach. case_decide as E.
  - rewrite E. destruct (decide (x < length h)).
    + by apply childrenOf_set_children.
    + rewrite !childrenOf_invalid; [done|lia|rewrite length_alter; lia].
  - destruct (parentOf h l) as [q|]; [|done].
    apply childrenOf_alter_ne. congruence.
Qed.

Lemma idOf_detach h l x : idOf (detach h l) x = idOf h x.
Proof. unfold detach. destruct (parentOf h l); [|done]. by apply idOf_alter_keep. Qed.

Lemma needsRotateXOf_detach h l x : needsRotateXOf (detach h l) x = needsRotateXOf h x.
Proof.
  unfold detach. destruct (parentOf h l); [|done]. by apply needsRotateXOf_alter_keep.
Qed.

Lemma length_markStale h l : length (markStale h l) = length h.
Proof. apply same_skeleton_length, same_skeleton_markStale. Qed.

Lemma length_setLocalMatrix h l m : length (setLocalMatrix h l m) = length h.
Proof. apply same_skeleton_length, same_skeleton_setLocalMatrix. Qed.

Lemma length_setParent h l p : length (setParent h l p) = length h.
Proof.
  unfold setParent. by rewrite length_markStale, !length_alter, length_detach.
Qed.

Lemma idOf_setParent h l p x : idOf (setParent h l p) x = idOf h x.
Proof.
  unfold setParent. rewrite (same_skeleton_idOf _ _ _ (same_skeleton_markStale _ _)).
  rewrite !idOf_alter_keep by done. apply idOf_detach.
Qed.

Lemma needsRotateXOf_setParent h l p x :
  needsRotateXOf (setParent h l p) x = needsRotateXOf h x.
Proof.
  unfold setParent.
  rewrite (same_skeleton_needsRotateXOf _ _ _ (same_skeleton_markStale _ _)).
  rewrite !needsRotateXOf_alter_keep by done. apply needsRotateXOf_detach.
Qed.

Lemma parentOf_setParent h l p x :
  l < length h →
  parentOf (setParent h l p) x = if decide (x = l) then Some p else parentOf h x.
Proof.
  intros Hl. unfold setParent.
  rewrite (same_skeleton_parentOf _ _ _ (same_skeleton_markStale _ _)).
  case_decide as E.
  - subst x. apply parentOf_set_parent. by rewrite length_alter, length_detach.
  - rewrite parentOf_alter_ne by done. rewrite parentOf_alter_keep by done.
    apply parentOf_detach.
Qed.

Lemma childrenOf_setParent h l p x :
  p < length h →
  childrenOf (setParent h l p) x =
  if decide (x = p) then childrenOf (detach h l) p ++ [l]
  else childrenOf (detach h l) x.
Proof.
  intros Hp. unfold setParent.
  rewrite (same_skeleton_childrenOf _ _ _ (same_skeleton_markStale _ _)).
  rewrite childrenOf_alter_keep by done. case_decide as E.
  - subst x. apply childrenOf_set_children. by rewrite length_detach.
  - by apply childrenOf_alter_ne.
Qed.

(** *** Removing the first occurrence *)

Lemma remove_first_notin x cs : x ∉ cs → remove_first x cs = cs.
Proof.
  induction cs as [|c cs IH]; [done|]. intros Hx. simpl.
  apply not_elem_of_cons in Hx as [? ?]. case_decide; [congruence|]. f_equal. auto.
Qed.

Lemma remove_first_perm x cs : x ∈ cs → x :: remove_first x cs ≡ₚ cs.
Proof.
  induction cs as [|c cs IH]; [by intros ?%elem_of_nil|]. simpl. intros Hx.
  case_decide as E; [by subst|].
  apply elem_of_cons in Hx as [?|Hx]; [congruence|].
  rewrite Permutation_swap. by rewrite IH.
Qed.

Lemma remove_first_subseteq x cs y : y ∈ remove_first x cs → y ∈ cs.
Proof.
  induction cs as [|c cs IH]; [done|]. simpl. case_decide.
  - apply list_elem_of_further.
  - intros [->|Hy]%elem_of_cons; [apply list_elem_of_here|].
    apply list_elem_of_further. auto.
Qed.

Lemma remove_first_other x y cs : y ≠ x → y ∈ remove_first x cs ↔ y ∈ cs.
Proof.
  intros Hne. split; [apply remove_first_subseteq|].
  induction cs as [|c cs IH]; [done|]. simpl.
  intros [->|Hy]%elem_of_cons; case_decide; subst; try done.
  - apply list_elem_of_here.
  - apply list_elem_of_further. auto.
Qed.

Lemma remove_first_NoDup x cs : NoDup cs → x ∉ remove_first x cs.
Proof.
  induction 1 as [|c cs Hc Hcs IH]; simpl; [by intros ?%elem_of_nil|].
  case_decide; [by subst|].
  intros [->|Hx]%elem_of_cons; [done|]. by apply IH.
Qed.

Lemma remove_first_snoc x cs : remove_first x (cs ++ [x]) ++ [x] ≡ₚ cs ++ [x].
Proof.
  rewrite <- Permutation_cons_append. apply remove_first_perm.
  apply elem_of_app. right. apply list_elem_of_singleton. done.
Qed.

(** ** Well-formed states *)

Lemma links_valid_spec h :
  links_valid h ↔
  (∀ x p, parentOf h x = Some p → p < length h) ∧
  (∀ x c, c ∈ childrenOf h x → c < length h).
Proof.
  unfold links_valid. rewrite Forall_forall. split.
  - intros Hv. split.
    + intros x p Hp. pose proof (parentOf_valid _ _ _ Hp) as Hx.
      destruct (Hv x) as [Hv1 _]; [apply elem_of_seq; lia|].
      by rewrite Hp in Hv1.
    + intros x c Hc. destruct (decide (x < length h)) as [Hx|Hx].
      * destruct (Hv x) as [_ Hv2]; [apply elem_of_seq; lia|].
        rewrite Forall_forall in Hv2. auto.
      * rewrite childrenOf_invalid in Hc by lia. by apply elem_of_nil in Hc.
  - intros [Hp Hc] x _. split.
    + destruct (parentOf h x) as [p|] eqn:E; simpl; eauto.
    + apply Forall_forall. eauto.
Qed.

Lemma wf_graph_lookup s k l :
  wf s → graph s !! k = Some l → l < length (heap s) ∧ idOf (heap s) l = k.
Proof. intros (_ & Hg & _) Hk. exact (Hg k l Hk). Qed.

(** Distinct keys are registered to distinct nodes. *)
Lemma wf_graph_inj s k1 k2 l :
  wf s → graph s !! k1 = Some l → graph s !! k2 = Some l → k1 = k2.
Proof.
  intros Hwf H1 H2.
  destruct (wf_graph_lookup _ _ _ Hwf H1) as [_ <-].
  destruct (wf_graph_lookup _ _ _ Hwf H2) as [_ <-]. done.
Qed.

Lemma store_step_refl h : store_step h h.
Proof. by repeat split. Qed.

Lemma store_step_trans h1 h2 h3 :
  store_step h1 h2 → store_step h2 h3 → store_step h1 h3.
Proof.
  intros (L1 & I1 & V1) (L2 & I2 & V2). repeat split.
  - congruence.
  - intros x. by rewrite I2, I1.
  - auto.
Qed.

Lemma store_step_same_skeleton h h' : same_skeleton h' h → store_step h h'.
Proof.
  intros E. repeat split.
  - by apply same_skeleton_length.
  - intros x. by apply same_skeleton_idOf.
  - rewrite !links_valid_spec. rewrite (same_skeleton_length _ _ E).
    intros [Hp Hc]. split.
    + intros x p. rewrite (same_skeleton_parentOf _ _ _ E). apply Hp.
    + intros x c. rewrite (same_skeleton_childrenOf _ _ _ E). apply Hc.
Qed.

Lemma store_step_setParent h l p :
  l < length h → p < length h → store_step h (setParent h l p).
Proof.
  intros Hl Hp. repeat split.
  - apply length_setParent.
  - intros x. apply idOf_setParent.
  - rewrite !links_valid_spec, length_setParent. intros [Hpar Hch]. split.
    + intros x q. rewrite parentOf_setParent by done.
      case_decide; [congruence|apply Hpar].
    + intros x c. rewrite childrenOf_setParent by done.
      assert (∀ y, c ∈ childrenOf (detach h l) y → c < length h) as Hd.
      { intros y. rewrite childrenOf_detach. case_decide; [|apply Hch].
        intros Hc%remove_first_subseteq. eauto. }
      case_decide; [|apply Hd].
      intros [Hc | ->%list_elem_of_singleton]%elem_of_app; eauto.
Qed.

Lemma store_step_remove h l q :
  store_step h (alter (set_children (remove_first l)) q h).
Proof.
  repeat split.
  - apply length_alter.
  - intros x. by apply idOf_alter_keep.
  - rewrite !links_valid_spec, length_alter. intros [Hpar Hch]. split.
    + intros x p. rewrite parentOf_alter_keep by done. apply Hpar.
    + intros x c. destruct (decide (x = q)) as [->|Hne].
      * destruct (decide (q < length h)).
        -- rewrite childrenOf_set_children by done.
           intros Hc%remove_first_subseteq. eauto.
        -- rewrite childrenOf_invalid by (rewrite length_alter; lia).
           by intros ?%elem_of_nil.
      * rewrite childrenOf_alter_ne by done. apply Hch.
Qed.

Lemma store_step_setLocalMatrix h l m : store_step h (setLocalMatrix h l m).
Proof. apply store_step_same_skeleton, same_skeleton_setLocalMatrix. Qed.

Lemma store_step_alter_keep f l h :
  (∀ n, skeleton (f n) = skeleton n) → store_step h (alter f l h).
Proof. intros Hf. by apply store_step_same_skeleton, same_skeleton_alter. Qed.

Lemma store_step_set_needsRotateX b l h :
  store_step h (alter (set_needsRotateX b) l h).
Proof.
  repeat split.
  - apply length_alter.
  - intros x. by apply idOf_alter_keep.
  - rewrite !links_valid_spec, length_alter. intros [Hpar Hch]. split.
    + intros x p. rewrite parentOf_alter_keep by done. apply Hpar.
    + intros x c. rewrite childrenOf_alter_keep by done. apply Hch.
Qed.

Lemma wf_set_heap s h' : wf s → store_step (heap s) h' → wf (set_heap h' s).
Proof.
  intros (Hr & Hg & Hv) (L & I & V). unfold wf. simpl. rewrite L.
  split; [done|]. split; [|auto].
  intros k l Hk. destruct (Hg k l Hk) as [? ?]. by rewrite I.
Qed.

Lemma wf_triggerUpdateCallbacks s : wf s → wf (triggerUpdateCallbacks s).
Proof. done. Qed.

Section Properties.
Context `{Collaborators}.

Lemma same_skeleton_updateWorldMatrix fuel h l :
  same_skeleton (updateWorldMatrix fuel h l) h.
Proof.
  revert h l. induction fuel as [|f IH]; intros h l; [done|]. simpl.
  destruct (h !! l) as [n|] eqn:E; [|done]. destruct (stale n); [|done].
  set (n' := set_stale false _).
  assert (same_skeleton (<[l:=n']> h) h) as E1.
  { rewrite list_insert_alter. apply list_eq. intros x.
    rewrite !list_lookup_fmap, list_lookup_alter.
    case_decide; subst; [|done]. by rewrite E. }
  revert E1. generalize (<[l:=n']> h). generalize (children n).
  intros cs. induction cs as [|c cs IHcs]; intros h1 E1; [done|]. simpl.
  apply IHcs. unfold same_skeleton in *. by rewrite IH.
Qed.

Lemma wf_recomputeGraph s : wf s → wf (recomputeGraph s).
Proof.
  intros Hwf. apply wf_set_heap; [done|].
  apply store_step_same_skeleton, same_skeleton_updateWorldMatrix.
Qed.

(** *** Creating or fetching a node *)

Lemma links_valid_alloc h k : links_valid h → links_valid (h ++ [newSceneNode k]).
Proof.
  rewrite !links_valid_spec, length_app. simpl. intros [Hp Hc]. split.
  - intros x p. unfold parentOf. destruct (decide (x < length h)).
    + rewrite lookup_app_l by done. intros ?%Hp. lia.
    + rewrite lookup_app_r by lia. destruct (x - length h) as [|[|?]]; done.
  - intros x c. unfold childrenOf. destruct (decide (x < length h)).
    + rewrite lookup_app_l by done. intros ?%Hc. lia.
    + rewrite lookup_app_r by lia.
      destruct (x - length h) as [|[|?]]; simpl; by intros ?%elem_of_nil.
Qed.

Lemma idOf_alloc_old h k x : x < length h → idOf (h ++ [newSceneNode k]) x = idOf h x.
Proof. intros ?. unfold idOf. by rewrite lookup_app_l. Qed.

Lemma idOf_alloc_new h k : idOf (h ++ [newSceneNode k]) (length h) = k.
Proof. unfold idOf. by rewrite list_lookup_middle. Qed.

Lemma wf_alloc s k :
  wf s → graph s !! k = None →
  wf (set_graph (<[k := length (heap s)]> (graph s))
        (set_heap (heap s ++ [newSceneNode k]) s)).
Proof.
  intros (Hr & Hg & Hv) Hk. unfold wf. simpl. rewrite length_app. simpl.
  split; [lia|]. split; [|by apply links_valid_alloc].
  apply map_Forall_insert; [done|]. split.
  - split; [lia|apply idOf_alloc_new].
  - intros k' l Hk'. destruct (Hg k' l Hk') as [? ?].
    split; [lia|]. by rewrite idOf_alloc_old.
Qed.

Lemma getOrCreate_fetch s k l : graph s !! k = Some l → getOrCreate s k = (l, s).
Proof. intros E. unfold getOrCreate. by rewrite E. Qed.

Lemma getOrCreate_create s k :
  graph s !! k = None →
  getOrCreate s k =
  (length (heap s),
   set_graph (<[k := length (heap s)]> (graph s))
     (set_heap (heap s ++ [newSceneNode k]) s)).
Proof. intros E. unfold getOrCreate. by rewrite E. Qed.

Lemma getOrCreate_wf s k l s1 :
  wf s → getOrCreate s k = (l, s1) →
  wf s1 ∧ graph s1 !! k = Some l ∧ l < length (heap s1).
Proof.
  intros Hwf. unfold getOrCreate. destruct (graph s !! k) as [l'|] eqn:E.
  - intros [= <- <-]. split; [done|]. split; [done|].
    by destruct (wf_graph_lookup _ _ _ Hwf E).
  - intros [= <- <-]. split; [by apply wf_alloc|]. simpl.
    rewrite lookup_insert_eq, length_app. simpl. split; [done|lia].
Qed.

Lemma getOrCreate_frame s k l s1 :
  getOrCreate s k = (l, s1) →
  rootNode s1 = rootNode s ∧ updateCallbacks s1 = updateCallbacks s ∧
  calls s1 = calls s ∧ length (heap s) ≤ length (heap s1) ∧
  (∀ x, x < length (heap s) → heap s1 !! x = heap s !! x) ∧
  (∀ k' l', graph s !! k' = Some l' → graph s1 !! k' = Some l').
Proof.
  unfold getOrCreate. destruct (graph s !! k) as [l'|] eqn:E.
  - intros [= <- <-]. by repeat split.
  - intros [= <- <-]. simpl. rewrite length_app. repeat split; try done; [lia| |].
    + intros x Hx. by rewrite lookup_app_l.
    + intros k' l' Hk'. rewrite lookup_insert_ne; [done|congruence].
Qed.

(** *** Every method keeps the state well formed *)

Lemma wf_constructor : wf constructor.
Proof. apply (bool_decide_unpack _). vm_compute. exact I. Qed.

Lemma wf_addRotateX s l b : wf s → l < length (heap s) → wf (addRotateX s l b).
Proof.
  intros Hwf Hl. unfold addRotateX.
  set (s1 := set_heap _ s).
  assert (wf s1) as Hwf1 by (apply wf_set_heap; [done|apply store_step_set_needsRotateX]).
  destruct (getOrCreate s1 _) as [r s2] eqn:E.
  destruct (getOrCreate_wf _ _ _ _ Hwf1 E) as (Hwf2 & _ & Hr).
  destruct (getOrCreate_frame _ _ _ _ E) as (_ & _ & _ & Hlen & _).
  assert (l < length (heap s2)) as Hl2.
  { subst s1. simpl in Hlen. rewrite length_alter in Hlen. lia. }
  apply wf_set_heap; [done|].
  apply (store_step_trans _ (setParent (heap s2) r l)).
  - by apply store_step_setParent.
  - apply store_step_setLocalMatrix.
Qed.

Lemma wf_addObject s o m b : wf s → wf (addObject s o m b).
Proof.
  intros Hwf. unfold addObject.
  destruct (getOrCreate s _) as [l s1] eqn:E.
  destruct (getOrCreate_wf _ _ _ _ Hwf E) as (Hwf1 & _ & Hl).
  apply wf_triggerUpdateCallbacks.
  set (s2 := set_heap (setParent _ _ _) s1).
  assert (wf s2) as Hwf2.
  { apply wf_set_heap; [done|]. apply store_step_setParent; [done|apply Hwf1]. }
  assert (length (heap s2) = length (heap s1)) as L2 by apply length_setParent.
  set (s3 := match m with Some _ => _ | None => _ end).
  assert (wf s3 ∧ length (heap s3) = length (heap s1)) as [Hwf3 L3].
  { subst s3. destruct m as [m|]; [|done]. split.
    - apply wf_set_heap; [done|apply store_step_setLocalMatrix].
    - simpl. by rewrite length_setLocalMatrix. }
  destruct b; [|done]. apply wf_addRotateX; [done|lia].
Qed.

Lemma wf_link_matrix s l (v : option vehicle) (m : option matrix) :
  wf s →
  wf (match m with
      | Some m =>
        set_heap (setLocalMatrix
          (heap match v with
                | Some v => set_heap (alter (set_linkedVehicle (Some v)) l (heap s)) s
                | None => s
                end) l m)
          match v with
          | Some v => set_heap (alter (set_linkedVehicle (Some v)) l (heap s)) s
          | None => s
          end
      | None =>
        match v with
        | Some v => set_heap (alter (set_linkedVehicle (Some v)) l (heap s)) s
        | None => s
        end
      end).
Proof.
  intros Hwf.
  assert (wf match v with
             | Some v => set_heap (alter (set_linkedVehicle (Some v)) l (heap s)) s
             | None => s
             end) as Hwf1.
  { destruct v; [|done]. apply wf_set_heap; [done|]. by apply store_step_alter_keep. }
  destruct m; [|done]. apply wf_set_heap; [done|apply store_step_setLocalMatrix].
Qed.

Lemma wf_addFrame s o f v m s' : wf s → addFrame s o f v m = Some s' → wf s'.
Proof.
  intros Hwf. unfold addFrame.
  destruct (getOrCreate s _) as [l s1] eqn:E.
  destruct (getOrCreate_wf _ _ _ _ Hwf E) as (Hwf1 & _ & Hl).
  destruct (graph s1 !! getUuid o None None) as [lo|] eqn:Eo; simpl.
  - destruct (wf_graph_lookup _ _ _ Hwf1 Eo) as [Hlo _].
    destruct (needsRotateXOf (heap s1) lo).
    + destruct (graph s1 !! (_ +:+ _)) as [r|] eqn:Er; [|done]. simpl.
      destruct (wf_graph_lookup _ _ _ Hwf1 Er) as [Hr _].
      intros [= <-]. apply wf_triggerUpdateCallbacks, wf_link_matrix.
      apply wf_set_heap; [done|]. by apply store_step_setParent.
    + simpl. intros [= <-]. apply wf_triggerUpdateCallbacks, wf_link_matrix.
      apply wf_set_heap; [done|]. by apply store_step_setParent.
  - intros [= <-]. by apply wf_triggerUpdateCallbacks, wf_link_matrix.
Qed.

Lemma wf_addNode s o f n v m : wf s → wf (addNode s o f n v m).
Proof.
  intros Hwf. unfold addNode.
  destruct (getOrCreate s _) as [l s1] eqn:E.
  destruct (getOrCreate_wf _ _ _ _ Hwf E) as (Hwf1 & _ & Hl).
  apply wf_triggerUpdateCallbacks, wf_link_matrix.
  destruct (graph s1 !! _) as [lf|] eqn:Ef; [|done].
  destruct (wf_graph_lookup _ _ _ Hwf1 Ef) as [Hlf _].
  apply wf_set_heap; [done|]. by apply store_step_setParent.
Qed.

(** A lookup in [this.graph]: an own property is a node, an inherited one
    is not. *)
Lemma resolve_own s k l : graph s !! k = Some l → resolve s k = VNode l.
Proof. intros E. unfold resolve. by rewrite E. Qed.

Lemma resolve_not_own s k :
  graph s !! k = None → resolve s k = inherited (intrinsics s) k.
Proof. intros E. unfold resolve. by rewrite E. Qed.

Lemma inherited_not_node w k l : inherited w k ≠ VNode l.
Proof.
  unfold inherited. repeat case_bool_decide; try done. by destruct (w !! _).
Qed.

Lemma resolve_VNode s k l : resolve s k = VNode l ↔ graph s !! k = Some l.
Proof.
  split; [|apply resolve_own]. unfold resolve.
  destruct (graph s !! k); [congruence|]. by intros ?%inherited_not_node.
Qed.

Lemma resolve_VUndefined s k : resolve s k = VUndefined → graph s !! k = None.
Proof. unfold resolve. by destruct (graph s !! k). Qed.

Lemma wf_set_intrinsics s w : wf s → wf (set_intrinsics w s).
Proof. done. Qed.

(** The three ways [removeElementAndChildren], [deactivateElement] and
    [activateElement] can go: a node is found, or the key is not registered
    and either nothing is done or only callbacks and intrinsics are
    touched. *)
Lemma removeElementAndChildren_cases s i :
  (∃ l, graph s !! i = Some l ∧
        removeElementAndChildren s i =
        triggerUpdateCallbacks
          (set_graph (delete i (graph s)) (set_heap (detach (heap s) l) s))) ∨
  graph s !! i = None ∧
  (removeElementAndChildren s i = s ∨
   removeElementAndChildren s i = triggerUpdateCallbacks s).
Proof.
  unfold removeElementAndChildren, resolve.
  destruct (graph s !! i) as [l|] eqn:E; [left; eauto|].
  right. split; [done|]. destruct (inherited _ _) as [| |[]|] eqn:Ei; auto.
  by apply inherited_not_node in Ei.
Qed.

Lemma deactivateElement_cases s i :
  (∃ l, graph s !! i = Some l ∧
        deactivateElement s i =
        if negb (deactivatedOf (heap s) l)
        then triggerUpdateCallbacks
               (set_heap (alter (set_deactivated true) l (heap s)) s)
        else s) ∨
  graph s !! i = None ∧
  (deactivateElement s i = s ∨
   ∃ w, deactivateElement s i = triggerUpdateCallbacks (set_intrinsics w s)).
Proof.
  unfold deactivateElement, resolve.
  destruct (graph s !! i) as [l|] eqn:E; [left; eauto|].
  right. split; [done|]. destruct (inherited _ _) as [|name| |] eqn:Ei; auto.
  - by apply inherited_not_node in Ei.
  - destruct (negb _); eauto.
Qed.

Lemma activateElement_cases s i s' :
  activateElement s i = Some s' →
  (∃ l, graph s !! i = Some l ∧
        s' = if deactivatedOf (heap s) l
             then triggerUpdateCallbacks
                    (set_heap (alter (set_deactivated false) l (heap s)) s)
             else s) ∨
  graph s !! i = None ∧
  (s' = s ∨ ∃ w, s' = triggerUpdateCallbacks (set_intrinsics w s)).
Proof.
  unfold activateElement, resolve.
  destruct (graph s !! i) as [l|] eqn:E; [intros [= <-]; left; eauto|].
  intros Ha. right. split; [done|].
  destruct (inherited _ _) as [|name|[]|] eqn:Ei; simplify_eq; auto.
  - by apply inherited_not_node in Ei.
  - destruct (deactivatedOfIntrinsic _ _); eauto.
Qed.

Lemma wf_removeElementAndChildren s i : wf s → wf (removeElementAndChildren s i).
Proof.
  intros Hwf.
  destruct (removeElementAndChildren_cases s i) as [(l & E & ->)|[_ [-> | ->]]];
    [|done|done].
  unfold detach.
  apply wf_triggerUpdateCallbacks.
  set (h1 := match parentOf _ _ with Some _ => _ | None => _ end).
  assert (store_step (heap s) h1) as Hst.
  { subst h1. destruct (parentOf _ _); [apply store_step_remove|apply store_step_refl]. }
  destruct (wf_set_heap _ _ Hwf Hst) as (Hr & Hg & Hv).
  split; [done|]. split; [|done]. simpl in *.
  by apply map_Forall_delete.
Qed.

Lemma wf_updateWithPositionData s o f n m x y sc :
  wf s → wf (updateWithPositionData s o f n m x y sc).
Proof.
  intros Hwf. unfold updateWithPositionData.
  destruct (graph s !! _) as [l|]; [|done].
  apply wf_triggerUpdateCallbacks, wf_set_heap; [done|].
  eapply store_step_trans; [|apply store_step_setLocalMatrix].
  by apply store_step_alter_keep.
Qed.

Lemma wf_updateObjectWorldId s o w : wf s → wf (updateObjectWorldId s o w).
Proof.
  intros Hwf. unfold updateObjectWorldId. case_decide; [done|].
  destruct (graph s !! getUuid o None None) as [lo|] eqn:Eo; [|done].
  destruct (graph s !! getUuid w None None) as [lw|] eqn:Ew; [|done].
  destruct (wf_graph_lookup _ _ _ Hwf Eo) as [? _].
  destruct (wf_graph_lookup _ _ _ Hwf Ew) as [? _].
  apply wf_set_heap; [done|]. by apply store_step_setParent.
Qed.

Lemma wf_deactivateElement s i : wf s → wf (deactivateElement s i).
Proof.
  intros Hwf.
  destruct (deactivateElement_cases s i) as [(l & _ & ->)|[_ [-> | [w ->]]]];
    [|done|done].
  destruct (negb _); [|done].
  apply wf_triggerUpdateCallbacks, wf_set_heap; [done|].
  by apply store_step_alter_keep.
Qed.

Lemma wf_activateElement s i s' : wf s → activateElement s i = Some s' → wf s'.
Proof.
  intros Hwf Ha.
  destruct (activateElement_cases s i s' Ha) as [(l & _ & ->)|[_ [-> | [w ->]]]];
    [|done|done].
  destruct (deactivatedOf _ _); [|done].
  apply wf_triggerUpdateCallbacks, wf_set_heap; [done|].
  by apply store_step_alter_keep.
Qed.


(** *** Importing a snapshot *)

Lemma store_step_hydrate g r l0 h :
  (∀ k l, g !! k = Some l → l < length h) →
  store_step h (alter (hydrate g r) l0 h).
Proof.
  intros Hg. repeat split.
  - apply length_alter.
  - intros x. by apply idOf_alter_keep.
  - rewrite !links_valid_spec, length_alter. intros [Hpar Hch]. split.
    + intros x p. unfold parentOf. rewrite list_lookup_alter.
      case_decide; subst; [|apply Hpar].
      destruct (h !! x) as [n|]; [|done]. simpl.
      destruct (s_parent r) as [k|]; [|done]. simpl. apply Hg.
    + intros x c. unfold childrenOf. rewrite list_lookup_alter.
      case_decide; subst; [|apply Hch].
      destruct (h !! x) as [n|]; simpl; [|by intros ?%elem_of_nil].
      intros (k & _ & Hk)%list_elem_of_omap. eauto.
Qed.

Lemma addPlaceholders_wf keys s s1 ks :
  wf s → addPlaceholders s keys = (s1, ks) → wf s1.
Proof.
  revert s s1 ks. induction keys as [|k keys IH]; intros s s1 ks Hwf; simpl.
  - by intros [= <- <-].
  - destruct (resolve s k) eqn:E; try by apply IH.
    apply resolve_VUndefined in E.
    destruct (addPlaceholders _ keys) as [s2 ks2] eqn:E2. intros [= <- <-].
    eapply IH; [|done]. by apply wf_alloc.
Qed.

(** The first loop only adds: fields other than the registry and the store
    are kept, the old entries of both stay. *)
Lemma addPlaceholders_frame keys s s1 ks :
  addPlaceholders s keys = (s1, ks) →
  rootNode s1 = rootNode s ∧ updateCallbacks s1 = updateCallbacks s ∧
  calls s1 = calls s ∧ length (heap s) ≤ length (heap s1) ∧
  (∀ x, x < length (heap s) → heap s1 !! x = heap s !! x) ∧
  (∀ k l, graph s !! k = Some l → graph s1 !! k = Some l).
Proof.
  revert s s1 ks. induction keys as [|k keys IH]; intros s s1 ks; simpl.
  - intros [= <- <-]. by repeat split.
  - destruct (resolve s k) eqn:E; try by apply IH.
    apply resolve_VUndefined in E.
    destruct (addPlaceholders _ keys) as [s2 ks2] eqn:E2. intros [= <- <-].
    destruct (IH _ _ _ E2) as (Hr & Hc & Hl & Hlen & Hh & Hg). simpl in *.
    rewrite length_app in Hlen. simpl in Hlen. repeat split; try done; [lia| |].
    + intros x Hx. rewrite Hh by (rewrite length_app; simpl; lia).
      by rewrite lookup_app_l.
    + intros k' l' Hk'. apply Hg. rewrite lookup_insert_ne; [done|congruence].
Qed.

Lemma resolve_alloc_ne s k l n k' :
  k' ≠ k →
  resolve (set_graph (<[k := l]> (graph s)) (set_heap (heap s ++ [n]) s)) k'
  = resolve s k'.
Proof. intros Hne. unfold resolve. simpl. by rewrite lookup_insert_ne. Qed.

(** The keys in [nodesToUpdate] are the keys of the data for which the
    lookup gave [undefined], each once, and each now has a placeholder of
    its own. *)
Lemma addPlaceholders_new keys s s1 ks :
  addPlaceholders s keys = (s1, ks) →
  NoDup ks ∧
  (∀ k, k ∈ ks ↔ k ∈ keys ∧ resolve s k = VUndefined) ∧
  (∀ k, k ∈ ks → ∃ l, graph s1 !! k = Some l ∧ length (heap s) ≤ l ∧
                       heap s1 !! l = Some (newSceneNode k)).
Proof.
  revert s s1 ks. induction keys as [|k keys IH]; intros s s1 ks; simpl.
  - intros [= <- <-]. split; [constructor|]. split.
    + intros k. rewrite !elem_of_nil. tauto.
    + by intros k ?%elem_of_nil.
  - assert (resolve s k ≠ VUndefined → addPlaceholders s keys = (s1, ks) →
            NoDup ks ∧
            (∀ k0, k0 ∈ ks ↔ k0 ∈ k :: keys ∧ resolve s k0 = VUndefined) ∧
            (∀ k0, k0 ∈ ks → ∃ l, graph s1 !! k0 = Some l ∧ length (heap s) ≤ l ∧
                                   heap s1 !! l = Some (newSceneNode k0))) as Hskip.
    { intros E E2. destruct (IH _ _ _ E2) as (Hnd & Hks & Hnew).
      split; [done|]. split; [|done].
      intros k'. rewrite Hks, elem_of_cons. split; [tauto|].
      intros [[->|?] ?]; [congruence|done]. }
    destruct (resolve s k) eqn:E; try by apply Hskip.
    clear Hskip.
    + destruct (addPlaceholders _ keys) as [s2 ks2] eqn:E2. intros [= <- <-].
      destruct (IH _ _ _ E2) as (Hnd & Hks & Hnew).
      destruct (addPlaceholders_frame _ _ _ _ E2) as (_ & _ & _ & Hlen & Hh & Hg).
      simpl in *. rewrite length_app in Hlen, Hh. simpl in Hlen, Hh.
      assert (k ∉ ks2) as Hk.
      { rewrite Hks. intros [_ Hk%resolve_VUndefined]. simpl in Hk.
        by rewrite lookup_insert_eq in Hk. }
      split; [by constructor|]. split.
      * intros k'. rewrite !elem_of_cons, Hks.
        destruct (decide (k' = k)) as [->|Hne]; [tauto|].
        rewrite resolve_alloc_ne by done. split.
        -- intros [?|[? ?]]; [done|]. split; [by right|done].
        -- intros [[?|?] ?]; [done|]. right. done.
      * intros k' [->|Hk']%elem_of_cons.
        -- exists (length (heap s)). split; [apply Hg, lookup_insert_eq|].
           split; [done|]. rewrite Hh by lia. apply list_lookup_middle. done.
        -- destruct (Hnew k' Hk') as (l & ? & Hl & ?). exists l.
           rewrite length_app in Hl. simpl in Hl. repeat split; try done. lia.
Qed.

Lemma hydrateNodes_frame data ks s :
  graph (hydrateNodes data s ks) = graph s ∧
  rootNode (hydrateNodes data s ks) = rootNode s ∧
  updateCallbacks (hydrateNodes data s ks) = updateCallbacks s ∧
  calls (hydrateNodes data s ks) = calls s ∧
  length (heap (hydrateNodes data s ks)) = length (heap s).
Proof.
  revert s. induction ks as [|k ks IH]; intros s; [done|].
  unfold hydrateNodes in *. simpl.
  destruct (IH (match graph s !! k, data_lookup data k with
                | Some sceneNode, Some r =>
                  set_heap (initFromSerializedCopy (heap s) sceneNode r (graph s)) s
                | _, _ => s
                end)) as (-> & -> & -> & -> & ->).
  destruct (graph s !! k), (data_lookup data k); try done.
  simpl. unfold initFromSerializedCopy. by rewrite length_alter.
Qed.

Lemma hydrateNodes_wf data ks s : wf s → wf (hydrateNodes data s ks).
Proof.
  revert s. induction ks as [|k ks IH]; intros s Hwf; [done|].
  unfold hydrateNodes in *. simpl. apply IH.
  destruct (graph s !! k), (data_lookup data k); try done.
  apply wf_set_heap; [done|]. apply store_step_hydrate.
  intros k' l' Hk'. by destruct (wf_graph_lookup _ _ _ Hwf Hk').
Qed.

(** A node that is not registered under a key of [nodesToUpdate] is not
    written by the second loop. *)
Lemma hydrateNodes_other data ks s l :
  (∀ k, k ∈ ks → graph s !! k ≠ Some l) →
  heap (hydrateNodes data s ks) !! l = heap s !! l.
Proof.
  revert s. induction ks as [|k ks IH]; intros s Hks; [done|].
  unfold hydrateNodes in *. simpl. rewrite IH.
  - destruct (graph s !! k) as [l0|] eqn:E; [|done].
    destruct (data_lookup data k); [|done]. simpl.
    unfold initFromSerializedCopy. apply list_lookup_alter_ne.
    intros ->. apply (Hks k); [apply list_elem_of_here|done].
  - intros k' Hk'.
    replace (graph _) with (graph s);
      [apply Hks; by apply list_elem_of_further|].
    by destruct (graph s !! k), (data_lookup data k).
Qed.

(** A placeholder registered under a key of [nodesToUpdate] is hydrated
    from the record of that key, with the registry of the graph. *)
Lemma hydrateNodes_new data ks s k l r n :
  wf s → NoDup ks → k ∈ ks →
  graph s !! k = Some l → data_lookup data k = Some r → heap s !! l = Some n →
  heap (hydrateNodes data s ks) !! l = Some (hydrate (graph s) r n).
Proof.
  revert s. induction ks as [|k0 ks IH]; intros s Hwf Hnd Hk Hl Hr Hn;
    [by apply elem_of_nil in Hk|].
  apply NoDup_cons in Hnd as [Hk0 Hnd].
  change (hydrateNodes data s (k0 :: ks)) with
    (hydrateNodes data
       (match graph s !! k0, data_lookup data k0 with
        | Some sceneNode, Some r =>
          set_heap (initFromSerializedCopy (heap s) sceneNode r (graph s)) s
        | _, _ => s
        end) ks).
  destruct (decide (k0 = k)) as [->|Hne].
  - rewrite Hl, Hr. rewrite hydrateNodes_other.
    + simpl. unfold initFromSerializedCopy. by rewrite list_lookup_alter_eq, Hn.
    + simpl. intros k' Hk' Hl'. pose proof (wf_graph_inj _ _ _ _ Hwf Hl Hl').
      congruence.
  - apply elem_of_cons in Hk as [?|Hk]; [congruence|].
    destruct (graph s !! k0) as [l0|] eqn:E0; [|by apply IH].
    destruct (data_lookup data k0) as [r0|]; [|by apply IH].
    assert (l0 ≠ l) as Hll.
    { intros ->. by pose proof (wf_graph_inj _ _ _ _ Hwf Hl E0). }
    replace (hydrate (graph s) r n) with
      (hydrate (graph (set_heap (initFromSerializedCopy (heap s) l0 r0 (graph s)) s)) r n)
      by done.
    apply IH; try done.
    + apply wf_set_heap; [done|]. apply store_step_hydrate.
      intros k' l' Hk'. by destruct (wf_graph_lookup _ _ _ Hwf Hk').
    + simpl. unfold initFromSerializedCopy. by rewrite list_lookup_alter_ne.
Qed.

Lemma wf_addDataFromSerializableGraph s data :
  wf s → wf (addDataFromSerializableGraph s data).
Proof.
  intros Hwf. unfold addDataFromSerializableGraph.
  destruct (addPlaceholders s _) as [s1 ks] eqn:E.
  apply hydrateNodes_wf. by eapply addPlaceholders_wf.
Qed.

(** *** Sequences of calls *)

Lemma getDistanceBetween_state s keyA keyB :
  (getDistanceBetween s keyA keyB).1 = recomputeGraph s.
Proof.
  done.
Qed.

(** A completed [getDistanceBetween] leaves the recomputed graph. *)
Lemma step_GetDistanceBetween s keyA keyB s' :
  step s (GetDistanceBetween keyA keyB) = Some s' → s' = recomputeGraph s.
Proof.
  unfold step. destruct (getDistanceBetween s keyA keyB).2; [|done].
  by intros [= <-].
Qed.

Lemma wf_step s o s' : wf s → step s o = Some s' → wf s'.
Proof.
  intros Hwf. destruct o; try (intros ->%step_GetDistanceBetween);
    simpl; try (intros [= <-]).
  - by apply wf_addObject.
  - by apply wf_addFrame.
  - by apply wf_addNode.
  - by apply wf_removeElementAndChildren.
  - by apply wf_recomputeGraph.
  - by apply wf_recomputeGraph.
  - by apply wf_updateWithPositionData.
  - by apply wf_updateObjectWorldId.
  - done.
  - by apply wf_deactivateElement.
  - by apply wf_activateElement.
  - by apply wf_addDataFromSerializableGraph.
  - by apply wf_recomputeGraph.
Qed.

Lemma wf_run ops s s' : wf s → run s ops = Some s' → wf s'.
Proof.
  revert s. induction ops as [|o ops IH]; intros s Hwf; simpl.
  - by intros [= <-].
  - destruct (step s o) as [s1|] eqn:E; [|done]. simpl.
    apply IH. by eapply wf_step.
Qed.


(** ** The shape of the tree *)

Lemma rotateX_key_ne (k : string) : k +:+ "rotateX" ≠ k.
Proof. induction k as [|a k IH]; simpl; [done|]. intros [= ?]. done. Qed.

Lemma same_shape_refl h : same_shape h h.
Proof. by repeat split. Qed.

Lemma same_shape_trans h1 h2 h3 :
  same_shape h1 h2 → same_shape h2 h3 → same_shape h1 h3.
Proof.
  intros (L1 & I1 & P1 & C1) (L2 & I2 & P2 & C2). repeat split.
  - congruence.
  - intros x. by rewrite I1.
  - intros x. by rewrite P1.
  - intros x. by rewrite C1.
Qed.

Lemma same_shape_same_skeleton h h' : same_skeleton h h' → same_shape h h'.
Proof.
  intros E. repeat split.
  - by apply same_skeleton_length.
  - intros x. by apply same_skeleton_idOf.
  - intros x. by apply same_skeleton_parentOf.
  - intros x. by rewrite (same_skeleton_childrenOf _ _ x E).
Qed.

Lemma same_shape_set_needsRotateX b l h :
  same_shape (alter (set_needsRotateX b) l h) h.
Proof.
  repeat split.
  - apply length_alter.
  - intros x. by apply idOf_alter_keep.
  - intros x. by apply parentOf_alter_keep.
  - intros x. by rewrite childrenOf_alter_keep.
Qed.

(** Setting the parent a node already has, in whose children it already is. *)
Lemma same_shape_setParent_again h l p :
  l < length h → p < length h →
  parentOf h l = Some p → l ∈ childrenOf h p →
  same_shape (setParent h l p) h.
Proof.
  intros Hl Hp Hpar Hch. repeat split.
  - apply length_setParent.
  - intros x. apply idOf_setParent.
  - intros x. rewrite parentOf_setParent by done. case_decide; by subst.
  - intros x. rewrite childrenOf_setParent by done.
    rewrite !childrenOf_detach, Hpar. case_decide as E.
    + subst x. rewrite decide_True by done.
      rewrite <- Permutation_cons_append. by apply remove_first_perm.
    + rewrite decide_False; [done|congruence].
Qed.

Lemma childrenOf_detach_subseteq h l x c :
  c ∈ childrenOf (detach h l) x → c ∈ childrenOf h x.
Proof.
  rewrite childrenOf_detach. case_decide; [|done]. apply remove_first_subseteq.
Qed.

Lemma childrenOf_detach_other h l x c :
  c ≠ l → c ∈ childrenOf h x → c ∈ childrenOf (detach h l) x.
Proof.
  intros Hne. rewrite childrenOf_detach. case_decide; [|done].
  by apply remove_first_other.
Qed.

(** After [l.setParent(p)], another node is in the same children arrays as
    before. *)
Lemma childrenOf_setParent_other h l p x c :
  p < length h → c ≠ l →
  c ∈ childrenOf (setParent h l p) x ↔ c ∈ childrenOf h x.
Proof.
  intros Hp Hne. rewrite childrenOf_setParent by done. case_decide.
  - subst x. rewrite elem_of_app, list_elem_of_singleton. split.
    + intros [?%childrenOf_detach_subseteq|?]; done.
    + intros ?. left. by apply childrenOf_detach_other.
  - split; [apply childrenOf_detach_subseteq|by apply childrenOf_detach_other].
Qed.

Lemma childrenOf_setParent_self h l p :
  p < length h → l ∈ childrenOf (setParent h l p) p.
Proof.
  intros Hp. rewrite childrenOf_setParent by done. rewrite decide_True by done.
  apply elem_of_app. right. by apply list_elem_of_singleton.
Qed.

(** A new node has no links: allocation changes no parent and no children. *)
Lemma parentOf_alloc h k x : parentOf (h ++ [newSceneNode k]) x = parentOf h x.
Proof.
  unfold parentOf. destruct (decide (x < length h)).
  - by rewrite lookup_app_l.
  - rewrite lookup_app_r by lia. rewrite (lookup_ge_None_2 h) by lia.
    by destruct (x - length h) as [|[|?]].
Qed.

Lemma childrenOf_alloc h k x : childrenOf (h ++ [newSceneNode k]) x = childrenOf h x.
Proof.
  unfold childrenOf. destruct (decide (x < length h)).
  - by rewrite lookup_app_l.
  - rewrite lookup_app_r by lia. rewrite (lookup_ge_None_2 h) by lia.
    by destruct (x - length h) as [|[|?]].
Qed.

Lemma getOrCreate_links s k l s1 :
  getOrCreate s k = (l, s1) →
  (∀ x, parentOf (heap s1) x = parentOf (heap s) x) ∧
  (∀ x, childrenOf (heap s1) x = childrenOf (heap s) x) ∧
  (∀ x, x < length (heap s) → idOf (heap s1) x = idOf (heap s) x).
Proof.
  unfold getOrCreate. destruct (graph s !! k).
  - by intros [= <- <-].
  - intros [= <- <-]. simpl. split; [apply parentOf_alloc|].
    split; [apply childrenOf_alloc|]. intros x Hx. by apply idOf_alloc_old.
Qed.

(** *** What [addRotateX] and [addObject] establish *)

Lemma addRotateX_frame s l b :
  rootNode (addRotateX s l b) = rootNode s ∧
  updateCallbacks (addRotateX s l b) = updateCallbacks s ∧
  calls (addRotateX s l b) = calls s.
Proof.
  unfold addRotateX. destruct (getOrCreate _ _) as [r s2] eqn:E.
  destruct (getOrCreate_frame _ _ _ _ E) as (? & ? & ? & _). done.
Qed.

(** The rotation node is registered under the key of its parent followed
    by [rotateX], it is a child of the parent, and no other node changes
    place. *)
Lemma addRotateX_post s l b :
  wf s → l < length (heap s) →
  let s' := addRotateX s l b in
  ∃ r, graph s' !! (idOf (heap s) l +:+ "rotateX") = Some r ∧
       r < length (heap s') ∧ r ≠ l ∧
       length (heap s) ≤ length (heap s') ∧
       (∀ k l', graph s !! k = Some l' → graph s' !! k = Some l') ∧
       (∀ x, x < length (heap s) → idOf (heap s') x = idOf (heap s) x) ∧
       (∀ x, parentOf (heap s') x =
             if decide (x = r) then Some l else parentOf (heap s) x) ∧
       (∀ x c, c ≠ r → c ∈ childrenOf (heap s') x ↔ c ∈ childrenOf (heap s) x) ∧
       r ∈ childrenOf (heap s') l.
Proof.
  intros Hwf Hl. unfold addRotateX.
  set (s1 := set_heap _ s).
  assert (wf s1) as Hwf1 by (apply wf_set_heap; [done|apply store_step_set_needsRotateX]).
  destruct (same_shape_set_needsRotateX true l (heap s)) as (L1 & I1 & P1 & C1).
  change (heap s1) with (alter (set_needsRotateX true) l (heap s)).
  rewrite I1.
  destruct (getOrCreate s1 _) as [r s2] eqn:E. simpl.
  destruct (getOrCreate_wf _ _ _ _ Hwf1 E) as (Hwf2 & Hkr & Hr).
  destruct (getOrCreate_frame _ _ _ _ E) as (_ & _ & _ & Hlen & Hh & Hg).
  destruct (getOrCreate_links _ _ _ _ E) as (Hp2 & Hc2 & Hi2).
  simpl in Hlen, Hh, Hg, Hp2, Hc2, Hi2. rewrite L1 in Hlen, Hi2.
  assert (l < length (heap s2)) as Hl2 by lia.
  assert (r ≠ l) as Hrl.
  { intros ->. destruct (wf_graph_lookup _ _ _ Hwf2 Hkr) as [_ Hid].
    rewrite Hi2, I1 in Hid by done. symmetry in Hid.
    by apply rotateX_key_ne in Hid. }
  exists r. rewrite length_setLocalMatrix, length_setParent.
  repeat split; try done.
  - intros x Hx.
    rewrite (same_skeleton_idOf _ _ _ (same_skeleton_setLocalMatrix _ _ _)).
    rewrite idOf_setParent, Hi2, I1 by done. done.
  - intros x.
    rewrite (same_skeleton_parentOf _ _ _ (same_skeleton_setLocalMatrix _ _ _)).
    rewrite parentOf_setParent by done. case_decide; [done|]. by rewrite Hp2, P1.
  - rewrite (same_skeleton_childrenOf _ _ _ (same_skeleton_setLocalMatrix _ _ _)).
    rewrite childrenOf_setParent_other by done.
    rewrite Hc2. intros Hc. by rewrite <- C1.
  - rewrite (same_skeleton_childrenOf _ _ _ (same_skeleton_setLocalMatrix _ _ _)).
    rewrite childrenOf_setParent_other by done.
    rewrite Hc2. intros Hc. by rewrite C1.
  - rewrite (same_skeleton_childrenOf _ _ _ (same_skeleton_setLocalMatrix _ _ _)).
    by apply childrenOf_setParent_self.
Qed.

(** Adding the rotation node a second time changes neither the registry
    nor the shape of the tree. *)
Lemma addRotateX_again s l r b :
  wf s → l < length (heap s) →
  graph s !! (idOf (heap s) l +:+ "rotateX") = Some r →
  parentOf (heap s) r = Some l → r ∈ childrenOf (heap s) l →
  graph (addRotateX s l b) = graph s ∧
  same_shape (heap (addRotateX s l b)) (heap s).
Proof.
  intros Hwf Hl Hk Hpar Hch. unfold addRotateX.
  destruct (same_shape_set_needsRotateX true l (heap s)) as (L1 & I1 & P1 & C1).
  change (heap (set_heap ?h s)) with h. rewrite I1.
  rewrite (getOrCreate_fetch _ _ r) by done. simpl. split; [done|].
  destruct (wf_graph_lookup _ _ _ Hwf Hk) as [Hr _].
  eapply same_shape_trans;
    [apply same_shape_same_skeleton, same_skeleton_setLocalMatrix|].
  eapply same_shape_trans; [|apply (same_shape_set_needsRotateX true l)].
  apply same_shape_setParent_again.
  - by rewrite L1.
  - by rewrite L1.
  - by rewrite P1.
  - by rewrite C1.
Qed.

Lemma addObject_unfold s o m b :
  addObject s o m b =
  let '(l, s3) := placeObject s (getUuid o None None) m in
  triggerUpdateCallbacks (if b then addRotateX s3 l false else s3).
Proof.
  unfold addObject, placeObject. by destruct (getOrCreate s _) as [l s1].
Qed.

Lemma placeObject_post s k m l s3 :
  wf s → placeObject s k m = (l, s3) →
  wf s3 ∧ graph s3 !! k = Some l ∧ l < length (heap s3) ∧
  rootNode s3 = rootNode s ∧ updateCallbacks s3 = updateCallbacks s ∧
  calls s3 = calls s ∧
  (graph s !! k = Some l ∧ graph s3 = graph s ∧ length (heap s3) = length (heap s)
   ∨ graph s !! k = None ∧ l = length (heap s) ∧ graph s3 = <[k := l]> (graph s)
     ∧ length (heap s3) = S (length (heap s))) ∧
  (∀ x, x < length (heap s) → idOf (heap s3) x = idOf (heap s) x) ∧
  (∀ x, parentOf (heap s3) x =
        if decide (x = l) then Some (rootNode s) else parentOf (heap s) x) ∧
  (∀ x c, c ≠ l → c ∈ childrenOf (heap s3) x ↔ c ∈ childrenOf (heap s) x) ∧
  (∀ x, childrenOf (heap s3) x =
        if decide (x = rootNode s) then childrenOf (detach (heap s) l) x ++ [l]
        else childrenOf (detach (heap s) l) x) ∧
  l ∈ childrenOf (heap s3) (rootNode s).
Proof.
  intros Hwf. unfold placeObject.
  destruct (getOrCreate s k) as [l' s1] eqn:E. intros [= -> <-].
  destruct (getOrCreate_wf _ _ _ _ Hwf E) as (Hwf1 & Hk & Hl).
  destruct (getOrCreate_frame _ _ _ _ E) as (Hroot & Hcb & Hcalls & Hlen & Hh & Hg).
  destruct (getOrCreate_links _ _ _ _ E) as (Hp1 & Hc1 & Hi1).
  assert (rootNode s1 < length (heap s1)) as Hr1 by apply Hwf1.
  set (s2 := set_heap (setParent (heap s1) l (rootNode s1)) s1).
  assert (wf s2) as Hwf2.
  { apply wf_set_heap; [done|]. by apply store_step_setParent. }
  set (s3 := match m with Some _ => _ | None => _ end).
  assert (wf s3 ∧ same_skeleton (heap s3) (heap s2) ∧ graph s3 = graph s1 ∧
          rootNode s3 = rootNode s1 ∧ updateCallbacks s3 = updateCallbacks s1 ∧
          calls s3 = calls s1) as (Hwf3 & E3 & G3 & R3 & U3 & C3).
  { subst s3. destruct m as [m|]; [|done]. split; [|split; [|done]].
    - apply wf_set_heap; [done|apply store_step_setLocalMatrix].
    - apply same_skeleton_setLocalMatrix. }
  pose proof (same_skeleton_length _ _ E3) as L3. simpl in L3.
  rewrite length_setParent in L3.
  split; [done|]. rewrite G3, R3, U3, C3, L3, Hroot.
  repeat split; try done.
  - revert E. unfold getOrCreate. destruct (graph s !! k) as [l0|] eqn:E0.
    + intros [= <- <-]. by left.
    + intros [= <- <-]. right. simpl. rewrite length_app. simpl.
      repeat split; try done. lia.
  - intros x Hx. rewrite (same_skeleton_idOf _ _ _ E3). simpl.
    rewrite idOf_setParent. by apply Hi1.
  - intros x. rewrite (same_skeleton_parentOf _ _ _ E3). simpl.
    rewrite parentOf_setParent by done. by rewrite Hroot, Hp1.
  - rewrite (same_skeleton_childrenOf _ _ _ E3). simpl.
    rewrite childrenOf_setParent_other by done. by rewrite Hc1.
  - rewrite (same_skeleton_childrenOf _ _ _ E3). simpl.
    rewrite childrenOf_setParent_other by done. by rewrite Hc1.
  - intros x. rewrite (same_skeleton_childrenOf _ _ _ E3). simpl.
    rewrite childrenOf_setParent by done. rewrite Hroot.
    case_decide; subst; by rewrite !childrenOf_detach, Hp1, !Hc1.
  - rewrite (same_skeleton_childrenOf _ _ _ E3). simpl.
    rewrite <- Hroot. by apply childrenOf_setParent_self.
Qed.

Lemma placeObject_again s k m l :
  wf s → graph s !! k = Some l →
  parentOf (heap s) l = Some (rootNode s) → l ∈ childrenOf (heap s) (rootNode s) →
  ∃ s3, placeObject s k m = (l, s3) ∧ wf s3 ∧ graph s3 = graph s ∧
        rootNode s3 = rootNode s ∧ updateCallbacks s3 = updateCallbacks s ∧
        calls s3 = calls s ∧ same_shape (heap s3) (heap s).
Proof.
  intros Hwf Hk Hpar Hch.
  destruct (placeObject s k m) as [l' s3] eqn:E.
  destruct (placeObject_post _ _ _ _ _ Hwf E) as (Hwf3 & Hk3 & _ & Hr & Hu & Hc & _).
  revert E Hk3. unfold placeObject. rewrite (getOrCreate_fetch _ _ l) by done.
  intros [= <- <-] Hk3. eexists. split; [done|]. split; [exact Hwf3|].
  destruct (wf_graph_lookup _ _ _ Hwf Hk) as [Hl _].
  assert (rootNode s < length (heap s)) as Hroot by apply Hwf.
  pose proof (same_shape_setParent_again _ _ _ Hl Hroot Hpar Hch) as Hshape.
  do 4 (split; [by destruct m|]). destruct m as [m|]; [|done]. simpl.
  eapply same_shape_trans; [|exact Hshape].
  apply same_shape_same_skeleton, same_skeleton_setLocalMatrix.
Qed.

(** What holds after [addObject]: the node is registered, it is a child of
    the root, and with the flag its rotation node is registered and is its
    child; every callback has been called once more. *)
Lemma addObject_post s o m b :
  wf s →
  let k := getUuid o None None in
  let s1 := addObject s o m b in
  wf s1 ∧ rootNode s1 = rootNode s ∧ updateCallbacks s1 = updateCallbacks s ∧
  calls s1 = calls s ++ updateCallbacks s ∧
  ∃ l, graph s1 !! k = Some l ∧ l < length (heap s1) ∧
       (graph s !! k = Some l ∨ graph s !! k = None ∧ l = length (heap s)) ∧
       parentOf (heap s1) l = Some (rootNode s) ∧
       l ∈ childrenOf (heap s1) (rootNode s) ∧
       (b = true →
        ∃ r, graph s1 !! (k +:+ "rotateX") = Some r ∧
             parentOf (heap s1) r = Some l ∧ r ∈ childrenOf (heap s1) l).
Proof.
  intros Hwf k s1. split; [by apply wf_addObject|]. subst s1.
  rewrite addObject_unfold. fold k.
  destruct (placeObject s k m) as [l s3] eqn:E.
  destruct (placeObject_post _ _ _ _ _ Hwf E)
    as (Hwf3 & Hk3 & Hl3 & Hr3 & Hu3 & Hc3 & Hnew & Hi3 & Hp3 & _ & _ & Hch3).
  assert (graph s !! k = Some l ∨ graph s !! k = None ∧ l = length (heap s)) as Hl.
  { destruct Hnew as [(? & _)|(? & ? & _)]; eauto. }
  destruct b; simpl.
  - destruct (addRotateX_frame s3 l false) as (-> & -> & ->).
    rewrite Hu3, Hc3. repeat split; try done.
    destruct (addRotateX_post s3 l false Hwf3 Hl3)
      as (r & Hkr & Hr & Hrl & Hlen & Hg & _ & Hp & Hc & Hrc).
    destruct (wf_graph_lookup _ _ _ Hwf3 Hk3) as [_ Hid]. rewrite Hid in Hkr.
    exists l. repeat split; try done.
    + by apply Hg.
    + lia.
    + rewrite Hp, decide_False by done. rewrite Hp3. by rewrite decide_True.
    + by apply Hc.
    + intros _. exists r. repeat split; try done.
      rewrite Hp. by rewrite decide_True.
  - rewrite Hu3, Hc3. repeat split; try done.
    exists l. repeat split; try done.
    rewrite Hp3. by rewrite decide_True.
Qed.

(** C1. Calling [addObject] a second time with the same object ID, matrix
    and flag leaves the registry as it is after the first call (the ID is
    registered to the same single node, no key is added), creates no node,
    and leaves the parent/child edges of the tree as they are after the
    first call (the children of every node are the same up to their
    order). *)
Theorem addObject_idempotent s o m b :
  wf s →
  let s1 := addObject s o m b in
  let s2 := addObject s1 o m b in
  graph s2 = graph s1 ∧
  (∃ l, graph s1 !! getUuid o None None = Some l ∧
        graph s2 !! getUuid o None None = Some l) ∧
  length (heap s2) = length (heap s1) ∧
  (∀ p c, edge (heap s2) p c ↔ edge (heap s1) p c) ∧
  rootNode s2 = rootNode s1 ∧
  same_shape (heap s2) (heap s1).
Proof.
  intros Hwf s1 s2.
  destruct (addObject_post s o m b Hwf)
    as (Hwf1 & Hr1 & Hu1 & Hc1 & l & Hk & Hl & _ & Hpar & Hch & Hrot).
  fold s1 in Hwf1, Hr1, Hu1, Hc1, Hk, Hl, Hpar, Hch, Hrot.
  rewrite <- Hr1 in Hpar, Hch.
  destruct (placeObject_again s1 _ m l Hwf1 Hk Hpar Hch)
    as (s3 & E & Hwf3 & Hg3 & Hr3 & _ & _ & Hshape3).
  assert (graph s2 = graph s1 ∧ rootNode s2 = rootNode s1 ∧
          same_shape (heap s2) (heap s1)) as (Hg & Hr & Hshape).
  { subst s2. rewrite addObject_unfold, E. destruct b; simpl; [|done].
    destruct (Hrot eq_refl) as (r & Hkr & Hpr & Hcr).
    destruct (addRotateX_frame s3 l false) as (-> & _).
    destruct Hshape3 as (L3 & I3 & P3 & C3).
    destruct (wf_graph_lookup _ _ _ Hwf1 Hk) as [_ Hid].
    destruct (addRotateX_again s3 l r false) as [-> Hshape]; try done.
    - by rewrite L3.
    - by rewrite Hg3, I3, Hid.
    - by rewrite P3.
    - by rewrite C3.
    - split; [done|]. split; [done|]. by eapply same_shape_trans. }
  split; [done|]. split; [exists l; by rewrite Hg|].
  destruct Hshape as (L & I & P & C). repeat split; try done.
  - unfold edge. by rewrite C.
  - unfold edge. by rewrite C.
Qed.


(** ** Removal *)

Lemma owned_by_parent_spec h l :
  owned_by_parent h l ↔
  ∀ q, l ∈ childrenOf h q →
       parentOf h l = Some q ∧ l ∉ remove_first l (childrenOf h q).
Proof.
  unfold owned_by_parent. rewrite Forall_forall. split.
  - intros Ho q Hq. apply Ho; [|done]. apply elem_of_seq.
    destruct (decide (q < length h)); [lia|].
    rewrite childrenOf_invalid in Hq by lia. by apply elem_of_nil in Hq.
  - intros Ho q _. apply Ho.
Qed.

Lemma descendant_edge h a d : descendant h a d → ∃ c, edge h c d.
Proof. destruct 1; eauto. Qed.

Lemma removeElementAndChildren_unfold s i l :
  graph s !! i = Some l →
  removeElementAndChildren s i =
  triggerUpdateCallbacks (set_graph (delete i (graph s)) (set_heap (detach (heap s) l) s)).
Proof.
  intros E. unfold removeElementAndChildren. by rewrite (resolve_own _ _ _ E).
Qed.

Lemma detach_lookup_other h l x :
  parentOf h l ≠ Some x → detach h l !! x = h !! x.
Proof.
  intros Hne. unfold detach. destruct (parentOf h l) as [q|]; [|done].
  apply list_lookup_alter_ne. congruence.
Qed.

Lemma owned_by_parent_detach h l q :
  owned_by_parent h l → l ∉ childrenOf (detach h l) q.
Proof.
  rewrite owned_by_parent_spec. intros Ho. rewrite childrenOf_detach.
  case_decide as E.
  - intros Hl. destruct (Ho q) as [_ Hn]; [|done]. by eapply remove_first_subseteq.
  - intros Hl. destruct (Ho q Hl) as [? _]. done.
Qed.

Lemma remove_first_middle x pre post :
  x ∉ pre → remove_first x (pre ++ x :: post) = pre ++ post.
Proof.
  induction pre as [|c pre IH]; simpl.
  - intros _. by rewrite decide_True.
  - intros [? ?]%not_elem_of_cons. rewrite decide_False by done. f_equal. auto.
Qed.

Lemma remove_first_keeps_second x pre post :
  x ∈ post → x ∈ remove_first x (pre ++ x :: post).
Proof.
  intros Hx. induction pre as [|c pre IH]; simpl.
  - by rewrite decide_True.
  - case_decide.
    + apply elem_of_app. right. by apply list_elem_of_further.
    + by apply list_elem_of_further.
Qed.

(** [owned_by_parent] without [remove_first]: every node that lists [l] is
    the parent of [l], and no array lists [l] a second time. *)
Lemma owned_by_parent_alt h l :
  owned_by_parent h l ↔
  (∀ q, edge h q l → parentOf h l = Some q) ∧
  (∀ q pre post, childrenOf h q = pre ++ l :: post → l ∉ post).
Proof.
  rewrite owned_by_parent_spec. unfold edge. split.
  - intros Ho. split; [intros q Hq; by apply Ho|].
    intros q pre post E Hpost. destruct (Ho q) as [_ Hn].
    { rewrite E. apply elem_of_app. right. apply list_elem_of_here. }
    apply Hn. rewrite E. by apply remove_first_keeps_second.
  - intros [Hp Honce] q Hq. split; [by apply Hp|].
    destruct (list_elem_of_split_l _ _ Hq) as (pre & post & E & Hpre).
    rewrite E, remove_first_middle by done.
    intros [?|?]%elem_of_app; [done|]. by apply (Honce q pre post).
Qed.

(** C2. For an id registered to a node, [removeElementAndChildren] takes
    the first occurrence of the node out of the children of its parent (as
    [indexOf] and [splice] do) and deletes the id from the registry, in one
    step; it calls every callback once; every other key, the keys of
    descendants included, stays registered to its node, and no node other
    than the parent is written, so the descendants keep their parent links
    to the removed node. If only the parent of the node listed it, and only
    once, no edge leads to it any more and it is not reachable from the
    root. *)
Theorem removeElementAndChildren_spec s i l :
  graph s !! i = Some l →
  let s' := removeElementAndChildren s i in
  graph s' = delete i (graph s) ∧
  graph s' !! i = None ∧
  (∀ p, parentOf (heap s) l = Some p →
        (∀ pre post, childrenOf (heap s) p = pre ++ l :: post → l ∉ pre →
                     childrenOf (heap s') p = pre ++ post) ∧
        (l ∉ childrenOf (heap s) p →
         childrenOf (heap s') p = childrenOf (heap s) p)) ∧
  calls s' = calls s ++ updateCallbacks s ∧
  (∀ k d, k ≠ i → graph s !! k = Some d → graph s' !! k = Some d) ∧
  (∀ x, parentOf (heap s) l ≠ Some x → heap s' !! x = heap s !! x) ∧
  (∀ x, parentOf (heap s') x = parentOf (heap s) x) ∧
  ((∀ q, edge (heap s) q l → parentOf (heap s) l = Some q) →
   (∀ q pre post, childrenOf (heap s) q = pre ++ l :: post → l ∉ post) →
   (∀ q, ¬ edge (heap s') q l) ∧ ¬ descendant (heap s') (rootNode s') l).
Proof.
  intros Hi s'. subst s'. rewrite (removeElementAndChildren_unfold _ _ l) by done.
  simpl. split; [done|]. split; [apply lookup_delete_eq|]. split.
  { intros p Hp. rewrite childrenOf_detach, decide_True by done. split.
    - intros pre post -> Hpre. by apply remove_first_middle.
    - apply remove_first_notin. }
  split; [done|]. split.
  { intros k d Hne Hk. by rewrite lookup_delete_ne. }
  split; [intros x; apply detach_lookup_other|].
  split; [intros x; apply parentOf_detach|].
  intros Hp Honce. assert (owned_by_parent (heap s) l) as Ho
    by by apply owned_by_parent_alt.
  assert (∀ q, ¬ edge (detach (heap s) l) q l) as He.
  { intros q. by apply owned_by_parent_detach. }
  split; [done|]. intros [c Hc]%descendant_edge. by apply (He c).
Qed.

(** ** Adding an object that is already registered *)

Lemma remove_first_snoc_notin x cs : x ∉ cs → remove_first x (cs ++ [x]) = cs.
Proof.
  induction cs as [|c cs IH]; simpl.
  - intros _. by rewrite decide_True.
  - intros [? ?]%not_elem_of_cons. rewrite decide_False by done. f_equal. auto.
Qed.

Lemma addObject_existing s o m b l :
  wf s → graph s !! getUuid o None None = Some l →
  let s' := addObject s o m b in
  rootNode s' = rootNode s ∧
  graph s' !! getUuid o None None = Some l ∧
  parentOf (heap s') l = Some (rootNode s') ∧
  edge (heap s') (rootNode s') l ∧
  (∀ w, parentOf (heap s) l = Some w → w ≠ rootNode s →
        l ∉ remove_first l (childrenOf (heap s) w) → ¬ edge (heap s') w l).
Proof.
  intros Hwf Hk s'.
  destruct (addObject_post s o m b Hwf)
    as (_ & Hr & _ & _ & l' & Hk' & _ & Hl' & Hpar & Hch & _).
  fold s' in Hr, Hk', Hpar, Hch.
  assert (l' = l) as -> by (destruct Hl' as [?|[? _]]; congruence).
  rewrite Hr. do 4 (split; [done|]).
  intros w Hw Hne Hnot. subst s'. rewrite addObject_unfold.
  destruct (placeObject s _ m) as [l0 s3] eqn:E.
  destruct (placeObject_post _ _ _ _ _ Hwf E)
    as (Hwf3 & Hk3 & Hl3 & _ & _ & _ & Hnew & _ & _ & _ & Hc3 & _).
  assert (l0 = l) as -> by (destruct Hnew as [[? _]|[? _]]; congruence).
  assert (l ∉ childrenOf (heap s3) w) as Hnot3.
  { rewrite Hc3, decide_False by done. rewrite childrenOf_detach.
    by rewrite decide_True. }
  unfold edge. destruct b; simpl; [|done].
  destruct (addRotateX_post s3 l false Hwf3 Hl3)
    as (r & _ & _ & Hrl & _ & _ & _ & _ & Hc & _).
  rewrite Hc by done. done.
Qed.

Lemma updateObjectWorldId_distinct s o w lo lw :
  o ≠ w →
  graph s !! getUuid o None None = Some lo →
  graph s !! getUuid w None None = Some lw →
  updateObjectWorldId s o w = set_heap (setParent (heap s) lo lw) s.
Proof.
  intros Hne Ho Hw. unfold updateObjectWorldId.
  rewrite decide_False by done. by rewrite Ho, Hw.
Qed.

(** C10. For an object ID whose node is already registered, [addObject]
    sets the parent of that node to the root and puts it in the children of
    the root; it is taken out of the children of its former parent (first
    occurrence), so a node that was there once is there no more. In
    particular an object that [updateObjectWorldId] put under a world
    anchor other than the root is under the root again, and no longer under
    the anchor, after [addObject] for the same ID. *)
Theorem addObject_resets_parent s o m b lo :
  wf s →
  graph s !! getUuid o None None = Some lo →
  (let s' := addObject s o m b in
   graph s' !! getUuid o None None = Some lo ∧
   parentOf (heap s') lo = Some (rootNode s') ∧
   edge (heap s') (rootNode s') lo ∧
   (∀ a, parentOf (heap s) lo = Some a → a ≠ rootNode s →
         lo ∉ remove_first lo (childrenOf (heap s) a) → ¬ edge (heap s') a lo)) ∧
  (∀ w lw,
     o ≠ w → graph s !! getUuid w None None = Some lw →
     lw ≠ rootNode s → owned_by_parent (heap s) lo →
     let s1 := updateObjectWorldId s o w in
     let s2 := addObject s1 o m b in
     parentOf (heap s1) lo = Some lw ∧ edge (heap s1) lw lo ∧
     parentOf (heap s2) lo = Some (rootNode s2) ∧
     edge (heap s2) (rootNode s2) lo ∧ ¬ edge (heap s2) lw lo).
Proof.
  intros Hwf Ho. split.
  { destruct (addObject_existing s o m b lo Hwf Ho) as (_ & ? & ? & ? & ?). done. }
  intros w lw Hne Hw Hroot Hown s1 s2.
  assert (s1 = set_heap (setParent (heap s) lo lw) s) as E1
    by by apply updateObjectWorldId_distinct.
  destruct (wf_graph_lookup _ _ _ Hwf Ho) as [Hlo _].
  destruct (wf_graph_lookup _ _ _ Hwf Hw) as [Hlw _].
  assert (wf s1) as Hwf1 by by apply wf_updateObjectWorldId.
  assert (parentOf (heap s1) lo = Some lw) as Hp1.
  { rewrite E1. simpl. rewrite parentOf_setParent by done. by rewrite decide_True. }
  assert (childrenOf (heap s1) lw = childrenOf (detach (heap s) lo) lw ++ [lo]) as Hc1.
  { rewrite E1. simpl. rewrite childrenOf_setParent by done. by rewrite decide_True. }
  assert (graph s1 !! getUuid o None None = Some lo) as Ho1 by by rewrite E1.
  assert (rootNode s1 = rootNode s) as Hr1 by by rewrite E1.
  destruct (addObject_existing s1 o m b lo Hwf1 Ho1) as (_ & _ & Hp2 & He2 & Hd2).
  split; [done|]. split.
  { unfold edge. rewrite Hc1. apply elem_of_app. right. by apply list_elem_of_singleton. }
  split; [done|]. split; [done|].
  apply Hd2; [done|by rewrite Hr1|].
  rewrite Hc1. pose proof (owned_by_parent_detach _ _ lw Hown) as Hn.
  by rewrite remove_first_snoc_notin.
Qed.


(** ** Unknown IDs *)

(** A key that is not registered and is not a name that [this.graph]
    inherits resolves to [undefined]. *)
Lemma resolve_unknown s k :
  graph s !! k = None → k ∉ prototypeNames → k ≠ "deactivated" →
  resolve s k = VUndefined.
Proof.
  intros E Hp Hd. unfold resolve, inherited. rewrite E.
  by rewrite !bool_decide_eq_false_2.
Qed.

(** C7. When the ID a mutation is addressed to resolves to nothing in
    [this.graph] (it is not registered, and it is not the name of a property
    that the object inherits), [updateWithPositionData], [deactivateElement]
    and [activateElement] return the state they were given: no field of the
    graph or of a node changes and no callback is called (the trace [calls]
    is part of the state). *)
Theorem unknown_id_is_noop s o f n m x y sc i :
  resolve s (getUuid o f n) = VUndefined →
  resolve s i = VUndefined →
  updateWithPositionData s o f n m x y sc = s ∧
  deactivateElement s i = s ∧
  activateElement s i = Some s.
Proof.
  intros Hk Hi.
  unfold updateWithPositionData, deactivateElement, activateElement.
  by rewrite (resolve_VUndefined _ _ Hk), Hi.
Qed.

(** ** Reparenting an object under a world *)

(** C8. With a key construction that gives the two IDs different keys
    unless they are equal: [updateObjectWorldId] returns the state unchanged
    when both IDs resolve to the same node and when either does not
    resolve; when they resolve to distinct nodes the object node gets the
    world node as parent and joins its children, and the registry is
    unchanged. The state changes in that last case only. *)
Theorem updateObjectWorldId_spec s o w :
  wf s →
  (getUuid o None None = getUuid w None None → o = w) →
  let ko := getUuid o None None in
  let kw := getUuid w None None in
  let s' := updateObjectWorldId s o w in
  (∀ l, graph s !! ko = Some l → graph s !! kw = Some l → s' = s) ∧
  (graph s !! ko = None ∨ graph s !! kw = None → s' = s) ∧
  (∀ lo lw, graph s !! ko = Some lo → graph s !! kw = Some lw → lo ≠ lw →
     s' = set_heap (setParent (heap s) lo lw) s ∧
     graph s' = graph s ∧
     parentOf (heap s') lo = Some lw ∧ edge (heap s') lw lo) ∧
  (s' ≠ s → ∃ lo lw, graph s !! ko = Some lo ∧ graph s !! kw = Some lw ∧ lo ≠ lw).
Proof.
  intros Hwf Hinj ko kw s'.
  assert (∀ l, graph s !! ko = Some l → graph s !! kw = Some l → s' = s) as Hsame.
  { intros l Ho Hw. pose proof (wf_graph_inj _ _ _ _ Hwf Ho Hw) as Hk.
    apply Hinj in Hk. subst s'. unfold updateObjectWorldId. by rewrite decide_True. }
  assert (graph s !! ko = None ∨ graph s !! kw = None → s' = s) as Hnone.
  { intros Hn. subst s'. unfold updateObjectWorldId. case_decide; [done|].
    fold ko kw. destruct Hn as [-> | ->]; [done|]. by destruct (graph s !! ko). }
  split; [done|]. split; [done|]. split.
  - intros lo lw Ho Hw Hne.
    assert (o ≠ w) as Hne' by (intros ->; subst ko kw; congruence).
    assert (s' = set_heap (setParent (heap s) lo lw) s) as E
      by by apply updateObjectWorldId_distinct.
    destruct (wf_graph_lookup _ _ _ Hwf Ho) as [Hlo _].
    destruct (wf_graph_lookup _ _ _ Hwf Hw) as [Hlw _].
    split; [done|]. rewrite E. simpl. split; [done|]. split.
    + rewrite parentOf_setParent by done. by rewrite decide_True.
    + by apply childrenOf_setParent_self.
  - intros Hch. destruct (graph s !! ko) as [lo|] eqn:Ho; [|by destruct Hch; auto].
    destruct (graph s !! kw) as [lw|] eqn:Hw; [|by destruct Hch; auto].
    exists lo, lw. repeat split. intros ->. apply Hch. by apply (Hsame lw).
Qed.

(** ** Callbacks *)

Lemma placeObject_calls s k m :
  calls (placeObject s k m).2 = calls s ∧
  updateCallbacks (placeObject s k m).2 = updateCallbacks s.
Proof.
  unfold placeObject. destruct (getOrCreate s k) as [l s1] eqn:E.
  destruct (getOrCreate_frame _ _ _ _ E) as (_ & ? & ? & _).
  by destruct m.
Qed.

(** [addObject] calls every callback once, in the order of registration. *)
Lemma addObject_calls s o m b :
  calls (addObject s o m b) = calls s ++ updateCallbacks s.
Proof.
  rewrite addObject_unfold. destruct (placeObject_calls s (getUuid o None None) m) as [Hc Hu].
  destruct (placeObject s _ m) as [l s3]. simpl in *.
  destruct b.
  - destruct (addRotateX_frame s3 l false) as (_ & -> & ->). by rewrite Hc, Hu.
  - by rewrite Hc, Hu.
Qed.

Lemma addFrame_calls s o f v m s' :
  addFrame s o f v m = Some s' → calls s' = calls s ++ updateCallbacks s.
Proof.
  unfold addFrame. destruct (getOrCreate s _) as [l s1] eqn:E.
  destruct (getOrCreate_frame _ _ _ _ E) as (_ & Hu & Hc & _).
  destruct (graph s1 !! getUuid o None None) as [lo|]; simpl.
  - destruct (needsRotateXOf (heap s1) lo).
    + destruct (graph s1 !! (_ +:+ _)) as [r|]; [|done]. simpl.
      intros [= <-]. simpl. destruct v, m; simpl; by rewrite Hu, Hc.
    + simpl. intros [= <-]. destruct v, m; simpl; by rewrite Hu, Hc.
  - intros [= <-]. destruct v, m; simpl; by rewrite Hu, Hc.
Qed.

Lemma addNode_calls s o f n v m :
  calls (addNode s o f n v m) = calls s ++ updateCallbacks s.
Proof.
  unfold addNode. destruct (getOrCreate s _) as [l s1] eqn:E.
  destruct (getOrCreate_frame _ _ _ _ E) as (_ & Hu & Hc & _).
  destruct (graph s1 !! _), v, m; simpl; by rewrite Hu, Hc.
Qed.

Lemma removeElementAndChildren_calls s i :
  is_Some (graph s !! i) →
  calls (removeElementAndChildren s i) = calls s ++ updateCallbacks s.
Proof. intros [l Hl]. by rewrite (removeElementAndChildren_unfold _ _ l). Qed.

Lemma updateWithPositionData_calls s o f n m x y sc :
  is_Some (graph s !! getUuid o f n) →
  calls (updateWithPositionData s o f n m x y sc) = calls s ++ updateCallbacks s.
Proof. intros [l Hl]. unfold updateWithPositionData. by rewrite Hl. Qed.

Lemma deactivateElement_calls s i l :
  graph s !! i = Some l → deactivatedOf (heap s) l = false →
  calls (deactivateElement s i) = calls s ++ updateCallbacks s.
Proof.
  intros Hl Hd. unfold deactivateElement. by rewrite (resolve_own _ _ _ Hl), Hd.
Qed.

Lemma activateElement_calls s i l :
  graph s !! i = Some l → deactivatedOf (heap s) l = true →
  ∃ s', activateElement s i = Some s' ∧
        calls s' = calls s ++ updateCallbacks s.
Proof.
  intros Hl Hd. unfold activateElement. rewrite (resolve_own _ _ _ Hl), Hd.
  eauto.
Qed.



(** ** The root *)

Lemma placeObject_frame s k m l s3 :
  placeObject s k m = (l, s3) →
  rootNode s3 = rootNode s ∧
  (∀ k' l', graph s !! k' = Some l' → graph s3 !! k' = Some l').
Proof.
  unfold placeObject. destruct (getOrCreate s k) as [l1 s1] eqn:E.
  destruct (getOrCreate_frame _ _ _ _ E) as (? & _ & _ & _ & _ & ?).
  intros [= <- <-]. by destruct m.
Qed.

Lemma addRotateX_graph s l b k' l' :
  graph s !! k' = Some l' → graph (addRotateX s l b) !! k' = Some l'.
Proof.
  unfold addRotateX. destruct (getOrCreate _ _) as [r s2] eqn:E.
  destruct (getOrCreate_frame _ _ _ _ E) as (_ & _ & _ & _ & _ & Hg). apply Hg.
Qed.

Lemma step_rootNode s o s' : step s o = Some s' → rootNode s' = rootNode s.
Proof.
  destruct o; try (intros ->%step_GetDistanceBetween);
    simpl; try (intros [= <-]).
  - rewrite addObject_unfold. destruct (placeObject s _ _) as [l s3] eqn:E.
    destruct (placeObject_frame _ _ _ _ _ E) as [Hr _]. simpl.
    destruct needsRotateX0; [|done]. by destruct (addRotateX_frame s3 l false) as (-> & _).
  - unfold addFrame. destruct (getOrCreate s _) as [l s1] eqn:E.
    destruct (getOrCreate_frame _ _ _ _ E) as (Hr & _).
    destruct (graph s1 !! getUuid objectId None None) as [lo|]; simpl.
    + destruct (needsRotateXOf (heap s1) lo).
      * destruct (graph s1 !! (_ +:+ _)) as [r|]; [|done]. simpl.
        intros [= <-]. by destruct linkedFrame, initialLocalMatrix.
      * simpl. intros [= <-]. by destruct linkedFrame, initialLocalMatrix.
    + intros [= <-]. by destruct linkedFrame, initialLocalMatrix.
  - unfold addNode. destruct (getOrCreate s _) as [l s1] eqn:E.
    destruct (getOrCreate_frame _ _ _ _ E) as (Hr & _).
    by destruct (graph s1 !! _), linkedNode, initialLocalMatrix.
  - by destruct (removeElementAndChildren_cases s i)
      as [(l & _ & ->)|[_ [-> | ->]]].
  - done.
  - done.
  - unfold updateWithPositionData. by destruct (graph s !! _).
  - unfold updateObjectWorldId. case_decide; [done|].
    by destruct (graph s !! getUuid objectId None None),
                (graph s !! getUuid worldId None None).
  - done.
  - destruct (deactivateElement_cases s i) as [(l & _ & ->)|[_ [-> | [w ->]]]];
      [|done|done].
    by destruct (negb _).
  - intros Ha.
    destruct (activateElement_cases s i s' Ha) as [(l & _ & ->)|[_ [-> | [w ->]]]];
      [|done|done].
    by destruct (deactivatedOf _ _).
  - unfold addDataFromSerializableGraph.
    destruct (addPlaceholders s _) as [s1 ks] eqn:E.
    destruct (addPlaceholders_frame _ _ _ _ E) as (<- & _).
    apply hydrateNodes_frame.
  - done.
Qed.

(** No method other than [removeElementAndChildren(k)] takes the key [k]
    out of the registry or registers another node under it. *)
Lemma step_graph_kept s o s' k l :
  step s o = Some s' → ¬ removes k o →
  graph s !! k = Some l → graph s' !! k = Some l.
Proof.
  destruct o; intros Hstep Hrm Hk;
    try (apply step_GetDistanceBetween in Hstep as ->);
    simpl in *; try (injection Hstep as <-).
  - rewrite addObject_unfold. destruct (placeObject s _ _) as [l1 s3] eqn:E.
    destruct (placeObject_frame _ _ _ _ _ E) as [_ Hg]. simpl.
    destruct needsRotateX0; [|by apply Hg]. by apply addRotateX_graph, Hg.
  - revert Hstep. unfold addFrame. destruct (getOrCreate s _) as [l1 s1] eqn:E.
    destruct (getOrCreate_frame _ _ _ _ E) as (_ & _ & _ & _ & _ & Hg).
    apply Hg in Hk.
    destruct (graph s1 !! getUuid objectId None None) as [lo|]; simpl.
    + destruct (needsRotateXOf (heap s1) lo).
      * destruct (graph s1 !! (_ +:+ _)) as [r|]; [|done]. simpl.
        intros [= <-]. by destruct linkedFrame, initialLocalMatrix.
      * simpl. intros [= <-]. by destruct linkedFrame, initialLocalMatrix.
    + intros [= <-]. by destruct linkedFrame, initialLocalMatrix.
  - unfold addNode. destruct (getOrCreate s _) as [l1 s1] eqn:E.
    destruct (getOrCreate_frame _ _ _ _ E) as (_ & _ & _ & _ & _ & Hg).
    apply Hg in Hk.
    by destruct (graph s1 !! getUuid _ (Some _) None), linkedNode, initialLocalMatrix.
  - destruct (removeElementAndChildren_cases s i)
      as [(l0 & Ei & ->)|[_ [-> | ->]]]; [|done|done].
    simpl. rewrite lookup_delete_ne; [done|]. intros ->. by apply Hrm.
  - done.
  - done.
  - unfold updateWithPositionData. by destruct (graph s !! getUuid _ _ _).
  - unfold updateObjectWorldId. case_decide; [done|].
    by destruct (graph s !! getUuid objectId None None),
                (graph s !! getUuid worldId None None).
  - done.
  - destruct (deactivateElement_cases s i) as [(l0 & _ & ->)|[_ [-> | [w ->]]]];
      [|done|done].
    by destruct (negb _).
  - destruct (activateElement_cases s i s' Hstep)
      as [(l0 & _ & ->)|[_ [-> | [w ->]]]]; [|done|done].
    by destruct (deactivatedOf _ _).
  - unfold addDataFromSerializableGraph.
    destruct (addPlaceholders s _) as [s1 ks] eqn:E.
    destruct (addPlaceholders_frame _ _ _ _ E) as (_ & _ & _ & _ & _ & Hg).
    destruct (hydrateNodes_frame data ks s1) as (-> & _). by apply Hg.
  - done.
Qed.

Lemma run_graph_kept ops s s' k l :
  Forall (λ o, ¬ removes k o) ops → run s ops = Some s' →
  graph s !! k = Some l →
  graph s' !! k = Some l ∧ rootNode s' = rootNode s.
Proof.
  revert s. induction ops as [|o ops IH]; intros s Hops; simpl.
  - by intros [= <-].
  - apply Forall_cons in Hops as [Ho Hops].
    destruct (step s o) as [s1|] eqn:E; [|done]. simpl. intros Hrun Hk.
    destruct (IH s1 Hops Hrun) as [? ?]; [by eapply step_graph_kept|].
    split; [done|]. rewrite <- (step_rootNode _ _ _ E). done.
Qed.

(** C3, as the code has it. The root node is registered under [ROOT] after
    construction and after every sequence of calls in which
    [removeElementAndChildren] is never addressed to [ROOT] itself; the
    graph refers to the same root node throughout. *)
Theorem root_stays_registered ops s :
  Forall (λ o, ¬ removes ROOT o) ops →
  run constructor ops = Some s →
  graph s !! ROOT = Some (rootNode s) ∧
  rootNode s = rootNode constructor ∧
  idOf (heap s) (rootNode s) = ROOT.
Proof.
  intros Hops Hrun.
  destruct (run_graph_kept ops constructor s ROOT 0 Hops Hrun) as [Hk Hr]; [done|].
  pose proof (wf_run _ _ _ wf_constructor Hrun) as Hwf.
  rewrite Hr. split; [done|]. split; [done|].
  by destruct (wf_graph_lookup _ _ _ Hwf Hk).
Qed.


(** ** Frames *)

(** The last statements of [addFrame] and [addNode] (payload, local matrix)
    move no node. *)
Lemma link_matrix_skeleton s l (v : option vehicle) (m : option matrix) :
  let s3 := match v with
            | Some v => set_heap (alter (set_linkedVehicle (Some v)) l (heap s)) s
            | None => s
            end in
  let s4 := match m with
            | Some m => set_heap (setLocalMatrix (heap s3) l m) s3
            | None => s3
            end in
  same_skeleton (heap s4) (heap s) ∧ graph s4 = graph s.
Proof.
  intros s3 s4.
  assert (same_skeleton (heap s3) (heap s) ∧ graph s3 = graph s) as [E3 G3].
  { subst s3. destruct v; [|done]. split; [|done]. by apply same_skeleton_alter. }
  subst s4. destruct m; [|done]. simpl. split; [|done].
  unfold same_skeleton in *. by rewrite same_skeleton_setLocalMatrix.
Qed.

Lemma needsRotateXOf_getOrCreate s k l s1 x :
  getOrCreate s k = (l, s1) → x < length (heap s) →
  needsRotateXOf (heap s1) x = needsRotateXOf (heap s) x.
Proof.
  intros E Hx. destruct (getOrCreate_frame _ _ _ _ E) as (_ & _ & _ & _ & Hh & _).
  unfold needsRotateXOf. by rewrite Hh.
Qed.

Lemma getOrCreate_cases s k l s1 :
  getOrCreate s k = (l, s1) →
  graph s !! k = Some l ∧ s1 = s ∨
  graph s !! k = None ∧ l = length (heap s) ∧ graph s1 = <[k := l]> (graph s).
Proof.
  unfold getOrCreate. destruct (graph s !! k) eqn:E; intros [= <- <-]; eauto.
Qed.



(** ** Snapshots *)

Lemma data_lookup_is_Some data k : k ∈ data.*1 → is_Some (data_lookup data k).
Proof.
  induction data as [|[k0 r0] data IH]; simpl; [by intros ?%elem_of_nil|].
  intros [->|Hk]%elem_of_cons; case_decide; try done; auto.
Qed.

(** The first loop registers the keys of [nodesToUpdate] and no other. *)
Lemma addPlaceholders_graph_skipped keys s s1 ks k :
  addPlaceholders s keys = (s1, ks) → k ∉ ks → graph s1 !! k = graph s !! k.
Proof.
  revert s s1 ks. induction keys as [|k0 keys IH]; intros s s1 ks; simpl.
  - by intros [= <- <-].
  - destruct (resolve s k0) eqn:E0; try by apply IH.
    destruct (addPlaceholders _ keys) as [s2 ks2] eqn:E2.
    intros [= <- <-] [Hne Hk]%not_elem_of_cons. rewrite (IH _ _ _ E2 Hk). simpl.
    by rewrite lookup_insert_ne.
Qed.

Lemma addPlaceholders_graph_other keys s s1 ks k :
  addPlaceholders s keys = (s1, ks) → k ∉ keys → graph s1 !! k = graph s !! k.
Proof.
  intros E Hk. apply (addPlaceholders_graph_skipped _ _ _ _ _ E).
  destruct (addPlaceholders_new _ _ _ _ E) as (_ & Hks & _).
  rewrite Hks. tauto.
Qed.

Lemma addPlaceholders_intrinsics keys s s1 ks :
  addPlaceholders s keys = (s1, ks) → intrinsics s1 = intrinsics s.
Proof.
  revert s s1 ks. induction keys as [|k0 keys IH]; intros s s1 ks; simpl.
  - by intros [= <- <-].
  - destruct (resolve s k0) eqn:E0; try by apply IH.
    destruct (addPlaceholders _ keys) as [s2 ks2] eqn:E2.
    intros [= <- <-]. by rewrite (IH _ _ _ E2).
Qed.

Lemma hydrateNodes_intrinsics data ks s :
  intrinsics (hydrateNodes data s ks) = intrinsics s.
Proof.
  revert s. induction ks as [|k ks IH]; intros s; [done|].
  unfold hydrateNodes in *. simpl. rewrite IH.
  by destruct (graph s !! k), (data_lookup data k).
Qed.

(** C9. [addDataFromSerializableGraph] keeps every key of the registry
    registered to its node and leaves that node as it is, field by field;
    for every key of the data that resolves to nothing in [this.graph] (it
    is not registered and is not the name of an inherited property) it
    creates a node at a new location, registers it, and hydrates it from the
    record of that key; a key that is not registered and resolves to an
    inherited property is skipped, and keys that the data does not have are
    not registered. No callback is called. *)
Theorem addDataFromSerializableGraph_spec s data :
  wf s →
  let s' := addDataFromSerializableGraph s data in
  (∀ k l, graph s !! k = Some l →
          graph s' !! k = Some l ∧ heap s' !! l = heap s !! l) ∧
  (∀ k, k ∈ data.*1 → resolve s k = VUndefined →
        ∃ l r, data_lookup data k = Some r ∧ graph s' !! k = Some l ∧
               length (heap s) ≤ l ∧
               heap s' !! l = Some (hydrate (graph s') r (newSceneNode k))) ∧
  (∀ k, graph s !! k = None → resolve s k ≠ VUndefined → graph s' !! k = None) ∧
  (∀ k, k ∉ data.*1 → graph s' !! k = graph s !! k) ∧
  calls s' = calls s ∧ updateCallbacks s' = updateCallbacks s ∧
  rootNode s' = rootNode s ∧ intrinsics s' = intrinsics s.
Proof.
  intros Hwf s'. subst s'. unfold addDataFromSerializableGraph.
  destruct (addPlaceholders s _) as [s1 ks] eqn:E.
  pose proof (addPlaceholders_wf _ _ _ _ Hwf E) as Hwf1.
  destruct (addPlaceholders_frame _ _ _ _ E) as (Hr & Hu & Hc & Hlen & Hh & Hg).
  destruct (addPlaceholders_new _ _ _ _ E) as (Hnd & Hks & Hnew).
  destruct (hydrateNodes_frame data ks s1) as (Hg2 & Hr2 & Hu2 & Hc2 & _).
  rewrite Hg2, Hr2, Hu2, Hc2, hydrateNodes_intrinsics.
  rewrite (addPlaceholders_intrinsics _ _ _ _ E).
  split; [|split; [|split; [|split]]].
  - intros k l Hk. split; [by apply Hg|].
    destruct (wf_graph_lookup _ _ _ Hwf Hk) as [Hl _].
    rewrite hydrateNodes_other; [by apply Hh|].
    intros k' Hk' Hl'. destruct (Hnew k' Hk') as (l' & Hl'' & Hge & _).
    assert (l' = l) by congruence. lia.
  - intros k Hk Hnone.
    destruct (data_lookup_is_Some _ _ Hk) as [r Hr'].
    assert (k ∈ ks) as Hin by by apply Hks.
    destruct (Hnew k Hin) as (l & Hl & Hge & Hn).
    exists l, r. repeat split; try done.
    by apply (hydrateNodes_new data ks s1 k).
  - intros k Hk Hinh. rewrite <- Hk.
    apply (addPlaceholders_graph_skipped _ _ _ _ _ E). rewrite Hks. tauto.
  - intros k Hk. by eapply addPlaceholders_graph_other.
  - done.
Qed.

(** ** Distances *)

(** A square root is never -1: it is a NaN, a zero, or has a positive
    sign. *)
Lemma sqrt_not_minus_one (x : float) : (PrimFloat.sqrt x =? -1)%float = false.
Proof.
  rewrite FloatAxioms.eqb_spec, FloatAxioms.sqrt_spec.
  change (Prim2SF (-1)%float) with (S754_finite true 4503599627370496 (-52)).
  unfold SF64sqrt, SFsqrt.
  destruct (Prim2SF x) as [sg|sg| |sg mx ex]; try done; try (by destruct sg).
  destruct sg; [done|].
  destruct (SFsqrt_core_binary prec emax (Z.pos mx) ex) as [[mz ez] lz].
  unfold binary_round_aux.
  destruct (shr_fexp prec emax mz ez lz) as [mrs' e'].
  destruct (shr_fexp prec emax _ e' loc_Exact) as [mrs'' e''].
  destruct (shr_m mrs'') as [|p|p]; try done.
  by destruct (e'' <=? emax - prec)%Z.
Qed.

Lemma euclidean_not_minus_one a b : (euclidean a b =? -1)%float = false.
Proof.
  destruct a as [[ax ay] az], b as [[bx by_] bz]. apply sqrt_not_minus_one.
Qed.

(** A visit writes stale nodes only: a node that is current stays as it
    is. *)
Lemma updateWorldMatrix_current fuel h l x n :
  h !! x = Some n → stale n = false → updateWorldMatrix fuel h l !! x = Some n.
Proof.
  revert h l. induction fuel as [|f IH]; intros h l Hx Hn; [done|]. simpl.
  destruct (h !! l) as [nl|] eqn:El; [|done].
  destruct (stale nl) eqn:Es; [|done].
  set (n' := set_stale false _).
  assert (<[l:=n']> h !! x = Some n) as Hx1.
  { rewrite list_lookup_insert_ne; [done|]. intros ->. congruence. }
  revert Hx1. generalize (<[l:=n']> h). generalize (children nl).
  intros cs. induction cs as [|c cs IHcs]; intros h1 Hx1; [done|]. simpl.
  apply IHcs. by apply IH.
Qed.

(** After the recomputation the root is current; if it was stale, its world
    matrix is its local matrix composed with the identity (the root has no
    parent) or with the world matrix of its parent. *)
Lemma recomputeGraph_root s n :
  heap s !! rootNode s = Some n →
  ∃ n', heap (recomputeGraph s) !! rootNode s = Some n' ∧ stale n' = false ∧
        (stale n = true →
         worldMatrix n' =
         multiplyMatrix (from_option (worldMatrixOf (heap s)) identity (parent n))
           (localMatrix n)).
Proof.
  intros Hn. unfold recomputeGraph. simpl. rewrite Hn.
  destruct (stale n) eqn:Es; [|by exists n].
  set (n' := set_stale false _). exists n'.
  split; [|by split].
  assert (<[rootNode s:=n']> (heap s) !! rootNode s = Some n') as Hx.
  { apply list_lookup_insert_eq. by eapply lookup_lt_Some. }
  revert Hx. generalize (<[rootNode s:=n']> (heap s)). generalize (children n).
  intros cs. induction cs as [|c cs IHcs]; intros h1 Hx; [done|]. simpl.
  apply IHcs. by apply updateWorldMatrix_current.
Qed.

(** C4. [getDistanceBetween] recomputes the graph, after which the root is
    current. It returns -1 when either key resolves to nothing in
    [this.graph] (it is not registered and is not the name of an inherited
    property). When both keys are registered, it returns the Euclidean
    distance between the translation components of the world matrices the
    two nodes have after the recomputation, and that number is not equal
    to -1 (as [===] compares numbers). *)
Theorem getDistanceBetween_spec s keyA keyB :
  let s1 := recomputeGraph s in
  (getDistanceBetween s keyA keyB).1 = s1 ∧
  (∀ n, heap s !! rootNode s = Some n →
        ∃ n', heap s1 !! rootNode s = Some n' ∧ stale n' = false) ∧
  (resolve s keyA = VUndefined ∨ resolve s keyB = VUndefined →
   (getDistanceBetween s keyA keyB).2 = Some (-1)%float) ∧
  (∀ nodeA nodeB,
     graph s !! keyA = Some nodeA → graph s !! keyB = Some nodeB →
     ∃ d, (getDistanceBetween s keyA keyB).2 = Some d ∧
          d = euclidean (getTranslation (worldMatrixOf (heap s1) nodeA))
                        (getTranslation (worldMatrixOf (heap s1) nodeB)) ∧
          (d =? -1)%float = false).
Proof.
  intros s1. split; [apply getDistanceBetween_state|]. split.
  { intros n Hn. destruct (recomputeGraph_root s n Hn) as (n' & ? & ? & _).
    by exists n'. }
  unfold getDistanceBetween. fold s1.
  change (resolve s1 keyA) with (resolve s keyA).
  change (resolve s1 keyB) with (resolve s keyB). simpl. split.
  - intros [-> | ->]; simpl; [done|]. by rewrite andb_false_r.
  - intros nodeA nodeB HA HB.
    rewrite (resolve_own _ _ _ HA), (resolve_own _ _ _ HB). simpl.
    eexists. split; [done|]. split; [done|]. apply euclidean_not_minus_one.
Qed.

(** ** The recomputation terminates within its fuel *)

Lemma staleCount_insert h l n n' :
  h !! l = Some n →
  staleCount (<[l:=n']> h) + (if stale n then 1 else 0) =
  staleCount h + (if stale n' then 1 else 0).
Proof.
  revert l. induction h as [|n0 h IH]; intros l; [done|].
  destruct l as [|l]; simpl.
  - intros [= ->]. unfold staleCount. simpl. lia.
  - intros Hl. specialize (IH l Hl). unfold staleCount in *. simpl. lia.
Qed.

Lemma staleCount_length h : staleCount h ≤ length h.
Proof.
  induction h as [|n h IH]; [done|]. unfold staleCount in *. simpl.
  destruct (stale n); lia.
Qed.

Lemma staleCount_foldl (F : list SceneNode → loc → list SceneNode) cs h :
  (∀ h c, staleCount (F h c) ≤ staleCount h) →
  staleCount (foldl F h cs) ≤ staleCount h.
Proof.
  intros HF. revert h. induction cs as [|c cs IH]; intros h; [done|]. simpl.
  etrans; [apply IH|apply HF].
Qed.

(** A visit never adds a stale node. *)
Lemma staleCount_updateWorldMatrix fuel h l :
  staleCount (updateWorldMatrix fuel h l) ≤ staleCount h.
Proof.
  revert h l. induction fuel as [|f IH]; intros h l; [done|]. simpl.
  destruct (h !! l) as [n|] eqn:E; [|done]. destruct (stale n) eqn:Es; [|done].
  etrans; [by apply staleCount_foldl|].
  pose proof (staleCount_insert h l n
    (set_stale false (set_worldMatrix
       (multiplyMatrix (from_option (worldMatrixOf h) identity (parent n))
          (localMatrix n)) n)) E) as Hc.
  rewrite Es in Hc. simpl in Hc. lia.
Qed.

(** With more fuel than there are stale nodes the recursion never runs out:
    more fuel gives the same store. *)
Lemma updateWorldMatrix_fuel fuel fuel' h l :
  staleCount h < fuel → fuel ≤ fuel' →
  updateWorldMatrix fuel' h l = updateWorldMatrix fuel h l.
Proof.
  revert fuel' h l. induction fuel as [|f IH]; intros fuel' h l Hc Hf; [lia|].
  destruct fuel' as [|f']; [lia|]. simpl.
  destruct (h !! l) as [n|] eqn:E; [|done]. destruct (stale n) eqn:Es; [|done].
  set (n' := set_stale false _).
  pose proof (staleCount_insert h l n n' E) as Hc1.
  rewrite Es in Hc1. simpl in Hc1.
  assert (staleCount (<[l:=n']> h) < f) as Hlt by lia.
  revert Hlt. generalize (<[l:=n']> h). generalize (children n).
  intros cs. induction cs as [|c cs IHcs]; intros h1 Hlt; [done|]. simpl.
  rewrite (IH f' h1 c) by lia. apply IHcs.
  pose proof (staleCount_updateWorldMatrix f h1 c). lia.
Qed.

(** The fuel of [recomputeGraph] is enough. *)
Lemma recomputeGraph_fuel s fuel :
  S (length (heap s)) ≤ fuel →
  updateWorldMatrix fuel (heap s) (rootNode s) = heap (recomputeGraph s).
Proof.
  intros Hf. change (heap (recomputeGraph s)) with
    (updateWorldMatrix (S (length (heap s))) (heap s) (rootNode s)).
  apply updateWorldMatrix_fuel; [|done].
  pose proof (staleCount_length (heap s)). lia.
Qed.

(** ** The children arrays own a forest

    The methods other than the import keep every node in the children of
    its parent only, and once there. (The import copies the children and
    the parent of a record as they are, consistent or not.) *)

Lemma remove_first_twice_other c l cs :
  c ≠ l → c ∉ remove_first c cs → c ∉ remove_first c (remove_first l cs).
Proof.
  intros Hne. induction cs as [|x cs IH]; [done|]. simpl.
  destruct (decide (x = l)) as [->|Hxl].
  - rewrite decide_False by done. intros Hc%not_elem_of_cons. apply Hc.
  - simpl. destruct (decide (x = c)) as [->|Hxc].
    + intros Hc Hin. apply Hc. by eapply remove_first_subseteq.
    + intros [? ?]%not_elem_of_cons. apply not_elem_of_cons. auto.
Qed.

Lemma remove_first_snoc_other c l cs :
  c ≠ l → c ∉ remove_first c cs → c ∉ remove_first c (cs ++ [l]).
Proof.
  intros Hne. induction cs as [|x cs IH]; simpl.
  - intros _. rewrite decide_False by done.
    apply not_elem_of_cons. split; [done|]. by intros ?%elem_of_nil.
  - destruct (decide (x = c)) as [->|Hxc].
    + intros Hc [?|?%list_elem_of_singleton]%elem_of_app; done.
    + intros [? ?]%not_elem_of_cons. apply not_elem_of_cons. auto.
Qed.

Lemma tree_shaped_spec h :
  tree_shaped h ↔
  ∀ c q, c ∈ childrenOf h q →
         parentOf h c = Some q ∧ c ∉ remove_first c (childrenOf h q).
Proof.
  unfold tree_shaped. split.
  - intros Ht c q. by apply owned_by_parent_spec.
  - intros Ht c. apply owned_by_parent_spec. apply Ht.
Qed.

Lemma tree_shaped_same_links h h' :
  (∀ x, parentOf h' x = parentOf h x) → (∀ x, childrenOf h' x = childrenOf h x) →
  tree_shaped h → tree_shaped h'.
Proof.
  rewrite !tree_shaped_spec. intros Hp Hc Ht c q. rewrite Hp, Hc. apply Ht.
Qed.

Lemma tree_shaped_same_skeleton h h' :
  same_skeleton h' h → tree_shaped h → tree_shaped h'.
Proof.
  intros E. apply tree_shaped_same_links.
  - intros x. by apply same_skeleton_parentOf.
  - intros x. by apply same_skeleton_childrenOf.
Qed.

Lemma tree_shaped_detach h l : tree_shaped h → tree_shaped (detach h l).
Proof.
  intros Ht. pose proof (Ht l) as Hl. revert Ht. rewrite !tree_shaped_spec.
  intros Ht c q Hc. rewrite parentOf_detach.
  pose proof (childrenOf_detach_subseteq _ _ _ _ Hc) as Hc'.
  destruct (Ht c q Hc') as [Hp Hn]. split; [done|].
  destruct (decide (c = l)) as [->|Hne].
  { by apply owned_by_parent_detach in Hc. }
  rewrite childrenOf_detach. case_decide; [|done].
  by apply remove_first_twice_other.
Qed.

Lemma tree_shaped_setParent h l p :
  l < length h → p < length h → tree_shaped h → tree_shaped (setParent h l p).
Proof.
  intros Hl Hp Ht. pose proof (Ht l) as Hown.
  pose proof (tree_shaped_detach h l Ht) as Htd.
  revert Htd. rewrite !tree_shaped_spec. intros Htd c q.
  rewrite parentOf_setParent, childrenOf_setParent by done.
  destruct (decide (c = l)) as [->|Hne].
  - case_decide as Hq.
    + subst q. intros _. split; [done|].
      rewrite remove_first_snoc_notin; by apply owned_by_parent_detach.
    + intros Hc. by apply owned_by_parent_detach in Hc.
  - rewrite <- (parentOf_detach h l c). case_decide as Hq.
    + subst q. intros [Hc|?%list_elem_of_singleton]%elem_of_app; [|done].
      destruct (Htd c p Hc) as [? ?]. split; [done|].
      by apply remove_first_snoc_other.
    + apply Htd.
Qed.

Lemma tree_shaped_getOrCreate s k l s1 :
  getOrCreate s k = (l, s1) → tree_shaped (heap s) → tree_shaped (heap s1).
Proof.
  intros E. destruct (getOrCreate_links _ _ _ _ E) as (Hp & Hc & _).
  by apply tree_shaped_same_links.
Qed.

Lemma tree_shaped_constructor : tree_shaped (heap constructor).
Proof.
  apply tree_shaped_spec. intros c q. unfold childrenOf. simpl.
  destruct q as [|q]; simpl; by intros ?%elem_of_nil.
Qed.

Lemma tree_shaped_addRotateX s l b :
  wf s → l < length (heap s) → tree_shaped (heap s) →
  tree_shaped (heap (addRotateX s l b)).
Proof.
  intros Hwf Hl Ht. unfold addRotateX.
  set (s1 := set_heap _ s).
  assert (wf s1) as Hwf1 by (apply wf_set_heap; [done|apply store_step_set_needsRotateX]).
  assert (tree_shaped (heap s1)) as Ht1.
  { destruct (same_shape_set_needsRotateX true l (heap s)) as (_ & _ & P1 & _).
    apply (tree_shaped_same_links (heap s)); [done| |done].
    intros x. by apply childrenOf_alter_keep. }
  destruct (getOrCreate s1 _) as [r s2] eqn:E. simpl.
  destruct (getOrCreate_wf _ _ _ _ Hwf1 E) as (Hwf2 & _ & Hr).
  destruct (getOrCreate_frame _ _ _ _ E) as (_ & _ & _ & Hlen & _).
  assert (l < length (heap s2)) as Hl2.
  { subst s1. simpl in Hlen. rewrite length_alter in Hlen. lia. }
  apply (tree_shaped_same_skeleton (setParent (heap s2) r l));
    [apply same_skeleton_setLocalMatrix|].
  apply tree_shaped_setParent; [done..|]. by eapply tree_shaped_getOrCreate.
Qed.

Lemma tree_shaped_addObject s o m b :
  wf s → tree_shaped (heap s) → tree_shaped (heap (addObject s o m b)).
Proof.
  intros Hwf Ht. rewrite addObject_unfold.
  destruct (placeObject s _ m) as [l s3] eqn:E.
  destruct (placeObject_post _ _ _ _ _ Hwf E) as (Hwf3 & _ & Hl3 & _).
  assert (tree_shaped (heap s3)) as Ht3.
  { revert E. unfold placeObject. destruct (getOrCreate s _) as [l1 s1] eqn:E1.
    destruct (getOrCreate_wf _ _ _ _ Hwf E1) as (Hwf1 & _ & Hl1).
    intros [= -> <-].
    assert (tree_shaped (setParent (heap s1) l (rootNode s1))) as Ht2.
    { apply tree_shaped_setParent; [done|apply Hwf1|].
      by eapply tree_shaped_getOrCreate. }
    destruct m; [|done]. simpl.
    by apply (tree_shaped_same_skeleton _ _ (same_skeleton_setLocalMatrix _ _ _)). }
  simpl. destruct b; [|done]. by apply tree_shaped_addRotateX.
Qed.

Lemma tree_shaped_link_matrix s l (v : option vehicle) (m : option matrix) :
  tree_shaped (heap s) →
  tree_shaped (heap
    match m with
    | Some m =>
      set_heap (setLocalMatrix
        (heap match v with
              | Some v => set_heap (alter (set_linkedVehicle (Some v)) l (heap s)) s
              | None => s
              end) l m)
        match v with
        | Some v => set_heap (alter (set_linkedVehicle (Some v)) l (heap s)) s
        | None => s
        end
    | None =>
      match v with
      | Some v => set_heap (alter (set_linkedVehicle (Some v)) l (heap s)) s
      | None => s
      end
    end).
Proof.
  destruct (link_matrix_skeleton s l v m) as [E _]. by apply tree_shaped_same_skeleton.
Qed.

Lemma tree_shaped_addFrame s o f v m s' :
  wf s → tree_shaped (heap s) → addFrame s o f v m = Some s' →
  tree_shaped (heap s').
Proof.
  intros Hwf Ht. unfold addFrame.
  destruct (getOrCreate s _) as [l s1] eqn:E.
  destruct (getOrCreate_wf _ _ _ _ Hwf E) as (Hwf1 & _ & Hl).
  pose proof (tree_shaped_getOrCreate _ _ _ _ E Ht) as Ht1.
  destruct (graph s1 !! getUuid o None None) as [lo|] eqn:Eo; simpl.
  - destruct (wf_graph_lookup _ _ _ Hwf1 Eo) as [Hlo _].
    destruct (needsRotateXOf (heap s1) lo).
    + destruct (graph s1 !! (_ +:+ _)) as [r|] eqn:Er; [|done]. simpl.
      destruct (wf_graph_lookup _ _ _ Hwf1 Er) as [Hr _].
      intros [= <-]. apply tree_shaped_link_matrix. simpl.
      by apply tree_shaped_setParent.
    + simpl. intros [= <-]. apply tree_shaped_link_matrix. simpl.
      by apply tree_shaped_setParent.
  - intros [= <-]. by apply tree_shaped_link_matrix.
Qed.

Lemma tree_shaped_addNode s o f n v m :
  wf s → tree_shaped (heap s) → tree_shaped (heap (addNode s o f n v m)).
Proof.
  intros Hwf Ht. unfold addNode.
  destruct (getOrCreate s _) as [l s1] eqn:E.
  destruct (getOrCreate_wf _ _ _ _ Hwf E) as (Hwf1 & _ & Hl).
  pose proof (tree_shaped_getOrCreate _ _ _ _ E Ht) as Ht1.
  apply tree_shaped_link_matrix.
  destruct (graph s1 !! _) as [lf|] eqn:Ef; [|done].
  destruct (wf_graph_lookup _ _ _ Hwf1 Ef) as [Hlf _]. simpl.
  by apply tree_shaped_setParent.
Qed.

Lemma tree_shaped_step s o s' :
  wf s → tree_shaped (heap s) → ¬ imports o → step s o = Some s' →
  tree_shaped (heap s').
Proof.
  intros Hwf Ht. destruct o; simpl; intros Himp Hstep; try (injection Hstep as <-).
  - by apply tree_shaped_addObject.
  - by eapply tree_shaped_addFrame.
  - by apply tree_shaped_addNode.
  - destruct (removeElementAndChildren_cases s i)
      as [(l & E & ->)|[_ [-> | ->]]]; [|done|done].
    simpl. by apply tree_shaped_detach.
  - by apply (tree_shaped_same_skeleton _ _ (same_skeleton_updateWorldMatrix _ _ _)).
  - assert (s' = recomputeGraph s) as ->
      by exact (step_GetDistanceBetween _ _ _ _ Hstep).
    by apply (tree_shaped_same_skeleton _ _ (same_skeleton_updateWorldMatrix _ _ _)).
  - unfold updateWithPositionData. destruct (graph s !! _) as [l|]; [|done]. simpl.
    apply (tree_shaped_same_skeleton _ _ (same_skeleton_setLocalMatrix _ _ _)).
    by apply (tree_shaped_same_skeleton _ _ (same_skeleton_updateVehicleXYScale _ _ _ _ _)).
  - unfold updateObjectWorldId. case_decide; [done|].
    destruct (graph s !! getUuid objectId None None) as [lo|] eqn:Eo; [|done].
    destruct (graph s !! getUuid worldId None None) as [lw|] eqn:Ew; [|done].
    destruct (wf_graph_lookup _ _ _ Hwf Eo) as [? _].
    destruct (wf_graph_lookup _ _ _ Hwf Ew) as [? _].
    simpl. by apply tree_shaped_setParent.
  - done.
  - destruct (deactivateElement_cases s i) as [(l & _ & ->)|[_ [-> | [w ->]]]];
      [|done|done].
    destruct (negb _); [|done]. simpl.
    by apply (tree_shaped_same_skeleton _ _
                (same_skeleton_alter (set_deactivated true) _ _ (λ _, eq_refl))).
  - destruct (activateElement_cases s i s' Hstep)
      as [(l & _ & ->)|[_ [-> | [w ->]]]]; [|done|done].
    destruct (deactivatedOf _ _); [|done]. simpl.
    by apply (tree_shaped_same_skeleton _ _
                (same_skeleton_alter (set_deactivated false) _ _ (λ _, eq_refl))).
  - done.
  - by apply (tree_shaped_same_skeleton _ _ (same_skeleton_updateWorldMatrix _ _ _)).
Qed.

(** Every state reached from a new graph is well formed, and without an
    import its children arrays own a forest. *)
Lemma wf_reachable ops s : run constructor ops = Some s → wf s.
Proof. apply wf_run, wf_constructor. Qed.

Lemma tree_shaped_run ops s0 s :
  wf s0 → tree_shaped (heap s0) → Forall (λ o, ¬ imports o) ops →
  run s0 ops = Some s → tree_shaped (heap s).
Proof.
  revert s0. induction ops as [|o ops IH]; intros s0 Hwf Ht Hops; simpl.
  - by intros [= <-].
  - apply Forall_cons in Hops as [Ho Hops].
    destruct (step s0 o) as [s1|] eqn:E; [|done]. simpl.
    apply IH; [by eapply wf_step|by eapply tree_shaped_step|done].
Qed.

Lemma tree_shaped_reachable ops s :
  Forall (λ o, ¬ imports o) ops → run constructor ops = Some s →
  tree_shaped (heap s).
Proof. apply tree_shaped_run; [apply wf_constructor|apply tree_shaped_constructor]. Qed.

(** In a state reached without an import, the node that
    [removeElementAndChildren] takes out is not reachable from the root
    afterwards. *)
Lemma removed_node_unreachable ops s i l :
  Forall (λ o, ¬ imports o) ops → run constructor ops = Some s →
  graph s !! i = Some l →
  ¬ descendant (heap (removeElementAndChildren s i))
      (rootNode (removeElementAndChildren s i)) l.
Proof.
  intros Hops Hrun Hi. pose proof (tree_shaped_reachable _ _ Hops Hrun l) as Ho.
  rewrite (removeElementAndChildren_unfold _ _ l) by done. simpl.
  intros [c Hc]%descendant_edge. by apply owned_by_parent_detach in Hc.
Qed.

(** * Further properties of the class *)

(** ** What every sequence of calls keeps *)

(** X1. In every state reached from a new graph by completed calls, the
    root node exists, every registered key is registered to an existing node
    whose [id] is that key, so no node is registered under two keys, and
    every parent and every child of a node is an existing node. *)
Theorem reachable_states_well_formed ops s :
  run constructor ops = Some s →
  (∃ n, heap s !! rootNode s = Some n) ∧
  (∀ k l, graph s !! k = Some l → ∃ n, heap s !! l = Some n ∧ id n = k) ∧
  (∀ k1 k2 l, graph s !! k1 = Some l → graph s !! k2 = Some l → k1 = k2) ∧
  (∀ x p, parentOf (heap s) x = Some p → is_Some (heap s !! p)) ∧
  (∀ x c, c ∈ childrenOf (heap s) x → is_Some (heap s !! c)).
Proof.
  intros Hrun. pose proof (wf_run _ _ _ wf_constructor Hrun) as Hwf.
  destruct Hwf as (Hroot & Hg & Hv). apply links_valid_spec in Hv as [Hp Hc].
  split; [by apply lookup_lt_is_Some_2|]. split; [|split; [|split]].
  - intros k l Hk. destruct (Hg k l Hk) as [Hl Hid].
    destruct (lookup_lt_is_Some_2 _ _ Hl) as [n Hn]. exists n. split; [done|].
    unfold idOf in Hid. by rewrite Hn in Hid.
  - intros k1 k2 l H1 H2. destruct (Hg k1 l H1) as [_ <-].
    by destruct (Hg k2 l H2) as [_ <-].
  - intros x p Hx. apply lookup_lt_is_Some_2. eauto.
  - intros x c Hx. apply lookup_lt_is_Some_2. eauto.
Qed.

(** X2. From any state, a key stays registered to the same node through
    every sequence of completed calls in which [removeElementAndChildren] is
    not called with that key: no other method deletes a key or registers
    another node under a key that is taken.  The graph keeps its
    [rootNode]. *)
Theorem key_registered_until_removed ops s s' k l :
  Forall (λ o, ¬ removes k o) ops →
  run s ops = Some s' →
  graph s !! k = Some l →
  graph s' !! k = Some l ∧ rootNode s' = rootNode s.
Proof. apply run_graph_kept. Qed.

Lemma step_updateCallbacks s o s' :
  step s o = Some s' → updateCallbacks s' = updateCallbacks s ++ registered [o].
Proof.
  destruct o; intros Hstep;
    try (apply step_GetDistanceBetween in Hstep as ->);
    simpl in *; try (injection Hstep as <-);
    rewrite ?app_nil_r.
  - rewrite addObject_unfold.
    destruct (placeObject_calls s (getUuid objectId None None) initialLocalMatrix)
      as [_ Hu].
    destruct (placeObject s _ _) as [l s3]. simpl in *.
    destruct needsRotateX0; [|done].
    by destruct (addRotateX_frame s3 l false) as (_ & -> & _).
  - revert Hstep. unfold addFrame. destruct (getOrCreate s _) as [l s1] eqn:E.
    destruct (getOrCreate_frame _ _ _ _ E) as (_ & Hu & _).
    destruct (graph s1 !! getUuid objectId None None) as [lo|]; simpl.
    + destruct (needsRotateXOf (heap s1) lo).
      * destruct (graph s1 !! (_ +:+ _)) as [r|]; [|done]. simpl.
        intros [= <-]. by destruct linkedFrame, initialLocalMatrix.
      * simpl. intros [= <-]. by destruct linkedFrame, initialLocalMatrix.
    + intros [= <-]. by destruct linkedFrame, initialLocalMatrix.
  - unfold addNode. destruct (getOrCreate s _) as [l s1] eqn:E.
    destruct (getOrCreate_frame _ _ _ _ E) as (_ & Hu & _).
    by destruct (graph s1 !! _), linkedNode, initialLocalMatrix.
  - by destruct (removeElementAndChildren_cases s i)
      as [(l & _ & ->)|[_ [-> | ->]]].
  - done.
  - done.
  - unfold updateWithPositionData. by destruct (graph s !! _).
  - unfold updateObjectWorldId. case_decide; [done|].
    by destruct (graph s !! getUuid objectId None None),
                (graph s !! getUuid worldId None None).
  - done.
  - destruct (deactivateElement_cases s i) as [(l & _ & ->)|[_ [-> | [w ->]]]];
      [|done|done].
    by destruct (negb _).
  - destruct (activateElement_cases s i s' Hstep)
      as [(l & _ & ->)|[_ [-> | [w ->]]]]; [|done|done].
    by destruct (deactivatedOf _ _).
  - unfold addDataFromSerializableGraph.
    destruct (addPlaceholders s _) as [s1 ks] eqn:E.
    destruct (addPlaceholders_frame _ _ _ _ E) as (_ & <- & _).
    apply hydrateNodes_frame.
  - done.
Qed.

(** X3. After any sequence of completed calls the list of callbacks is the
    list before it followed by the callbacks passed to [onUpdate], in the
    order of the calls: no method takes a callback out of the list or
    reorders it. *)
Theorem callbacks_are_never_unregistered ops s s' :
  run s ops = Some s' →
  updateCallbacks s' = updateCallbacks s ++ registered ops.
Proof.
  revert s. induction ops as [|o ops IH]; intros s; simpl.
  - intros [= <-]. by rewrite app_nil_r.
  - destruct (step s o) as [s1|] eqn:E; [|done]. simpl. intros Hrun.
    rewrite (IH _ Hrun), (step_updateCallbacks _ _ _ E), <- app_assoc.
    f_equal. unfold registered. simpl. by destruct o.
Qed.

(** ** Removing twice *)

Lemma inherited_unknown w k :
  k ∉ prototypeNames → k ≠ "deactivated" → inherited w k = VUndefined.
Proof. intros Hp Hd. unfold inherited. by rewrite !bool_decide_eq_false_2. Qed.

Lemma inherited_prototypeNames w k :
  k ∈ prototypeNames → inherited w k = VIntrinsic k.
Proof. intros Hp. unfold inherited. by rewrite bool_decide_eq_true_2. Qed.

(** X4. [removeElementAndChildren] with an ID that resolves to nothing in
    [this.graph], or to [false], returns the state unchanged and calls no
    callback. With an ID that is not registered and resolves to an inherited
    function, object or [true], it changes nothing either, but it calls
    every callback. So a second call with the same ID changes nothing and
    notifies nobody when the ID is not the name of an inherited property,
    and it changes nothing and notifies everybody when the ID is a property
    name of [Object.prototype]. *)
Theorem removeElementAndChildren_twice s i :
  (resolve s i = VUndefined ∨ resolve s i = VBoolean false →
   removeElementAndChildren s i = s) ∧
  ((∃ name, resolve s i = VIntrinsic name) ∨ resolve s i = VBoolean true →
   removeElementAndChildren s i = triggerUpdateCallbacks s) ∧
  (i ∉ prototypeNames → i ≠ "deactivated" →
   removeElementAndChildren (removeElementAndChildren s i) i
   = removeElementAndChildren s i) ∧
  (i ∈ prototypeNames →
   removeElementAndChildren (removeElementAndChildren s i) i
   = triggerUpdateCallbacks (removeElementAndChildren s i)).
Proof.
  assert (graph (removeElementAndChildren s i) !! i = None ∧
          intrinsics (removeElementAndChildren s i) = intrinsics s) as [Hg Hw].
  { destruct (removeElementAndChildren_cases s i)
      as [(l & E & ->)|[E [-> | ->]]]; [|done|done].
    split; [apply lookup_delete_eq|done]. }
  split; [|split; [|split]].
  - unfold removeElementAndChildren. by intros [-> | ->].
  - unfold removeElementAndChildren. by intros [[name ->] | ->].
  - intros Hp Hd. unfold removeElementAndChildren at 1.
    by rewrite (resolve_not_own _ _ Hg), Hw, inherited_unknown.
  - intros Hp. unfold removeElementAndChildren at 1.
    by rewrite (resolve_not_own _ _ Hg), Hw, inherited_prototypeNames.
Qed.

(** ** Deactivating and activating *)

Lemma deactivatedOf_set_deactivated b l h :
  l < length h → deactivatedOf (alter (set_deactivated b) l h) l = b.
Proof.
  intros Hl. unfold deactivatedOf. rewrite list_lookup_alter_eq.
  by destruct (lookup_lt_is_Some_2 h l Hl) as [n ->].
Qed.

Lemma set_deactivated_undo b l h :
  deactivatedOf h l = b →
  alter (set_deactivated b) l (alter (set_deactivated (negb b)) l h) = h.
Proof.
  intros Hb. apply list_eq. intros x. destruct (decide (x = l)) as [->|Hne].
  - rewrite !list_lookup_alter_eq. unfold deactivatedOf in Hb.
    destruct (h !! l) as [n|]; [|done]. simpl in *. subst b. by destruct n.
  - by rewrite !list_lookup_alter_ne.
Qed.

(** X5. [deactivateElement] on a registered node that is not deactivated
    sets its flag, calls every callback once, and changes no other node, no
    link and no key; on a node that is deactivated already it returns the
    state unchanged. So two calls in a row make one notification. *)
Theorem deactivateElement_once s i l :
  wf s → graph s !! i = Some l →
  let s' := deactivateElement s i in
  deactivatedOf (heap s') l = true ∧
  (deactivatedOf (heap s) l = false →
     calls s' = calls s ++ updateCallbacks s ∧
     graph s' = graph s ∧ same_skeleton (heap s') (heap s) ∧
     (∀ x, x ≠ l → heap s' !! x = heap s !! x)) ∧
  (deactivatedOf (heap s) l = true → s' = s) ∧
  deactivateElement s' i = s'.
Proof.
  intros Hwf Hi s'. destruct (wf_graph_lookup _ _ _ Hwf Hi) as [Hl _].
  assert (deactivatedOf (heap s) l = true → s' = s) as Hnoop.
  { intros Hd. subst s'. unfold deactivateElement.
    by rewrite (resolve_own _ _ _ Hi), Hd. }
  assert (deactivatedOf (heap s') l = true ∧ graph s' !! i = Some l) as [Hd' Hi'].
  { destruct (deactivatedOf (heap s) l) eqn:Hd.
    - by rewrite Hnoop.
    - subst s'. unfold deactivateElement. rewrite (resolve_own _ _ _ Hi), Hd. simpl.
      split; [by apply deactivatedOf_set_deactivated|done]. }
  split; [done|]. split; [|split; [done|]].
  - intros Hd. subst s'. unfold deactivateElement.
    rewrite (resolve_own _ _ _ Hi), Hd. simpl.
    repeat split; try done.
    + by apply same_skeleton_alter.
    + intros x Hx. by apply list_lookup_alter_ne.
  - unfold deactivateElement at 1. by rewrite (resolve_own _ _ _ Hi'), Hd'.
Qed.

(** X6. On a registered node that is not deactivated, [deactivateElement]
    followed by [activateElement] returns and gives back the store, the
    registry and the intrinsics as they were; every callback has been called
    twice. [activateElement] on a node that is not deactivated returns the
    state unchanged. *)
Theorem activateElement_undoes_deactivateElement s i l :
  wf s → graph s !! i = Some l → deactivatedOf (heap s) l = false →
  ∃ s', activateElement (deactivateElement s i) i = Some s' ∧
        heap s' = heap s ∧ graph s' = graph s ∧ rootNode s' = rootNode s ∧
        updateCallbacks s' = updateCallbacks s ∧
        intrinsics s' = intrinsics s ∧
        calls s' = calls s ++ updateCallbacks s ++ updateCallbacks s ∧
        activateElement s i = Some s.
Proof.
  intros Hwf Hi Hd. destruct (wf_graph_lookup _ _ _ Hwf Hi) as [Hl _].
  assert (activateElement s i = Some s) as Hact.
  { unfold activateElement. by rewrite (resolve_own _ _ _ Hi), Hd. }
  unfold deactivateElement. rewrite (resolve_own _ _ _ Hi), Hd. simpl.
  unfold activateElement.
  rewrite (resolve_own _ i l) by done. simpl.
  rewrite deactivatedOf_set_deactivated by done. simpl.
  eexists. split; [done|]. simpl.
  rewrite (set_deactivated_undo false) by done.
  by rewrite <- app_assoc.
Qed.

(** ** Nodes of frames *)

Lemma contents_markStale h l : contents <$> markStale h l = contents <$> h.
Proof.
  unfold markStale. induction (subtree (length h) h l) as [|x xs IH]; [done|].
  simpl. rewrite <- IH. apply list_eq. intros y.
  rewrite !list_lookup_fmap, list_lookup_alter. case_decide; [|done]. subst y.
  by destruct (foldr _ h xs !! x).
Qed.

Lemma contents_lookup (h h' : list SceneNode) (x : nat) :
  contents <$> h = contents <$> h' → contents <$> h !! x = contents <$> h' !! x.
Proof. intros E. rewrite <- !list_lookup_fmap. by rewrite E. Qed.

Lemma localMatrixOf_setLocalMatrix h l m :
  l < length h → localMatrixOf (setLocalMatrix h l m) l = Some m.
Proof.
  intros Hl. unfold setLocalMatrix, localMatrixOf.
  pose proof (contents_lookup _ _ l (contents_markStale (alter (set_localMatrix m) l h) l)) as E.
  rewrite list_lookup_alter_eq in E.
  destruct (lookup_lt_is_Some_2 h l Hl) as [n Hn]. rewrite Hn in E. simpl in E.
  destruct (markStale _ l !! l) as [n'|]; [|done]. unfold contents in E.
  simplify_eq/=. congruence.
Qed.

Lemma linkedVehicleOf_setLocalMatrix h l m x :
  linkedVehicleOf (setLocalMatrix h l m) x = linkedVehicleOf h x.
Proof.
  unfold setLocalMatrix, linkedVehicleOf.
  pose proof (contents_lookup _ _ x (contents_markStale (alter (set_localMatrix m) l h) l)) as E.
  rewrite list_lookup_alter in E.
  destruct (markStale _ l !! x) as [n'|], (decide (l = x)) as [->|Hne];
    destruct (h !! x) as [n|]; unfold contents in E; simplify_eq/=; congruence.
Qed.

Lemma trackedPoseOf_setLocalMatrix h l m x :
  trackedPoseOf (setLocalMatrix h l m) x = trackedPoseOf h x.
Proof.
  unfold setLocalMatrix, trackedPoseOf.
  pose proof (contents_lookup _ _ x (contents_markStale (alter (set_localMatrix m) l h) l)) as E.
  rewrite list_lookup_alter in E.
  destruct (markStale _ l !! x) as [n'|], (decide (l = x)) as [->|Hne];
    destruct (h !! x) as [n|]; unfold contents in E; simplify_eq/=; congruence.
Qed.

Lemma addFrame_unfold s o f v m :
  addFrame s o f v m =
  let '(l, s1) := getOrCreate s (getUuid o (Some f) None) in
  s2 ← match graph s1 !! getUuid o None None with
       | Some lo =>
         if needsRotateXOf (heap s1) lo then
           match graph s1 !! (getUuid o None None +:+ "rotateX") with
           | Some r => Some (set_heap (setParent (heap s1) l r) s1)
           | None => None
           end
         else Some (set_heap (setParent (heap s1) l lo) s1)
       | None => Some s1
       end;
  Some (triggerUpdateCallbacks (linkAndPlace s2 l v m)).
Proof. reflexivity. Qed.

Lemma addNode_unfold s o f n v m :
  addNode s o f n v m =
  let '(l, s1) := getOrCreate s (getUuid o (Some f) (Some n)) in
  triggerUpdateCallbacks
    (linkAndPlace
       match graph s1 !! getUuid o (Some f) None with
       | Some lf => set_heap (setParent (heap s1) l lf) s1
       | None => s1
       end l v m).
Proof. reflexivity. Qed.

Lemma linkAndPlace_frame s l v m :
  graph (linkAndPlace s l v m) = graph s ∧
  rootNode (linkAndPlace s l v m) = rootNode s ∧
  updateCallbacks (linkAndPlace s l v m) = updateCallbacks s ∧
  calls (linkAndPlace s l v m) = calls s ∧
  same_skeleton (heap (linkAndPlace s l v m)) (heap s).
Proof.
  destruct (link_matrix_skeleton s l v m) as [E G].
  repeat split; try done; by destruct v, m.
Qed.

Lemma linkAndPlace_wf s l v m : wf s → wf (linkAndPlace s l v m).
Proof. apply wf_link_matrix. Qed.

(** The payload and the local matrix the node has afterwards. *)
Lemma linkAndPlace_contents s l v m :
  l < length (heap s) →
  linkedVehicleOf (heap (linkAndPlace s l v m)) l
    = from_option Some (linkedVehicleOf (heap s) l) v ∧
  (∀ m', m = Some m' → localMatrixOf (heap (linkAndPlace s l v m)) l = Some m').
Proof.
  intros Hl. unfold linkAndPlace.
  set (s3 := match v with Some _ => _ | None => s end).
  assert (length (heap s3) = length (heap s) ∧
          linkedVehicleOf (heap s3) l = from_option Some (linkedVehicleOf (heap s) l) v)
    as [L3 V3].
  { subst s3. destruct v as [v|]; [|done]. simpl. rewrite length_alter.
    split; [done|]. unfold linkedVehicleOf. rewrite list_lookup_alter_eq.
    by destruct (lookup_lt_is_Some_2 _ _ Hl) as [n ->]. }
  destruct m as [m|]; simpl.
  - rewrite linkedVehicleOf_setLocalMatrix. split; [done|].
    intros m' [= <-]. apply localMatrixOf_setLocalMatrix. by rewrite L3.
  - split; [done|]. by intros m'.
Qed.

(** X7. [addNode] fetches the node registered under the three-segment key
    or creates it at a fresh location, and calls every callback once. If the
    two-segment key of the frame is registered, the node gets the frame node
    as parent and joins its children; if not (and the key of the node is not
    that key), its parent is what it was, none for a new node, and no
    children array changes. A payload or a matrix that is passed is what the
    node holds afterwards. *)
Theorem addNode_spec s o f n v m :
  wf s →
  let k := getUuid o (Some f) (Some n) in
  let kf := getUuid o (Some f) None in
  let s' := addNode s o f n v m in
  calls s' = calls s ++ updateCallbacks s ∧
  ∃ l, graph s' !! k = Some l ∧
       (graph s !! k = Some l ∨ graph s !! k = None ∧ l = length (heap s)) ∧
       (∀ lf, graph s !! kf = Some lf →
              parentOf (heap s') l = Some lf ∧ edge (heap s') lf l) ∧
       (graph s !! kf = None → k ≠ kf →
          parentOf (heap s') l = parentOf (heap s) l ∧
          (∀ x, childrenOf (heap s') x = childrenOf (heap s) x)) ∧
       (∀ v', v = Some v' → linkedVehicleOf (heap s') l = Some v') ∧
       (∀ m', m = Some m' → localMatrixOf (heap s') l = Some m').
Proof.
  intros Hwf k kf s'. split; [apply addNode_calls|].
  subst s'. rewrite addNode_unfold. fold k kf.
  destruct (getOrCreate s k) as [l s1] eqn:E.
  destruct (getOrCreate_wf _ _ _ _ Hwf E) as (Hwf1 & Hk1 & Hl1).
  destruct (getOrCreate_frame _ _ _ _ E) as (_ & _ & _ & _ & _ & Hg).
  destruct (getOrCreate_links _ _ _ _ E) as (Hp1 & Hc1 & _).
  set (s2 := match graph s1 !! kf with Some _ => _ | None => s1 end).
  assert (graph s2 = graph s1 ∧ length (heap s2) = length (heap s1)) as [G2 L2].
  { subst s2. destruct (graph s1 !! kf); [|done]. simpl.
    by rewrite length_setParent. }
  assert (∀ lf, graph s !! kf = Some lf →
            parentOf (heap s2) l = Some lf ∧ l ∈ childrenOf (heap s2) lf) as Hyes.
  { intros lf Hlf. pose proof (Hg _ _ Hlf) as Hlf1.
    destruct (wf_graph_lookup _ _ _ Hwf1 Hlf1) as [Hlf' _].
    subst s2. rewrite Hlf1. simpl. split.
    - rewrite parentOf_setParent by done. by rewrite decide_True.
    - by apply childrenOf_setParent_self. }
  assert (graph s !! kf = None → k ≠ kf →
          parentOf (heap s2) l = parentOf (heap s) l ∧
          (∀ x, childrenOf (heap s2) x = childrenOf (heap s) x)) as Hno.
  { intros Hnone Hne.
    assert (graph s1 !! kf = None) as Hnone1.
    { destruct (getOrCreate_cases _ _ _ _ E) as [[_ ->]|(_ & _ & ->)]; [done|].
      by rewrite lookup_insert_ne. }
    subst s2. by rewrite Hnone1. }
  clearbody s2.
  destruct (linkAndPlace_frame s2 l v m) as (G & _ & _ & _ & Esk).
  destruct (linkAndPlace_contents s2 l v m) as [Hv Hm]; [by rewrite L2|].
  exists l. simpl. rewrite G, G2. split; [done|]. split.
  { destruct (getOrCreate_cases _ _ _ _ E) as [[? _]|(? & ? & _)]; eauto. }
  unfold edge. rewrite (same_skeleton_parentOf _ _ _ Esk). split; [|split; [|split]].
  - intros lf Hlf. rewrite (same_skeleton_childrenOf _ _ _ Esk). by apply Hyes.
  - intros Hnone Hne. destruct (Hno Hnone Hne) as [? Hc]. split; [done|].
    intros x. by rewrite (same_skeleton_childrenOf _ _ _ Esk).
  - intros v' ->. by rewrite Hv.
  - done.
Qed.

(** ** Adding a frame or a node twice *)

Lemma linkAndPlace_same_shape s l v m :
  same_shape (heap (linkAndPlace s l v m)) (heap s).
Proof. apply same_shape_same_skeleton. apply linkAndPlace_frame. Qed.

Lemma attach_again s l p v m :
  l < length (heap s) → p < length (heap s) →
  parentOf (heap s) l = Some p → l ∈ childrenOf (heap s) p →
  same_shape (heap (linkAndPlace (set_heap (setParent (heap s) l p) s) l v m))
             (heap s).
Proof.
  intros Hl Hp Hpar Hch.
  eapply same_shape_trans; [apply linkAndPlace_same_shape|]. simpl.
  by apply same_shape_setParent_again.
Qed.

(** What holds after [l.setParent(p)] and the last statements. *)
Lemma attach_post s l p v m :
  l < length (heap s) → p < length (heap s) →
  let s' := linkAndPlace (set_heap (setParent (heap s) l p) s) l v m in
  graph s' = graph s ∧ length (heap s') = length (heap s) ∧
  parentOf (heap s') l = Some p ∧ l ∈ childrenOf (heap s') p ∧
  (∀ x, needsRotateXOf (heap s') x = needsRotateXOf (heap s) x).
Proof.
  intros Hl Hp s'.
  destruct (linkAndPlace_frame (set_heap (setParent (heap s) l p) s) l v m)
    as (G & _ & _ & _ & Esk).
  fold s' in G, Esk. simpl in *. split; [done|]. split; [|split; [|split]].
  - rewrite (same_skeleton_length _ _ Esk). apply length_setParent.
  - rewrite (same_skeleton_parentOf _ _ _ Esk), parentOf_setParent by done.
    by rewrite decide_True.
  - rewrite (same_skeleton_childrenOf _ _ _ Esk). by apply childrenOf_setParent_self.
  - intros x. rewrite (same_skeleton_needsRotateXOf _ _ _ Esk).
    apply needsRotateXOf_setParent.
Qed.

Lemma addNode_post s o f n v m :
  wf s →
  let s1 := addNode s o f n v m in
  wf s1 ∧
  ∃ l, graph s1 !! getUuid o (Some f) (Some n) = Some l ∧
       ∀ lf, graph s1 !! getUuid o (Some f) None = Some lf →
             parentOf (heap s1) l = Some lf ∧ l ∈ childrenOf (heap s1) lf.
Proof.
  intros Hwf s1. split; [by apply wf_addNode|]. subst s1. rewrite addNode_unfold.
  destruct (getOrCreate s _) as [l sa] eqn:E.
  destruct (getOrCreate_wf _ _ _ _ Hwf E) as (Hwfa & Hka & Hla).
  exists l. simpl.
  destruct (graph sa !! getUuid o (Some f) None) as [lf|] eqn:Ef.
  - destruct (wf_graph_lookup _ _ _ Hwfa Ef) as [Hlf _].
    destruct (attach_post sa l lf v m Hla Hlf) as (G & _ & Hp & Hc & _).
    rewrite G. split; [done|]. intros lf' Hlf'. by simplify_eq.
  - destruct (linkAndPlace_frame sa l v m) as (G & _). rewrite G.
    split; [done|]. intros lf Hlf. congruence.
Qed.

(** X8. A second [addNode] with the same arguments registers nothing and
    creates no node: the registry is as after the first call, and every node
    keeps its parent and its children, up to their order. Every callback is
    called once more. *)
Theorem addNode_idempotent s o f n v m :
  wf s →
  let s1 := addNode s o f n v m in
  let s2 := addNode s1 o f n v m in
  graph s2 = graph s1 ∧ length (heap s2) = length (heap s1) ∧
  same_shape (heap s2) (heap s1) ∧
  calls s2 = calls s1 ++ updateCallbacks s1.
Proof.
  intros Hwf s1 s2. destruct (addNode_post s o f n v m Hwf) as (Hwf1 & l & Hk & Hf).
  fold s1 in Hwf1, Hk, Hf.
  assert (graph s2 = graph s1 ∧ same_shape (heap s2) (heap s1)) as [G Hs].
  { subst s2. rewrite addNode_unfold, (getOrCreate_fetch _ _ l) by done. simpl.
    destruct (wf_graph_lookup _ _ _ Hwf1 Hk) as [Hl _].
    destruct (graph s1 !! getUuid o (Some f) None) as [lf|] eqn:Ef.
    - destruct (wf_graph_lookup _ _ _ Hwf1 Ef) as [Hlf _].
      destruct (Hf lf eq_refl) as [Hp Hc].
      destruct (linkAndPlace_frame (set_heap (setParent (heap s1) l lf) s1) l v m)
        as (-> & _).
      split; [done|]. by apply attach_again.
    - destruct (linkAndPlace_frame s1 l v m) as (-> & _).
      split; [done|]. apply linkAndPlace_same_shape. }
  split; [done|]. split; [apply Hs|]. split; [done|]. apply addNode_calls.
Qed.

Lemma addFrame_post s o f v m s1 :
  wf s → addFrame s o f v m = Some s1 →
  wf s1 ∧
  ∃ l, graph s1 !! getUuid o (Some f) None = Some l ∧
       ∀ lo, graph s1 !! getUuid o None None = Some lo →
             ∃ p, (if needsRotateXOf (heap s1) lo
                   then graph s1 !! (getUuid o None None +:+ "rotateX") = Some p
                   else p = lo) ∧
                  parentOf (heap s1) l = Some p ∧ l ∈ childrenOf (heap s1) p.
Proof.
  intros Hwf Hadd. split; [by eapply wf_addFrame|]. revert Hadd.
  rewrite addFrame_unfold.
  destruct (getOrCreate s _) as [l sa] eqn:E.
  destruct (getOrCreate_wf _ _ _ _ Hwf E) as (Hwfa & Hka & Hla).
  destruct (graph sa !! getUuid o None None) as [lo|] eqn:Eo; simpl.
  - destruct (wf_graph_lookup _ _ _ Hwfa Eo) as [Hlo _].
    destruct (needsRotateXOf (heap sa) lo) eqn:Eflag.
    + destruct (graph sa !! (_ +:+ _)) as [r|] eqn:Er; [|done]. simpl.
      destruct (wf_graph_lookup _ _ _ Hwfa Er) as [Hr _].
      intros [= <-]. exists l. simpl.
      destruct (attach_post sa l r v m Hla Hr) as (G & _ & Hp & Hc & Hn).
      rewrite G. split; [done|]. intros lo' Hlo'. simplify_eq.
      exists r. by rewrite Hn, Eflag.
    + simpl. intros [= <-]. exists l. simpl.
      destruct (attach_post sa l lo v m Hla Hlo) as (G & _ & Hp & Hc & Hn).
      rewrite G. split; [done|]. intros lo' Hlo'. simplify_eq.
      exists lo. by rewrite Hn, Eflag.
  - intros [= <-]. exists l. simpl.
    destruct (linkAndPlace_frame sa l v m) as (G & _). rewrite G.
    split; [done|]. intros lo Hlo. congruence.
Qed.

(** X9. When [addFrame] has returned, a second [addFrame] with the same
    arguments returns too, registers nothing and creates no node: the
    registry is as after the first call, and every node keeps its parent
    and its children, up to their order. Every callback is called once
    more. *)
Theorem addFrame_idempotent s o f v m s1 :
  wf s → addFrame s o f v m = Some s1 →
  ∃ s2, addFrame s1 o f v m = Some s2 ∧
        graph s2 = graph s1 ∧ length (heap s2) = length (heap s1) ∧
        same_shape (heap s2) (heap s1) ∧
        calls s2 = calls s1 ++ updateCallbacks s1.
Proof.
  intros Hwf Hadd. destruct (addFrame_post _ _ _ _ _ _ Hwf Hadd) as (Hwf1 & l & Hk & Hf).
  destruct (wf_graph_lookup _ _ _ Hwf1 Hk) as [Hl _].
  assert (∃ s2, addFrame s1 o f v m = Some s2 ∧ graph s2 = graph s1 ∧
                same_shape (heap s2) (heap s1)) as (s2 & Hadd2 & G & Hs).
  { rewrite addFrame_unfold, (getOrCreate_fetch _ _ l) by done.
    destruct (graph s1 !! getUuid o None None) as [lo|] eqn:Eo; simpl.
    - destruct (Hf lo eq_refl) as (p & Hp & Hpar & Hch).
      destruct (needsRotateXOf (heap s1) lo).
      + rewrite Hp. simpl. eexists. split; [done|]. simpl.
        destruct (wf_graph_lookup _ _ _ Hwf1 Hp) as [Hp' _].
        destruct (linkAndPlace_frame (set_heap (setParent (heap s1) l p) s1) l v m)
          as (-> & _).
        split; [done|]. by apply attach_again.
      + subst p. simpl. eexists. split; [done|]. simpl.
        destruct (wf_graph_lookup _ _ _ Hwf1 Eo) as [Hlo _].
        destruct (linkAndPlace_frame (set_heap (setParent (heap s1) l lo) s1) l v m)
          as (-> & _).
        split; [done|]. by apply attach_again.
    - eexists. split; [done|]. simpl.
      destruct (linkAndPlace_frame s1 l v m) as (-> & _).
      split; [done|]. apply linkAndPlace_same_shape. }
  exists s2. split; [done|]. split; [done|]. split; [apply Hs|]. split; [done|].
  by eapply addFrame_calls.
Qed.

(** ** Objects with a rotation node *)

Lemma addRotateX_node s l b :
  wf s → l < length (heap s) →
  let s' := addRotateX s l b in
  needsRotateXOf (heap s') l = true ∧
  ∃ r, graph s' !! (idOf (heap s) l +:+ "rotateX") = Some r ∧
       parentOf (heap s') r = Some l ∧
       localMatrixOf (heap s') r
         = Some (if b then makeGroundPlaneRotationX (- (Math_PI / 2))%float
                 else rotateX).
Proof.
  intros Hwf Hl. unfold addRotateX.
  set (s1 := set_heap _ s).
  assert (wf s1) as Hwf1 by (apply wf_set_heap; [done|apply store_step_set_needsRotateX]).
  assert (needsRotateXOf (heap s1) l = true) as Hflag.
  { subst s1. simpl. unfold needsRotateXOf. rewrite list_lookup_alter_eq.
    by destruct (lookup_lt_is_Some_2 _ _ Hl) as [n ->]. }
  assert (idOf (heap s1) l = idOf (heap s) l) as Hid
    by (subst s1; simpl; by apply idOf_alter_keep).
  assert (length (heap s1) = length (heap s)) as L1
    by (subst s1; simpl; apply length_alter).
  rewrite Hid. clearbody s1.
  destruct (getOrCreate s1 _) as [r s2] eqn:E. simpl.
  destruct (getOrCreate_wf _ _ _ _ Hwf1 E) as (Hwf2 & Hkr & Hr).
  destruct (getOrCreate_frame _ _ _ _ E) as (_ & _ & _ & Hlen & _).
  split.
  - rewrite (same_skeleton_needsRotateXOf _ _ _ (same_skeleton_setLocalMatrix _ _ _)).
    rewrite needsRotateXOf_setParent.
    rewrite (needsRotateXOf_getOrCreate _ _ _ _ _ E) by lia. done.
  - exists r. split; [done|]. split.
    + rewrite (same_skeleton_parentOf _ _ _ (same_skeleton_setLocalMatrix _ _ _)).
      rewrite parentOf_setParent by done. by rewrite decide_True.
    + apply localMatrixOf_setLocalMatrix. by rewrite length_setParent.
Qed.

Lemma addObject_rotationReady s o m :
  wf s →
  ∃ lo r, rotationReady (getUuid o None None) lo r (addObject s o m true) ∧
          parentOf (heap (addObject s o m true)) r = Some lo ∧
          localMatrixOf (heap (addObject s o m true)) r = Some rotateX.
Proof.
  intros Hwf. pose proof (wf_addObject s o m true Hwf) as Hwf1. revert Hwf1.
  rewrite addObject_unfold.
  destruct (placeObject s _ m) as [l s3] eqn:E.
  destruct (placeObject_post _ _ _ _ _ Hwf E) as (Hwf3 & Hk3 & Hl3 & _).
  destruct (wf_graph_lookup _ _ _ Hwf3 Hk3) as [_ Hid].
  destruct (addRotateX_node s3 l false Hwf3 Hl3) as (Hflag & r & Hkr & Hp & Hm).
  rewrite Hid in Hkr. simpl. intros Hwf1. exists l, r.
  split; [|split; [exact Hp|exact Hm]].
  split; [exact Hwf1|]. split; [|split; [exact Hflag|exact Hkr]].
  simpl. by apply addRotateX_graph.
Qed.

Lemma addFrame_rotationReady k lo r s o f v m :
  k = getUuid o None None → rotationReady k lo r s →
  ∃ s' l, addFrame s o f v m = Some s' ∧ rotationReady k lo r s' ∧
          progress 1 [getUuid o (Some f) None] s s' ∧
          graph s' !! getUuid o (Some f) None = Some l ∧
          parentOf (heap s') l = Some r ∧ l ∈ childrenOf (heap s') r.
Proof.
  intros -> (Hwf & Hlo & Hflag & Hr).
  destruct (wf_graph_lookup _ _ _ Hwf Hlo) as [Hlo' _].
  rewrite addFrame_unfold.
  destruct (getOrCreate s _) as [l sa] eqn:E.
  destruct (getOrCreate_wf _ _ _ _ Hwf E) as (Hwfa & Hka & Hla).
  destruct (getOrCreate_frame _ _ _ _ E) as (_ & Hu & Hc & _ & _ & Hg).
  pose proof (Hg _ _ Hlo) as Hloa. pose proof (Hg _ _ Hr) as Hra.
  destruct (wf_graph_lookup _ _ _ Hwfa Hra) as [Hr' _].
  rewrite Hloa, (needsRotateXOf_getOrCreate _ _ _ _ _ E), Hflag, Hra by done.
  simpl. eexists _, l. split; [done|].
  destruct (attach_post sa l r v m Hla Hr') as (G & _ & Hp & Hch & Hn).
  destruct (linkAndPlace_frame (set_heap (setParent (heap sa) l r) sa) l v m)
    as (_ & _ & Hu' & Hc' & _).
  simpl in *. rewrite G. split; [|split; [|by repeat split]].
  - unfold rotationReady. simpl. rewrite G, Hn.
    rewrite (needsRotateXOf_getOrCreate _ _ _ _ _ E) by done.
    split; [|done].
    apply wf_triggerUpdateCallbacks, linkAndPlace_wf, wf_set_heap; [done|].
    by apply store_step_setParent.
  - split; [|split; [|split]]; simpl.
    + rewrite Hc', Hu', Hc, Hu. by rewrite app_nil_r.
    + by rewrite Hu', Hu.
    + rewrite G. apply Hg.
    + rewrite G. intros k' ->%list_elem_of_singleton. by rewrite Hka.
Qed.

(** X10. [addObject] with the rotation flag leaves the object node flagged
    and a rotation node registered under the object key followed by
    [rotateX], with the object node as parent and the fixed matrix of
    [addRotateX] as local matrix. An [addFrame] for that object right after
    always returns, and puts the frame node under the rotation node. *)
Theorem addObject_then_addFrame s o mo f v m :
  wf s →
  let k := getUuid o None None in
  let s1 := addObject s o mo true in
  ∃ lo r, graph s1 !! k = Some lo ∧ needsRotateXOf (heap s1) lo = true ∧
          graph s1 !! (k +:+ "rotateX") = Some r ∧
          parentOf (heap s1) r = Some lo ∧
          localMatrixOf (heap s1) r = Some rotateX ∧
          ∃ s2 l, addFrame s1 o f v m = Some s2 ∧
                  graph s2 !! getUuid o (Some f) None = Some l ∧
                  parentOf (heap s2) l = Some r ∧ edge (heap s2) r l.
Proof.
  intros Hwf k s1.
  destruct (addObject_rotationReady s o mo Hwf) as (lo & r & Hready & Hp & Hm).
  fold s1 k in Hready, Hp, Hm. exists lo, r.
  destruct (addFrame_rotationReady k lo r s1 o f v m eq_refl Hready)
    as (s2 & l & Hadd & _ & _ & Hk & Hpar & Hch).
  destruct Hready as (_ & ? & ? & ?). repeat split; try done.
  by exists s2, l.
Qed.

(** ** An object with its frames and nodes *)

Lemma progress_refl s : progress 0 [] s s.
Proof.
  split; [by rewrite app_nil_r|]. split; [done|]. split; [done|].
  by intros k ?%elem_of_nil.
Qed.

Lemma progress_trans n1 n2 ks1 ks2 s s1 s2 :
  progress n1 ks1 s s1 → progress n2 ks2 s1 s2 →
  progress (n1 + n2) (ks1 ++ ks2) s s2.
Proof.
  intros (C1 & U1 & G1 & K1) (C2 & U2 & G2 & K2). split; [|split; [|split]].
  - rewrite C2, C1, U1, replicate_add, join_app. by rewrite app_assoc.
  - congruence.
  - auto.
  - intros k [Hk|Hk]%elem_of_app; [|auto].
    destruct (K1 k Hk) as [l Hl]. exists l. auto.
Qed.

Lemma addNode_rotationReady k lo r s o f n v m :
  rotationReady k lo r s →
  rotationReady k lo r (addNode s o f n v m) ∧
  progress 1 [getUuid o (Some f) (Some n)] s (addNode s o f n v m).
Proof.
  intros (Hwf & Hlo & Hflag & Hr).
  destruct (wf_graph_lookup _ _ _ Hwf Hlo) as [Hlo' _].
  assert (∀ k' l', graph s !! k' = Some l' →
                   graph (addNode s o f n v m) !! k' = Some l') as Hmono.
  { intros k' l'. apply (step_graph_kept s (AddNode o f n v m) _ k' l' eq_refl).
    by intros []. }
  destruct (addNode_post s o f n v m Hwf) as (Hwf' & l & Hk & _).
  split; [|split; [|split; [|split]]].
  - split; [done|]. split; [by apply Hmono|]. split; [|by apply Hmono].
    rewrite addNode_unfold.
    destruct (getOrCreate s _) as [l1 sa] eqn:E.
    destruct (getOrCreate_wf _ _ _ _ Hwf E) as (Hwfa & _ & Hla).
    simpl. destruct (graph sa !! getUuid o (Some f) None) as [lf|] eqn:Ef.
    + destruct (wf_graph_lookup _ _ _ Hwfa Ef) as [Hlf _].
      destruct (attach_post sa l1 lf v m Hla Hlf) as (_ & _ & _ & _ & Hn).
      rewrite Hn. by rewrite (needsRotateXOf_getOrCreate _ _ _ _ _ E).
    + destruct (linkAndPlace_frame sa l1 v m) as (_ & _ & _ & _ & Esk).
      rewrite (same_skeleton_needsRotateXOf _ _ _ Esk).
      by rewrite (needsRotateXOf_getOrCreate _ _ _ _ _ E).
  - rewrite addNode_calls. simpl. by rewrite app_nil_r.
  - by rewrite (step_updateCallbacks s (AddNode o f n v m) _ eq_refl), app_nil_r.
  - done.
  - intros k' ->%list_elem_of_singleton. by rewrite Hk.
Qed.

(** The methods that add entities do not write to the intrinsics. *)
Lemma getOrCreate_intrinsics s k l s1 :
  getOrCreate s k = (l, s1) → intrinsics s1 = intrinsics s.
Proof. unfold getOrCreate. by destruct (graph s !! k); intros [= <- <-]. Qed.

Lemma addRotateX_intrinsics s l b : intrinsics (addRotateX s l b) = intrinsics s.
Proof.
  unfold addRotateX. destruct (getOrCreate _ _) as [r s2] eqn:E.
  by apply getOrCreate_intrinsics in E.
Qed.

Lemma addObject_intrinsics s o m b : intrinsics (addObject s o m b) = intrinsics s.
Proof.
  unfold addObject. destruct (getOrCreate s _) as [l s1] eqn:E.
  apply getOrCreate_intrinsics in E.
  destruct b; simpl; [rewrite addRotateX_intrinsics|]; by destruct m.
Qed.

Lemma addFrame_intrinsics s o f v m s' :
  addFrame s o f v m = Some s' → intrinsics s' = intrinsics s.
Proof.
  unfold addFrame. destruct (getOrCreate s _) as [l s1] eqn:E.
  rewrite <- (getOrCreate_intrinsics _ _ _ _ E).
  destruct (graph s1 !! getUuid o None None) as [lo|]; simpl.
  - destruct (needsRotateXOf (heap s1) lo).
    + destruct (graph s1 !! (_ +:+ _)) as [r|]; [|done]. simpl.
      intros [= <-]. by destruct v, m.
    + simpl. intros [= <-]. by destruct v, m.
  - intros [= <-]. by destruct v, m.
Qed.

Lemma addNode_intrinsics s o f n v m :
  intrinsics (addNode s o f n v m) = intrinsics s.
Proof.
  unfold addNode. destruct (getOrCreate s _) as [l s1] eqn:E.
  rewrite <- (getOrCreate_intrinsics _ _ _ _ E).
  by destruct (graph s1 !! _), v, m.
Qed.

Lemma inheritedEnumerable_None w own :
  w !! "__proto__" = None → inheritedEnumerable w own = None.
Proof. intros E. unfold inheritedEnumerable. by case_bool_decide. Qed.

Lemma addNodes_own_rotationReady k lo r o f nodes s :
  rotationReady k lo r s →
  let s' := foldl (λ s nd, addNode s o f nd.1 (Some (node_ref nd.2))
                             (node_matrix nd.2)) s nodes in
  rotationReady k lo r s' ∧ intrinsics s' = intrinsics s ∧
  progress (length nodes)
    (map (λ nd, getUuid o (Some f) (Some nd.1)) nodes) s s'.
Proof.
  revert s. induction nodes as [|nd nodes IH]; intros s Hready.
  - split; [done|]. split; [done|apply progress_refl].
  - destruct (addNode_rotationReady k lo r s o f nd.1 (Some (node_ref nd.2))
                (node_matrix nd.2) Hready) as [Hready1 Hp1].
    destruct (IH _ Hready1) as (Hready2 & Hw2 & Hp2). split; [done|]. split.
    + simpl. by rewrite Hw2, addNode_intrinsics.
    + apply (progress_trans 1 (length nodes) [_] _ _ _ _ Hp1 Hp2).
Qed.

(** The inner loop keeps the object ready for frames; when
    [Object.prototype] has no property [deactivated], it makes one call of
    [addNode] for every node of the frame. *)
Lemma addNodes_rotationReady k lo r o f nodes s :
  rotationReady k lo r s →
  rotationReady k lo r (addNodes s o f nodes) ∧
  intrinsics (addNodes s o f nodes) = intrinsics s ∧
  (intrinsics s !! "__proto__" = None →
   progress (length nodes)
     (map (λ nd, getUuid o (Some f) (Some nd.1)) nodes) s (addNodes s o f nodes)).
Proof.
  intros Hready. unfold addNodes.
  destruct (addNodes_own_rotationReady k lo r o f nodes s Hready)
    as (Hready1 & Hw1 & Hp1).
  destruct (inheritedEnumerable _ _) as [b|] eqn:Ei.
  - destruct (addNode_rotationReady k lo r _ o f "deactivated"
                (Some (Primitive b)) None Hready1) as [Hready2 _].
    split; [done|]. split; [by rewrite addNode_intrinsics|].
    intros Hw. by rewrite inheritedEnumerable_None in Ei.
  - done.
Qed.

Lemma addFrameAndNodes_rotationReady k lo r o fr s :
  k = getUuid o None None → rotationReady k lo r s →
  ∃ s', addFrameAndNodes s o fr = Some s' ∧ rotationReady k lo r s' ∧
        intrinsics s' = intrinsics s ∧
        (intrinsics s !! "__proto__" = None →
         progress (S (length (frame_nodes fr.2)))
           (getUuid o (Some fr.1) None ::
            map (λ nd, getUuid o (Some fr.1) (Some nd.1)) (frame_nodes fr.2))
           s s').
Proof.
  intros Hk Hready. unfold addFrameAndNodes.
  destruct (addFrame_rotationReady k lo r s o fr.1 (Some (frame_ref fr.2))
              (frame_ar_matrix fr.2) Hk Hready)
    as (s1 & l & Hadd & Hready1 & Hp1 & _).
  rewrite Hadd. simpl. eexists. split; [done|].
  destruct (addNodes_rotationReady k lo r o fr.1 (frame_nodes fr.2) s1 Hready1)
    as (Hready2 & Hw2 & Hp2).
  pose proof (addFrame_intrinsics _ _ _ _ _ _ Hadd) as Hw1.
  split; [done|]. split; [congruence|]. intros Hw.
  apply (progress_trans 1 (length (frame_nodes fr.2)) [_] _ _ _ _ Hp1).
  apply Hp2. congruence.
Qed.

Lemma addFrames_rotationReady k lo r o frames s :
  k = getUuid o None None → rotationReady k lo r s →
  ∃ s', addFrames s o frames = Some s' ∧
        rotationReady k lo r s' ∧
        (intrinsics s !! "__proto__" = None →
         progress (sum_list_with (λ fr, S (length (frame_nodes fr.2))) frames)
           (flat_map (λ fr, getUuid o (Some fr.1) None ::
                            map (λ nd, getUuid o (Some fr.1) (Some nd.1))
                                (frame_nodes fr.2)) frames)
           s s').
Proof.
  intros Hk. unfold addFrames.
  revert s. induction frames as [|fr frames IH]; intros s Hready; simpl.
  - exists s. split; [done|]. split; [done|intros _; apply progress_refl].
  - destruct (addFrameAndNodes_rotationReady k lo r o fr s Hk Hready)
      as (s1 & -> & Hready1 & Hw1 & Hp1).
    destruct (IH s1 Hready1) as (s2 & -> & Hready2 & Hp2).
    exists s2. split; [done|]. split; [done|]. intros Hw.
    apply (progress_trans _ _ _ _ _ _ _ (Hp1 Hw)). apply Hp2. congruence.
Qed.

(** X11. [addObjectAndChildren] returns on a well-formed graph unless
    [Object.prototype] has an enumerable property [deactivated] that no
    frame of the object shadows: then the loop over the frames visits the
    inherited key and ends in a TypeError. In every other case every
    [addFrame] of the loop finds the rotation node that the [addObject] at
    the start registered. When [Object.prototype] has no such property, the
    key of the object, of each of its frames and of each of their nodes is
    registered afterwards, no key registered before is lost or moved, and
    every callback was called once for the object, once for every frame and
    once for every node. *)
Theorem addObjectAndChildren_spec s o object :
  wf s →
  (addObjectAndChildren s o object = None ↔
   is_Some (intrinsics s !! "__proto__") ∧
   "deactivated" ∉ (object_frames object).*1) ∧
  (intrinsics s !! "__proto__" = None →
   ∃ s', addObjectAndChildren s o object = Some s' ∧ wf s' ∧
         calls s' = calls s ++ mjoin (replicate (entityCount object) (updateCallbacks s)) ∧
         updateCallbacks s' = updateCallbacks s ∧
         (∀ k l, graph s !! k = Some l → graph s' !! k = Some l) ∧
         (∀ k, k ∈ entityKeys o object → is_Some (graph s' !! k))).
Proof.
  intros Hwf. unfold addObjectAndChildren.
  destruct (addObject_rotationReady s o (object_matrix object) Hwf)
    as (lo & r & Hready & _).
  assert (progress 1 [getUuid o None None] s
            (addObject s o (object_matrix object) true)) as Hp0.
  { split; [|split; [|split]].
    - rewrite addObject_calls. simpl. by rewrite app_nil_r.
    - by rewrite (step_updateCallbacks s (AddObject o (object_matrix object) true)
                    _ eq_refl), app_nil_r.
    - intros k l.
      apply (step_graph_kept s (AddObject o (object_matrix object) true)
               _ k l eq_refl). by intros [].
    - intros k ->%list_elem_of_singleton. destruct Hready as (_ & -> & _). done. }
  destruct (addFrames_rotationReady _ lo r o (object_frames object) _ eq_refl Hready)
    as (s' & Hs' & Hready' & Hp).
  rewrite Hs'. rewrite addObject_intrinsics in Hp. split.
  - unfold inheritedEnumerable. case_bool_decide as Hown.
    + split; [done|]. by intros [_ ?].
    + destruct (intrinsics s !! "__proto__") as [b|]; [done|].
      split; [done|]. by intros [[b ?] _].
  - intros Hw. rewrite inheritedEnumerable_None by done.
    exists s'. split; [done|]. split; [apply Hready'|].
    apply (progress_trans _ _ _ _ _ _ _ Hp0 (Hp Hw)).
Qed.

(** ** Exporting and importing *)

Lemma addPlaceholders_registered keys s :
  (∀ k, k ∈ keys → is_Some (graph s !! k)) → addPlaceholders s keys = (s, []).
Proof.
  induction keys as [|k keys IH]; intros Hk; [done|]. simpl.
  destruct (Hk k) as [l Hl]; [apply list_elem_of_here|].
  rewrite (resolve_own _ _ _ Hl).
  apply IH. intros k' Hk'. apply Hk. by apply list_elem_of_further.
Qed.

Lemma omap_fst {A B} (F : string * A → option (string * B)) (xs : list (string * A)) :
  (∀ x, x ∈ xs → ∃ v, F x = Some (x.1, v)) → (omap F xs).*1 = xs.*1.
Proof.
  induction xs as [|x xs IH]; intros HF; [done|]. simpl.
  destruct (HF x) as [v ->]; [apply list_elem_of_here|]. simpl. f_equal.
  apply IH. intros y Hy. apply HF. by apply list_elem_of_further.
Qed.

(** X12. [getSerializableCopy] recomputes the graph, calls no callback and
    leaves the registry alone. It ends in a TypeError exactly when
    [this.graph] inherits a boolean [deactivated], which the loop then
    visits. Otherwise the copy has one entry for every key of the registry
    and no other, whatever nodes exist beside the registered ones; each
    entry is the record of the node registered under its key; and importing
    the copy into the graph it was taken from changes nothing.
    [addDataFromSerializableGraph] with data whose keys are all registered
    returns the state unchanged. *)
Theorem getSerializableCopy_spec s :
  wf s →
  let s1 := (getSerializableCopy s).1 in
  s1 = recomputeGraph s ∧ graph s1 = graph s ∧ calls s1 = calls s ∧
  ((getSerializableCopy s).2 = None ↔
   is_Some (intrinsics s !! "__proto__") ∧ graph s !! "deactivated" = None) ∧
  (∀ copy, (getSerializableCopy s).2 = Some copy →
     NoDup copy.*1 ∧
     (∀ k, k ∈ copy.*1 ↔ is_Some (graph s !! k)) ∧
     (∀ k r, (k, r) ∈ copy →
             ∃ l n, graph s !! k = Some l ∧ heap s1 !! l = Some n ∧
                    r = serializeNode (heap s1) n) ∧
     addDataFromSerializableGraph s1 copy = s1) ∧
  (∀ data, (∀ k, k ∈ data.*1 → is_Some (graph s !! k)) →
           addDataFromSerializableGraph s data = s).
Proof.
  intros Hwf s1. pose proof (wf_recomputeGraph s Hwf) as Hwf1.
  assert (s1 = recomputeGraph s) as -> by done.
  assert (∀ t data, (∀ k, k ∈ data.*1 → is_Some (graph t !! k)) →
                    addDataFromSerializableGraph t data = t) as Hnoop.
  { intros t data Hk. unfold addDataFromSerializableGraph.
    by rewrite addPlaceholders_registered. }
  split; [done|]. split; [done|]. split; [done|].
  split; [|split; [|apply Hnoop]].
  { unfold getSerializableCopy, resolve, inherited. simpl.
    destruct (graph s !! "deactivated") as [l|] eqn:Eg.
    - split; [done|]. by intros [_ ?].
    - destruct (intrinsics s !! "__proto__") as [b|]; simpl.
      + split; [by eauto|done].
      + split; [done|]. by intros [[b ?] _]. }
  intros copy Hcopy.
  assert (copy = omap (λ kl, (λ n, (kl.1, serializeNode (heap (recomputeGraph s)) n))
                               <$> heap (recomputeGraph s) !! kl.2)
                      (map_to_list (graph s))) as Hdef.
  { revert Hcopy. unfold getSerializableCopy. simpl.
    destruct (resolve _ _); by intros [= <-]. }
  clear Hcopy.
  assert (copy.*1 = (map_to_list (graph s)).*1) as Hkeys.
  { rewrite Hdef. apply omap_fst. intros [k l] Hkl%elem_of_map_to_list.
    destruct (wf_graph_lookup _ _ _ Hwf1 Hkl) as [Hl _].
    destruct (lookup_lt_is_Some_2 _ _ Hl) as [n Hn]. simpl in *. rewrite Hn.
    by eexists. }
  assert (∀ k, k ∈ copy.*1 ↔ is_Some (graph s !! k)) as Hiff.
  { intros k. rewrite Hkeys, list_elem_of_fmap. split.
    - intros ([k' l] & -> & Hkl%elem_of_map_to_list). by exists l.
    - intros [l Hl]. exists (k, l). split; [done|]. by apply elem_of_map_to_list. }
  split; [|split; [exact Hiff|split]].
  - rewrite Hkeys. apply NoDup_fst_map_to_list.
  - rewrite Hdef.
    intros k r ([k' l] & Hkl%elem_of_map_to_list & HF)%list_elem_of_omap.
    apply fmap_Some in HF as (n & Hn & [= -> ->]). by exists l, n.
  - apply Hnoop. intros k Hk. by apply Hiff.
Qed.

(** ** Queries *)

Lemma contents_updateWorldMatrix fuel h l :
  contents <$> updateWorldMatrix fuel h l = contents <$> h.
Proof.
  revert h l. induction fuel as [|f IH]; intros h l; [done|]. simpl.
  destruct (h !! l) as [n|] eqn:E; [|done]. destruct (stale n); [|done].
  set (n' := set_stale false _).
  assert (contents <$> <[l:=n']> h = contents <$> h) as E1.
  { rewrite list_insert_alter. apply list_eq. intros x.
    rewrite !list_lookup_fmap, list_lookup_alter.
    case_decide; subst; [|done]. by rewrite E. }
  revert E1. generalize (<[l:=n']> h). generalize (children n).
  intros cs. induction cs as [|c cs IHcs]; intros h1 E1; [done|]. simpl.
  apply IHcs. by rewrite IH.
Qed.

(** X13. The queries [recomputeGraph], [getDistanceBetween] and
    [getWorldPosition] leave the graph as [recomputeGraph] leaves it: the
    registry, the root, the callbacks and their trace are unchanged, and
    every node keeps its identifier, parent, children, flags, local matrix,
    payload and tracked pose; only cached world matrices are refreshed.
    [getWorldPosition] returns no matrix exactly when the key of the path is
    not registered. *)
Theorem queries_only_refresh_world_matrices s keyA keyB o f n :
  let s1 := recomputeGraph s in
  (getDistanceBetween s keyA keyB).1 = s1 ∧
  (getWorldPosition s o f n).1 = s1 ∧
  graph s1 = graph s ∧ rootNode s1 = rootNode s ∧
  updateCallbacks s1 = updateCallbacks s ∧ calls s1 = calls s ∧
  skeleton <$> heap s1 = skeleton <$> heap s ∧
  contents <$> heap s1 = contents <$> heap s ∧
  ((getWorldPosition s o f n).2 = None ↔ graph s !! getUuid o f n = None) ∧
  (∀ l, graph s !! getUuid o f n = Some l →
        (getWorldPosition s o f n).2 = Some (worldMatrixOf (heap s1) l)).
Proof.
  intros s1. split; [apply getDistanceBetween_state|]. split; [done|].
  do 4 (split; [done|]). split; [apply same_skeleton_updateWorldMatrix|].
  split; [apply contents_updateWorldMatrix|].
  unfold getWorldPosition. simpl. split.
  - by destruct (graph s !! getUuid o f n).
  - by intros l ->.
Qed.

(** ** Position updates *)

(** X14. [updateWithPositionData] addressed to a registered node stores the
    matrix as its local matrix and the triple as its tracked pose, calls
    every callback once, and moves no node: the registry and the parent,
    children and identifier of every node are unchanged. *)
Theorem updateWithPositionData_spec s o f n m x y sc l :
  wf s → graph s !! getUuid o f n = Some l →
  let s' := updateWithPositionData s o f n m x y sc in
  localMatrixOf (heap s') l = Some m ∧
  trackedPoseOf (heap s') l = Some (x, y, sc) ∧
  calls s' = calls s ++ updateCallbacks s ∧
  graph s' = graph s ∧ rootNode s' = rootNode s ∧
  skeleton <$> heap s' = skeleton <$> heap s.
Proof.
  intros Hwf Hk s'. destruct (wf_graph_lookup _ _ _ Hwf Hk) as [Hl _].
  subst s'. unfold updateWithPositionData. rewrite Hk. simpl.
  split; [|split; [|split; [done|split; [done|split; [done|]]]]].
  - apply localMatrixOf_setLocalMatrix. unfold updateVehicleXYScale.
    by rewrite length_alter.
  - rewrite trackedPoseOf_setLocalMatrix. unfold trackedPoseOf, updateVehicleXYScale.
    rewrite list_lookup_alter_eq. by destruct (lookup_lt_is_Some_2 _ _ Hl) as [n0 ->].
  - fold (same_skeleton (setLocalMatrix (updateVehicleXYScale (heap s) l x y sc) l m)
            (heap s)).
    unfold same_skeleton. rewrite same_skeleton_setLocalMatrix.
    apply same_skeleton_updateVehicleXYScale.
Qed.

(** ** The forest of the children arrays *)

Lemma NoDup_remove_first cs :
  (∀ c, c ∈ cs → c ∉ remove_first c cs) → NoDup cs.
Proof.
  induction cs as [|x cs IH]; intros Hc; [constructor|]. constructor.
  - specialize (Hc x (list_elem_of_here _ _)). simpl in Hc.
    by rewrite decide_True in Hc.
  - apply IH. intros c Hin Hrem.
    assert (x ≠ c) as Hne.
    { intros ->. specialize (Hc c (list_elem_of_here _ _)). simpl in Hc.
      by rewrite decide_True in Hc. }
    apply (Hc c); [by apply list_elem_of_further|]. simpl.
    rewrite decide_False by done. by apply list_elem_of_further.
Qed.

(** X15. In every state reached from a new graph by completed calls other
    than the import, a node that is in the children of a node has that node
    as parent, so it is in the children of no other node, and no children
    array holds a node twice. (The converse fails: a removed node keeps its
    parent.) *)
Theorem children_arrays_form_a_forest ops s :
  Forall (λ o, ¬ imports o) ops → run constructor ops = Some s →
  (∀ p c, edge (heap s) p c → parentOf (heap s) c = Some p) ∧
  (∀ p q c, edge (heap s) p c → edge (heap s) q c → p = q) ∧
  (∀ p, NoDup (childrenOf (heap s) p)).
Proof.
  intros Hops Hrun.
  pose proof (tree_shaped_run ops constructor s wf_constructor
                tree_shaped_constructor Hops Hrun) as Ht.
  pose proof (proj1 (tree_shaped_spec (heap s)) Ht) as Ht'. clear Ht.
  rename Ht' into Ht.
  assert (∀ p c, edge (heap s) p c → parentOf (heap s) c = Some p) as Hpar.
  { intros p c Hc. by destruct (Ht c p Hc). }
  split; [done|]. split.
  - intros p q c Hp Hq. apply Hpar in Hp, Hq. congruence.
  - intros p. apply NoDup_remove_first. intros c Hc. by destruct (Ht c p Hc).
Qed.

(** ** Removing an object and adding it again *)

Lemma addRotateX_fresh s l b :
  graph s !! (idOf (heap s) l +:+ "rotateX") = None →
  graph (addRotateX s l b) !! (idOf (heap s) l +:+ "rotateX")
    = Some (length (heap s)).
Proof.
  intros Hnone. unfold addRotateX.
  set (s1 := set_heap _ s).
  assert (idOf (heap s1) l = idOf (heap s) l) as ->
    by (subst s1; simpl; by apply idOf_alter_keep).
  rewrite (getOrCreate_create s1) by done. simpl.
  by rewrite lookup_insert_eq, length_alter.
Qed.

(** X16. When a registered object is removed and then added again with
    [addObject], a new node is created and registered under the key; the
    old node stays in the store under the same identifier. The nodes that
    had the old node as parent still have it as parent and are not children
    of the new node (with the rotation flag, all but the node registered as
    the rotation node of the object, which [addRotateX] fetches). *)
Theorem readded_object_is_a_new_node s o m b l :
  wf s → graph s !! getUuid o None None = Some l →
  let k := getUuid o None None in
  let s2 := addObject (removeElementAndChildren s k) o m b in
  let new := length (heap s) in
  graph s2 !! k = Some new ∧ new ≠ l ∧
  idOf (heap s2) new = k ∧ idOf (heap s2) l = k ∧
  parentOf (heap s2) new = Some (rootNode s) ∧
  (∀ c, parentOf (heap s) c = Some l →
        (b = true → graph s !! (k +:+ "rotateX") ≠ Some c) →
        parentOf (heap s2) c = Some l ∧ ¬ edge (heap s2) new c).
Proof.
  intros Hwf Hk k s2 new. destruct (wf_graph_lookup _ _ _ Hwf Hk) as [Hl Hidl].
  pose proof (wf_removeElementAndChildren s k Hwf) as Hwf1.
  subst s2. rewrite (removeElementAndChildren_unfold _ _ l) in * by done.
  set (s1 := triggerUpdateCallbacks _) in *.
  assert (graph s1 !! k = None) as Hk1 by apply lookup_delete_eq.
  assert (length (heap s1) = length (heap s)) as L1 by apply length_detach.
  assert (∀ x, parentOf (heap s1) x = parentOf (heap s) x) as P1
    by (intros x; apply parentOf_detach).
  assert (∀ x, idOf (heap s1) x = idOf (heap s) x) as I1
    by (intros x; apply idOf_detach).
  assert (∀ x c, c ∈ childrenOf (heap s1) x → c ∈ childrenOf (heap s) x) as C1
    by (intros x c; apply childrenOf_detach_subseteq).
  assert (∀ k', k' ≠ k → graph s1 !! k' = graph s !! k') as G1
    by (intros k' Hne; by apply lookup_delete_ne).
  assert (rootNode s1 = rootNode s) as R1 by done.
  clearbody s1.
  rewrite addObject_unfold. fold k.
  destruct (placeObject s1 k m) as [l3 s3] eqn:E.
  destruct (placeObject_post _ _ _ _ _ Hwf1 E)
    as (Hwf3 & Hk3 & Hl3 & _ & _ & _ & Hcase & Hi3 & Hp3 & Hc3 & _ & _).
  destruct Hcase as [[? _]|(_ & -> & Hg3 & L3)]; [congruence|].
  rewrite L1 in *. fold new in Hk3, Hl3, Hi3, Hp3, Hc3, Hg3.
  destruct (wf_graph_lookup _ _ _ Hwf3 Hk3) as [_ Hidn].
  assert (new ≠ l) as Hnl by (unfold new; lia).
  assert (∀ c, parentOf (heap s) c = Some l →
               c < new ∧ parentOf (heap s3) c = Some l ∧ c ∉ childrenOf (heap s3) new)
    as Hold.
  { intros c Hc. pose proof (parentOf_valid _ _ _ Hc) as Hcv.
    assert (c ≠ new) as Hcn by (unfold new; lia).
    split; [done|]. split.
    - rewrite Hp3, decide_False by done. by rewrite P1.
    - rewrite Hc3 by done. intros Hin%C1.
      rewrite childrenOf_invalid in Hin by (unfold new; lia).
      by apply elem_of_nil in Hin. }
  simpl. destruct b; simpl.
  - destruct (addRotateX_post s3 new false Hwf3 Hl3)
      as (r & Hkr & Hr & Hrn & Hlen & Hg & Hi & Hp & Hch & _).
    rewrite Hidn in Hkr. rewrite R1 in Hp3.
    split; [by apply Hg|]. split; [done|].
    split; [by rewrite Hi|]. split.
    { rewrite Hi, Hi3, I1 by (unfold new in *; lia). done. }
    split.
    { rewrite Hp, decide_False by done. rewrite Hp3. by rewrite decide_True. }
    intros c Hc Hrot. destruct (Hold c Hc) as (Hcv & Hpc & Hnc).
    assert (c ≠ r) as Hcr.
    { intros ->. specialize (Hrot eq_refl).
      assert (k +:+ "rotateX" ≠ k) as Hne by apply rotateX_key_ne.
      destruct (graph s !! (k +:+ "rotateX")) as [c'|] eqn:Ec.
      - assert (graph s3 !! (k +:+ "rotateX") = Some c') as Hc'.
        { rewrite Hg3, lookup_insert_ne by done. by rewrite G1. }
        apply Hg in Hc'. congruence.
      - assert (graph s3 !! (idOf (heap s3) new +:+ "rotateX") = None) as Hnone.
        { rewrite Hidn, Hg3, lookup_insert_ne by done. by rewrite G1. }
        pose proof (addRotateX_fresh s3 new false Hnone) as Hfresh.
        rewrite Hidn in Hfresh. rewrite L3 in Hfresh.
        assert (r = S (length (heap s))) by congruence. unfold new in *. lia. }
    split.
    + rewrite Hp, decide_False by done. done.
    + unfold edge. intros Hin. apply Hch in Hin; done.
  - rewrite R1 in Hp3. split; [done|]. split; [done|]. split; [done|]. split.
    { rewrite Hi3, I1 by (unfold new in *; lia). done. }
    split; [rewrite Hp3; by rewrite decide_True|].
    intros c Hc _. destruct (Hold c Hc) as (_ & ? & ?). done.
Qed.

(** ** When callbacks are called *)


(** ** The rotation node *)

(** X18. [addRotateX] on a node of the store flags it, fetches the node
    registered under its identifier followed by [rotateX] or creates and
    registers one, makes it a child of the flagged node, and gives it the
    ground plane rotation as local matrix when the variation is asked for
    and the fixed matrix otherwise. The rotation node is never the flagged
    node itself. No other key changes and no callback is called. *)
Theorem addRotateX_spec s l b :
  wf s → l < length (heap s) →
  let key := idOf (heap s) l +:+ "rotateX" in
  let s' := addRotateX s l b in
  needsRotateXOf (heap s') l = true ∧
  calls s' = calls s ∧ rootNode s' = rootNode s ∧
  (∀ k l', graph s !! k = Some l' → graph s' !! k = Some l') ∧
  ∃ r, graph s' !! key = Some r ∧ r ≠ l ∧
       (graph s !! key = Some r ∨ graph s !! key = None ∧ r = length (heap s)) ∧
       parentOf (heap s') r = Some l ∧ edge (heap s') l r ∧
       localMatrixOf (heap s') r
         = Some (if b then makeGroundPlaneRotationX (- (Math_PI / 2))%float
                 else rotateX).
Proof.
  intros Hwf Hl key s'.
  destruct (addRotateX_node s l b Hwf Hl) as (Hflag & r & Hkr & Hpar & Hm).
  destruct (addRotateX_post s l b Hwf Hl)
    as (r' & Hkr' & _ & Hne & _ & Hg & _ & _ & _ & Hch).
  assert (r' = r) as -> by congruence.
  destruct (addRotateX_frame s l b) as (Hroot & _ & Hcalls).
  split; [done|]. split; [done|]. split; [done|]. split; [done|].
  exists r. split; [done|]. split; [done|]. split; [|done].
  destruct (graph s !! key) as [r0|] eqn:E.
  - left. apply Hg in E. fold key in Hkr. congruence.
  - right. split; [done|]. pose proof (addRotateX_fresh s l b E). congruence.
Qed.

End Properties.

(** ** The methods on examples *)

#[local] Existing Instance toolbox.

Lemma wf_two_objects : wf two_objects.
Proof. apply (bool_decide_unpack _). vm_compute. exact I. Qed.

Lemma addObject_idempotent_witness :
  wf two_objects ∧
  graph (addObject (addObject two_objects "O2" (Some identity) true)
           "O2" (Some identity) true) =
  graph (addObject two_objects "O2" (Some identity) true).
Proof.
  split.
  - apply (bool_decide_unpack _). vm_compute. exact I.
  - apply (addObject_idempotent two_objects "O2" (Some identity) true).
    apply (bool_decide_unpack _). vm_compute. exact I.
Defined.

Lemma removeElementAndChildren_spec_witness :
  graph two_objects !! "O1" = Some 1 ∧
  owned_by_parent (heap two_objects) 1 ∧
  graph (removeElementAndChildren two_objects "O1") !! "O1" = None ∧
  graph (removeElementAndChildren two_objects "O1") !! "O1rotateX" = Some 2 ∧
  ¬ descendant (heap (removeElementAndChildren two_objects "O1"))
      (rootNode (removeElementAndChildren two_objects "O1")) 1.
Proof.
  assert (graph two_objects !! "O1" = Some 1) as Hk by (vm_compute; reflexivity).
  assert (owned_by_parent (heap two_objects) 1) as Ho
    by (apply (bool_decide_unpack _); vm_compute; exact I).
  destruct (removeElementAndChildren_spec two_objects "O1" 1 Hk)
    as (_ & Hgone & _ & _ & Hkept & _ & _ & Hun).
  split; [exact Hk|]. split; [exact Ho|]. split; [exact Hgone|]. split.
  - apply Hkept; [discriminate|]. vm_compute; reflexivity.
  - apply owned_by_parent_alt in Ho as [Hp Honce]. apply (Hun Hp Honce).
Defined.

(** C2 as stated fails: after the import of a snapshot in which two nodes
    list the same child, the removed node is still reachable from the root,
    through the node that is not its parent. *)
Lemma removed_node_still_reachable :
  run constructor [AddDataFromSerializableGraph two_parents; AddObject "A" None false]
    = Some imported ∧
  wf imported ∧
  graph imported !! "X" = Some 3 ∧ parentOf (heap imported) 3 = Some 2 ∧
  edge (heap imported) (rootNode imported) 1 ∧ edge (heap imported) 1 3 ∧
  graph (removeElementAndChildren imported "X") !! "X" = None ∧
  descendant (heap (removeElementAndChildren imported "X"))
    (rootNode (removeElementAndChildren imported "X")) 3 ∧
  ¬ (∀ s i l, wf s → graph s !! i = Some l →
              ¬ descendant (heap (removeElementAndChildren s i))
                  (rootNode (removeElementAndChildren s i)) l).
Proof.
  assert (wf imported) as Hwf
    by (apply (bool_decide_unpack _); vm_compute; exact I).
  assert (graph imported !! "X" = Some 3) as Hk by (vm_compute; reflexivity).
  assert (descendant (heap (removeElementAndChildren imported "X"))
            (rootNode (removeElementAndChildren imported "X")) 3) as Hd.
  { apply (descendant_step _ _ 1).
    - apply descendant_child. unfold edge.
      apply (bool_decide_unpack _). vm_compute. exact I.
    - unfold edge. apply (bool_decide_unpack _). vm_compute. exact I. }
  split; [reflexivity|]. split; [exact Hwf|]. split; [exact Hk|].
  split; [vm_compute; reflexivity|].
  unfold edge.
  split; [apply (bool_decide_unpack _); vm_compute; exact I|].
  split; [apply (bool_decide_unpack _); vm_compute; exact I|].
  split; [vm_compute; reflexivity|]. split; [exact Hd|].
  intros Hall. exact (Hall imported "X" 3 Hwf Hk Hd).
Qed.

(** C3 as stated fails: [removeElementAndChildren] addressed to the ID of
    the root deletes the root from the registry. *)
Lemma root_removed_by_its_own_id :
  graph constructor !! ROOT = Some (rootNode constructor) ∧
  run constructor [RemoveElementAndChildren ROOT]
    = Some (removeElementAndChildren constructor ROOT) ∧
  graph (removeElementAndChildren constructor ROOT) !! ROOT = None ∧
  ¬ (∀ ops s, run constructor ops = Some s → is_Some (graph s !! ROOT)).
Proof.
  split; [vm_compute; reflexivity|]. split; [vm_compute; reflexivity|].
  split; [vm_compute; reflexivity|].
  intros Hall.
  destruct (Hall [RemoveElementAndChildren ROOT]
              (removeElementAndChildren constructor ROOT) eq_refl) as [l Hl].
  vm_compute in Hl. discriminate.
Qed.

Lemma root_stays_registered_witness :
  let ops := [OnUpdate 7; AddObject "O1" None true;
              AddFrame "O1" "F1" (Some (Linked 4)) (Some rotateX);
              RemoveElementAndChildren "O1";
              AddDataFromSerializableGraph snapshot;
              UpdateObjectWorldId "O1F1" "O1"] in
  Forall (λ o, ¬ removes ROOT o) ops ∧
  ∃ s, run constructor ops = Some s ∧ graph s !! ROOT = Some (rootNode s).
Proof.
  intros ops.
  assert (Forall (λ o, ¬ removes ROOT o) ops) as Hops
    by (apply (bool_decide_unpack _); vm_compute; exact I).
  split; [exact Hops|].
  destruct (run constructor ops) as [s|] eqn:Hrun; [|by vm_compute in Hrun].
  exists s. split; [reflexivity|].
  apply (root_stays_registered ops s Hops Hrun).
Defined.

(** C5, on the code: a call of [updateObjectWorldId] that moves the object
    node from the root to the world node calls no callback, although one is
    registered; [addObject] on the same graph calls it. *)
Lemma updateObjectWorldId_skips_callbacks :
  let s' := updateObjectWorldId two_objects "O1" "W1" in
  updateCallbacks two_objects = [7] ∧
  graph two_objects !! "O1" = Some 1 ∧ graph two_objects !! "W1" = Some 3 ∧
  parentOf (heap two_objects) 1 = Some 0 ∧
  parentOf (heap s') 1 = Some 3 ∧
  childrenOf (heap two_objects) 3 = [] ∧ childrenOf (heap s') 3 = [1] ∧
  calls s' = calls two_objects ∧
  calls (addObject two_objects "O1" None false) = calls two_objects ++ [7].
Proof. vm_compute. repeat split. Qed.


Lemma unknown_id_is_noop_witness :
  resolve two_objects (getUuid "O1" (Some "F1") (Some "N1")) = VUndefined ∧
  resolve two_objects "O9" = VUndefined ∧
  updateWithPositionData two_objects "O1" (Some "F1") (Some "N1") rotateX 1 2 3
    = two_objects ∧
  deactivateElement two_objects "O9" = two_objects ∧
  activateElement two_objects "O9" = Some two_objects.
Proof.
  split; [vm_compute; reflexivity|]. split; [vm_compute; reflexivity|].
  apply (unknown_id_is_noop two_objects "O1" (Some "F1") (Some "N1")
           rotateX 1%float 2%float 3%float "O9");
    vm_compute; reflexivity.
Defined.

(** C7 as stated fails: [toString] is not in the registry, and
    [deactivateElement] addressed to it calls the registered callback; the
    flag is written to the inherited function, and [activateElement] calls
    the callback again. *)
Lemma inherited_id_is_not_noop :
  graph one_callback !! "toString" = None ∧
  calls one_callback = [] ∧
  calls (deactivateElement one_callback "toString") = [7] ∧
  deactivateElement one_callback "toString" ≠ one_callback ∧
  (calls <$> activateElement (deactivateElement one_callback "toString")
               "toString") = Some [7; 7] ∧
  ¬ (∀ s i, graph s !! i = None → deactivateElement s i = s).
Proof.
  assert (deactivateElement one_callback "toString" ≠ one_callback) as Hne.
  { intros E. apply (f_equal calls) in E. vm_compute in E. discriminate. }
  split; [vm_compute; reflexivity|]. split; [reflexivity|].
  split; [vm_compute; reflexivity|]. split; [exact Hne|].
  split; [vm_compute; reflexivity|].
  intros Hall. apply Hne, Hall. vm_compute. reflexivity.
Qed.


Lemma updateObjectWorldId_spec_witness :
  wf two_objects ∧
  (getUuid "O1" None None = getUuid "W1" None None → "O1" = "W1") ∧
  parentOf (heap (updateObjectWorldId two_objects "O1" "W1")) 1 = Some 3.
Proof.
  assert (wf two_objects) as Hwf
    by (apply (bool_decide_unpack _); vm_compute; exact I).
  assert (getUuid "O1" None None = getUuid "W1" None None → "O1" = "W1") as Hinj
    by (vm_compute; discriminate).
  split; [exact Hwf|]. split; [exact Hinj|].
  destruct (updateObjectWorldId_spec two_objects "O1" "W1" Hwf Hinj)
    as (_ & _ & Hmove & _).
  destruct (Hmove 1 3) as (_ & _ & Hp & _);
    [vm_compute; reflexivity|vm_compute; reflexivity|discriminate|].
  exact Hp.
Defined.

Lemma addDataFromSerializableGraph_spec_witness :
  wf two_objects ∧
  graph (addDataFromSerializableGraph two_objects snapshot) !! "O1" = Some 1 ∧
  heap (addDataFromSerializableGraph two_objects snapshot) !! 1
    = heap two_objects !! 1 ∧
  ∃ l r, data_lookup snapshot "O1F1" = Some r ∧
         graph (addDataFromSerializableGraph two_objects snapshot) !! "O1F1" = Some l ∧
         parent <$> heap (addDataFromSerializableGraph two_objects snapshot) !! l
           = Some (Some 1).
Proof.
  assert (wf two_objects) as Hwf
    by (apply (bool_decide_unpack _); vm_compute; exact I).
  destruct (addDataFromSerializableGraph_spec two_objects snapshot Hwf)
    as (Hold & Hnew & _).
  split; [exact Hwf|].
  destruct (Hold "O1" 1) as [Hk Hn]; [vm_compute; reflexivity|].
  split; [exact Hk|]. split; [exact Hn|].
  destruct (Hnew "O1F1") as (l & r & Hr & Hl & _ & Hh).
  - apply (bool_decide_unpack _). vm_compute. exact I.
  - vm_compute. reflexivity.
  - exists l, r. split; [exact Hr|]. split; [exact Hl|].
    rewrite Hh. simpl.
    assert (r = mkSerializedNode rotateX (Some "O1") [] false false
                  (Some (Linked 5))) as ->
      by (vm_compute in Hr; injection Hr as <-; reflexivity).
    simpl. rewrite Hk. reflexivity.
Defined.

(** C9 as stated fails: the key [toString] of the data is not in the
    registry, and no node is created for it. *)
Lemma inherited_key_is_not_imported :
  "toString" ∈ inherited_key.*1 ∧
  graph constructor !! "toString" = None ∧
  addDataFromSerializableGraph constructor inherited_key = constructor ∧
  graph (addDataFromSerializableGraph constructor inherited_key) !! "toString"
    = None ∧
  ¬ (∀ s data k, wf s → k ∈ data.*1 → graph s !! k = None →
                 is_Some (graph (addDataFromSerializableGraph s data) !! k)).
Proof.
  assert (graph (addDataFromSerializableGraph constructor inherited_key)
            !! "toString" = None) as Hnone by (vm_compute; reflexivity).
  split; [apply list_elem_of_here|].
  split; [vm_compute; reflexivity|]. split; [vm_compute; reflexivity|].
  split; [exact Hnone|].
  intros Hall.
  destruct (Hall constructor inherited_key "toString") as [l Hl].
  - apply (bool_decide_unpack _). vm_compute. exact I.
  - apply list_elem_of_here.
  - vm_compute. reflexivity.
  - rewrite Hnone in Hl. discriminate.
Qed.

Lemma addObject_resets_parent_witness :
  wf two_objects ∧
  graph two_objects !! getUuid "O1" None None = Some 1 ∧
  parentOf (heap (updateObjectWorldId two_objects "O1" "W1")) 1 = Some 3 ∧
  parentOf (heap (addObject (updateObjectWorldId two_objects "O1" "W1")
                    "O1" None false)) 1 = Some 0 ∧
  ¬ edge (heap (addObject (updateObjectWorldId two_objects "O1" "W1")
                  "O1" None false)) 3 1.
Proof.
  assert (wf two_objects) as Hwf
    by (apply (bool_decide_unpack _); vm_compute; exact I).
  assert (graph two_objects !! getUuid "O1" None None = Some 1) as Hk
    by (vm_compute; reflexivity).
  destruct (addObject_resets_parent two_objects "O1" None false 1 Hwf Hk)
    as [_ Hscenario].
  destruct (Hscenario "W1" 3) as (Hp1 & _ & Hp2 & _ & He2).
  - discriminate.
  - vm_compute. reflexivity.
  - vm_compute. discriminate.
  - apply (bool_decide_unpack _). vm_compute. exact I.
  - split; [exact Hwf|]. split; [exact Hk|]. split; [exact Hp1|].
    split; [|exact He2]. rewrite Hp2. vm_compute. reflexivity.
Defined.

(** The distance between the root and itself on the graph of the
    examples. *)
Lemma getDistanceBetween_example :
  (getDistanceBetween two_objects "ROOT" "ROOT").2 = Some 0%float ∧
  (getDistanceBetween two_objects "ROOT" "O9").2 = Some (-1)%float.
Proof. vm_compute. done. Qed.

(** C4 as stated fails: [constructor] is not in the registry, and
    [getDistanceBetween] does not return -1 for it: [this.graph.constructor]
    is an inherited function, the condition holds, and the call of
    [getDistanceTo] on it raises a TypeError. *)
Lemma inherited_key_raises :
  graph two_objects !! "constructor" = None ∧
  graph two_objects !! "ROOT" = Some 0 ∧
  (getDistanceBetween two_objects "constructor" "ROOT").2 = None ∧
  ¬ (∀ s keyA keyB, graph s !! keyA = None →
                    (getDistanceBetween s keyA keyB).2 = Some (-1)%float).
Proof.
  assert ((getDistanceBetween two_objects "constructor" "ROOT").2 = None) as Hnone
    by (vm_compute; reflexivity).
  split; [vm_compute; reflexivity|]. split; [vm_compute; reflexivity|].
  split; [exact Hnone|].
  intros Hall. rewrite (Hall two_objects "constructor" "ROOT") in Hnone;
    [discriminate|]. vm_compute. reflexivity.
Qed.

(** ** The further properties on examples *)

Lemma reachable_states_well_formed_witness :
  ∃ s, run constructor some_calls = Some s ∧
       ∀ k1 k2 l, graph s !! k1 = Some l → graph s !! k2 = Some l → k1 = k2.
Proof.
  destruct (run constructor some_calls) as [s|] eqn:Hrun; [|by vm_compute in Hrun].
  exists s. split; [reflexivity|].
  apply (reachable_states_well_formed some_calls s Hrun).
Defined.

Lemma key_registered_until_removed_witness :
  Forall (λ o, ¬ removes "O1F1" o) some_calls ∧
  graph constructor !! "O1F1" = None ∧
  ∃ s1 s, run constructor (take 3 some_calls) = Some s1 ∧
          graph s1 !! "O1F1" = Some 3 ∧
          run s1 (drop 3 some_calls) = Some s ∧ graph s !! "O1F1" = Some 3.
Proof.
  assert (Forall (λ o, ¬ removes "O1F1" o) some_calls) as Hall
    by (apply (bool_decide_unpack _); vm_compute; exact I).
  split; [exact Hall|]. split; [vm_compute; reflexivity|].
  destruct (run constructor (take 3 some_calls)) as [s1|] eqn:H1;
    [|by vm_compute in H1].
  assert (graph s1 !! "O1F1" = Some 3) as Hk.
  { vm_compute in H1. injection H1 as <-. vm_compute. reflexivity. }
  destruct (run s1 (drop 3 some_calls)) as [s|] eqn:H2.
  - exists s1, s. split; [reflexivity|]. split; [exact Hk|]. split; [exact H2|].
    apply (key_registered_until_removed (drop 3 some_calls) s1 s "O1F1" 3);
      [|exact H2|exact Hk].
    apply (bool_decide_unpack _). vm_compute. exact I.
  - vm_compute in H1. injection H1 as <-. by vm_compute in H2.
Defined.

Lemma callbacks_are_never_unregistered_witness :
  ∃ s, run constructor some_calls = Some s ∧ updateCallbacks s = [7; 8].
Proof.
  destruct (run constructor some_calls) as [s|] eqn:Hrun; [|by vm_compute in Hrun].
  exists s. split; [reflexivity|].
  apply (callbacks_are_never_unregistered some_calls constructor s Hrun).
Defined.

Lemma deactivateElement_once_witness :
  wf two_objects ∧ graph two_objects !! "W1" = Some 3 ∧
  deactivatedOf (heap (deactivateElement two_objects "W1")) 3 = true ∧
  deactivateElement (deactivateElement two_objects "W1") "W1"
    = deactivateElement two_objects "W1".
Proof.
  assert (wf two_objects) as Hwf
    by (apply (bool_decide_unpack _); vm_compute; exact I).
  assert (graph two_objects !! "W1" = Some 3) as Hk by (vm_compute; reflexivity).
  destruct (deactivateElement_once two_objects "W1" 3 Hwf Hk) as (H1 & _ & _ & H2).
  split; [exact Hwf|]. split; [exact Hk|]. split; [exact H1|exact H2].
Defined.

Lemma activateElement_undoes_deactivateElement_witness :
  wf two_objects ∧ graph two_objects !! "W1" = Some 3 ∧
  deactivatedOf (heap two_objects) 3 = false ∧
  ∃ s', activateElement (deactivateElement two_objects "W1") "W1" = Some s' ∧
        heap s' = heap two_objects ∧
        calls s' = calls two_objects ++ [7] ++ [7].
Proof.
  assert (wf two_objects) as Hwf
    by (apply (bool_decide_unpack _); vm_compute; exact I).
  assert (graph two_objects !! "W1" = Some 3) as Hk by (vm_compute; reflexivity).
  assert (deactivatedOf (heap two_objects) 3 = false) as Hd
    by (vm_compute; reflexivity).
  destruct (activateElement_undoes_deactivateElement two_objects "W1" 3 Hwf Hk Hd)
    as (s' & Hs' & Hh & _ & _ & _ & _ & Hc & _).
  split; [exact Hwf|]. split; [exact Hk|]. split; [exact Hd|].
  exists s'. split; [exact Hs'|]. split; [exact Hh|exact Hc].
Defined.

Lemma addNode_spec_witness :
  wf with_frame ∧
  calls (addNode with_frame "O1" "F1" "N2" (Some (Linked 6)) None)
    = calls with_frame ++ updateCallbacks with_frame.
Proof.
  assert (wf with_frame) as Hwf
    by (apply (bool_decide_unpack _); vm_compute; exact I).
  split; [exact Hwf|].
  apply (addNode_spec with_frame "O1" "F1" "N2" (Some (Linked 6)) None Hwf).
Defined.

Lemma addNode_idempotent_witness :
  wf with_frame ∧
  graph (addNode (addNode with_frame "O1" "F1" "N2" (Some (Linked 6)) None)
           "O1" "F1" "N2" (Some (Linked 6)) None)
    = graph (addNode with_frame "O1" "F1" "N2" (Some (Linked 6)) None).
Proof.
  assert (wf with_frame) as Hwf
    by (apply (bool_decide_unpack _); vm_compute; exact I).
  split; [exact Hwf|].
  apply (addNode_idempotent with_frame "O1" "F1" "N2" (Some (Linked 6)) None Hwf).
Defined.

Lemma addFrame_idempotent_witness :
  wf two_objects ∧
  ∃ s1 s2, addFrame two_objects "O1" "F1" (Some (Linked 4)) None = Some s1 ∧
           addFrame s1 "O1" "F1" (Some (Linked 4)) None = Some s2 ∧ graph s2 = graph s1.
Proof.
  assert (wf two_objects) as Hwf
    by (apply (bool_decide_unpack _); vm_compute; exact I).
  split; [exact Hwf|].
  destruct (addFrame two_objects "O1" "F1" (Some (Linked 4)) None) as [s1|] eqn:H1;
    [|by vm_compute in H1].
  destruct (addFrame_idempotent two_objects "O1" "F1" (Some (Linked 4)) None s1 Hwf H1)
    as (s2 & H2 & G & _).
  exists s1, s2. split; [reflexivity|]. split; [exact H2|exact G].
Defined.

Lemma addObject_then_addFrame_witness :
  wf two_objects ∧
  ∃ lo r, graph (addObject two_objects "O2" None true) !! "O2" = Some lo ∧
          graph (addObject two_objects "O2" None true) !! "O2rotateX" = Some r ∧
          ∃ s2 l, addFrame (addObject two_objects "O2" None true)
                    "O2" "F1" None None = Some s2 ∧
                  parentOf (heap s2) l = Some r.
Proof.
  assert (wf two_objects) as Hwf
    by (apply (bool_decide_unpack _); vm_compute; exact I).
  split; [exact Hwf|].
  destruct (addObject_then_addFrame two_objects "O2" None "F1" None None Hwf)
    as (lo & r & Hlo & _ & Hr & _ & _ & s2 & l & Hadd & _ & Hp & _).
  exists lo, r. split; [exact Hlo|]. split; [exact Hr|].
  exists s2, l. split; [exact Hadd|exact Hp].
Defined.

Lemma addObjectAndChildren_spec_witness :
  wf two_objects ∧ entityCount some_object = 6 ∧
  ∃ s', addObjectAndChildren two_objects "O3" some_object = Some s' ∧
        calls s' = calls two_objects ++ [7; 7; 7; 7; 7; 7] ∧
        is_Some (graph s' !! "O3F1N2").
Proof.
  assert (wf two_objects) as Hwf
    by (apply (bool_decide_unpack _); vm_compute; exact I).
  split; [exact Hwf|]. split; [reflexivity|].
  destruct (addObjectAndChildren_spec two_objects "O3" some_object Hwf)
    as [_ Hadds].
  destruct (Hadds eq_refl) as (s' & Hadd & _ & Hc & _ & _ & Hk).
  exists s'. split; [exact Hadd|]. split; [exact Hc|].
  apply Hk. apply (bool_decide_unpack _). vm_compute. exact I.
Defined.

Lemma getSerializableCopy_spec_witness :
  wf with_frame ∧
  ∃ copy, (getSerializableCopy with_frame).2 = Some copy ∧
          addDataFromSerializableGraph (getSerializableCopy with_frame).1 copy
          = (getSerializableCopy with_frame).1.
Proof.
  assert (wf with_frame) as Hwf
    by (apply (bool_decide_unpack _); vm_compute; exact I).
  split; [exact Hwf|].
  destruct (getSerializableCopy_spec with_frame Hwf) as (_ & _ & _ & _ & Hcopy & _).
  destruct (getSerializableCopy with_frame).2 as [copy|] eqn:E;
    [|by vm_compute in E].
  exists copy. split; [reflexivity|]. apply (Hcopy copy eq_refl).
Defined.

Lemma updateWithPositionData_spec_witness :
  wf with_frame ∧
  graph with_frame !! getUuid "O1" (Some "F1") (Some "N1") = Some 5 ∧
  localMatrixOf
    (heap (updateWithPositionData with_frame "O1" (Some "F1") (Some "N1")
             identity 1 2 3)) 5 = Some identity.
Proof.
  assert (wf with_frame) as Hwf
    by (apply (bool_decide_unpack _); vm_compute; exact I).
  assert (graph with_frame !! getUuid "O1" (Some "F1") (Some "N1") = Some 5) as Hk
    by (vm_compute; reflexivity).
  split; [exact Hwf|]. split; [exact Hk|].
  apply (updateWithPositionData_spec with_frame "O1" (Some "F1") (Some "N1")
           identity 1%float 2%float 3%float 5 Hwf Hk).
Defined.

Lemma children_arrays_form_a_forest_witness :
  Forall (λ o, ¬ imports o) some_calls ∧
  ∃ s, run constructor some_calls = Some s ∧
       ∀ p, NoDup (childrenOf (heap s) p).
Proof.
  assert (Forall (λ o, ¬ imports o) some_calls) as Hall
    by (apply (bool_decide_unpack _); vm_compute; exact I).
  split; [exact Hall|].
  destruct (run constructor some_calls) as [s|] eqn:Hrun; [|by vm_compute in Hrun].
  exists s. split; [reflexivity|].
  apply (children_arrays_form_a_forest some_calls s Hall Hrun).
Defined.

Lemma readded_object_is_a_new_node_witness :
  wf with_frame ∧ graph with_frame !! getUuid "O1" None None = Some 1 ∧
  graph (addObject (removeElementAndChildren with_frame "O1") "O1" None false)
    !! "O1" = Some 6 ∧
  parentOf (heap with_frame) 2 = Some 1 ∧
  parentOf
    (heap (addObject (removeElementAndChildren with_frame "O1") "O1" None false))
    2 = Some 1.
Proof.
  assert (wf with_frame) as Hwf
    by (apply (bool_decide_unpack _); vm_compute; exact I).
  assert (graph with_frame !! getUuid "O1" None None = Some 1) as Hk
    by (vm_compute; reflexivity).
  assert (parentOf (heap with_frame) 2 = Some 1) as Hp by (vm_compute; reflexivity).
  destruct (readded_object_is_a_new_node with_frame "O1" None false 1 Hwf Hk)
    as (Hnew & _ & _ & _ & _ & Hold).
  split; [exact Hwf|]. split; [exact Hk|]. split; [exact Hnew|].
  split; [exact Hp|]. apply (Hold 2 Hp). discriminate.
Defined.


Lemma addRotateX_spec_witness :
  wf two_objects ∧ 3 < length (heap two_objects) ∧
  needsRotateXOf (heap two_objects) 3 = false ∧
  needsRotateXOf (heap (addRotateX two_objects 3 true)) 3 = true ∧
  graph (addRotateX two_objects 3 true) !! "W1rotateX" = Some 4.
Proof.
  assert (wf two_objects) as Hwf
    by (apply (bool_decide_unpack _); vm_compute; exact I).
  assert (3 < length (heap two_objects)) as Hl by (vm_compute; lia).
  destruct (addRotateX_spec two_objects 3 true Hwf Hl)
    as (Hflag & _ & _ & _ & r & Hkr & _ & Hcase & _).
  split; [exact Hwf|]. split; [exact Hl|]. split; [vm_compute; reflexivity|].
  split; [exact Hflag|].
  destruct Hcase as [Hold|[_ ->]]; [by vm_compute in Hold|exact Hkr].
Defined.
